(** * alphabet-extractor: the word-list extractor and its directed tree graph

    A shallow embedding of [src/alphabet-extractor.js] and of the directed
    tree graph module it imports ([directed-graph-tree], class [DTG]).

    Conventions of the embedding.
    - A JavaScript string is a [string]; one [ascii] stands for one code
      unit.  The arguments are typed: the [typeof ... === `string`] and
      [Array.isArray] guards are discharged by the types, the
      [words.length] and [vertices.length] guards are kept.  A value that
      may be [undefined] is an [option].
    - [console.warn] and [console.error] only write to the console; no
      function reads the console back, so the messages are left out.
    - A call either returns, throws, or exceeds the call depth [fuel]
      ([outcome]).  A call that is [OutOfFuel] at every [fuel] never
      returns (in JavaScript it ends in a stack overflow).
    - The [Map] of the graph keeps insertion order, so it is an association
      list with unique keys; arrays that are shared and pushed to during
      the traversal live in a [store] and are named by references. *)

From Stdlib Require Import String Ascii List ZArith NArith Lia Bool Arith.
From Stdlib Require Import Sorted Permutation.
From Stdlib Require OrderedTypeEx.
Import ListNotations.
Open Scope string_scope.
Open Scope list_scope.

(** ** Outcomes of a call *)

Inductive exn : Type :=
| TypeError.  (* reading a property of undefined, or spreading undefined *)

Inductive outcome (A : Type) : Type :=
| Return (a : A)
| Throw (e : exn)
| OutOfFuel.

Arguments Return {A} a.
Arguments Throw {A} e.
Arguments OutOfFuel {A}.

Definition bind {A B : Type} (m : outcome A) (k : A -> outcome B) : outcome B :=
  match m with
  | Return a => k a
  | Throw e => Throw e
  | OutOfFuel => OutOfFuel
  end.

Declare Scope outcome_scope.
Delimit Scope outcome_scope with outcome.
Notation "x <- m ;; k" := (bind m (fun x => k))
  (at level 100, m at next level, right associativity) : outcome_scope.
Open Scope outcome_scope.

Definition returns {A : Type} (m : outcome A) : bool :=
  match m with Return _ => true | _ => false end.

(** [forEach] with an accumulator: the callback runs on the elements from
    left to right, and an exception ends the loop. *)
Fixpoint foldM {A S : Type} (f : S -> A -> outcome S) (l : list A) (s : S)
  : outcome S :=
  match l with
  | [] => Return s
  | x :: l' => s' <- f s x ;; foldM f l' s'
  end.

(** ** Strings and arrays of JavaScript *)

Module JS.

(** [word.charAt(0)]: the first code unit, or the empty string. *)
Definition charAt0 (word : string) : string :=
  match word with
  | EmptyString => ""
  | String c _ => String c ""
  end.

(** [word.substring(1)]. *)
Definition substring1 (word : string) : string :=
  match word with
  | EmptyString => ""
  | String _ rest => rest
  end.

(** [word.split(``)]: one string per code unit. *)
Fixpoint split (word : string) : list string :=
  match word with
  | EmptyString => []
  | String c rest => String c "" :: split rest
  end.

(** [array.join(``)]. *)
Definition join (chars : list string) : string :=
  fold_right append "" chars.

(** [array.flat()] on an array of arrays. *)
Definition flat {A : Type} (ls : list (list A)) : list A := concat ls.

(** [array.includes(x)] on strings. *)
Definition includes (l : list string) (x : string) : bool :=
  existsb (fun y => String.eqb y x) l.

(** [[ ...new Set(array) ]]: the first occurrence of every element, in
    order of first occurrence. *)
Definition Set_of (l : list string) : list string :=
  fold_left (fun seen x => if includes seen x then seen else seen ++ [x]) l [].

(** [Array.prototype.sort] with a comparator: every element in turn is
    inserted into the sorted prefix, before the first entry it precedes
    according to the comparator (a negative answer), so that entries the
    comparator does not separate keep their order.  For the comparator of
    [getPaths], which never answers 0, the language leaves the order of
    the entries of equal length to the engine; the insertion gives the
    order that the test of [getPaths] expects. *)
Fixpoint insert {A : Type} (cmp : A -> A -> Z) (x : A) (sorted : list A) : list A :=
  match sorted with
  | [] => [x]
  | y :: rest => if (cmp x y <? 0)%Z then x :: y :: rest else y :: insert cmp x rest
  end.

Definition sort {A : Type} (cmp : A -> A -> Z) (l : list A) : list A :=
  fold_left (fun sorted x => insert cmp x sorted) l [].

(** The comparator of [sort()] without an argument: code unit order. *)
Definition default_compare (a b : string) : Z :=
  match String.compare a b with
  | Lt => (-1)%Z
  | Eq => 0%Z
  | Gt => 1%Z
  end.

(** [array.pop()] as used on a fresh array: the last element, or
    [undefined] ([None]) on an empty array. *)
Definition pop {A : Type} (l : list A) : option A :=
  match rev l with
  | [] => None
  | x :: _ => Some x
  end.

(** *** Plain objects used as maps

    The own properties of an object in insertion order.  [Object.keys]
    and [Object.values] list the keys that are array indices first, in
    ascending numeric order, and the other keys after them in insertion
    order. *)
Definition object (V : Type) : Type := list (string * V).

Definition hasOwnProperty {V : Type} (o : object V) (k : string) : bool :=
  existsb (fun e => String.eqb (fst e) k) o.

(** [o[k] = v] for a key that may be present. *)
Fixpoint set {V : Type} (o : object V) (k : string) (v : V) : object V :=
  match o with
  | [] => [(k, v)]
  | (k', v') :: o' =>
      if String.eqb k' k then (k', v) :: o' else (k', v') :: set o' k v
  end.

Fixpoint get {V : Type} (o : object V) (k : string) : option V :=
  match o with
  | [] => None
  | (k', v') :: o' => if String.eqb k' k then Some v' else get o' k
  end.

Definition is_digit (c : ascii) : bool :=
  let n := N_of_ascii c in ((48 <=? n) && (n <=? 57))%N.

Fixpoint decimal (s : string) (acc : N) : option N :=
  match s with
  | EmptyString => Some acc
  | String c rest =>
      if is_digit c then decimal rest (10 * acc + (N_of_ascii c - 48))%N else None
  end.

(** A key is an array index when it is the canonical decimal writing of
    an integer below 2^32 - 1. *)
Definition array_index (k : string) : option N :=
  match k with
  | EmptyString => None
  | String c rest =>
      if andb (Ascii.eqb c "0") (negb (String.eqb rest "")) then None
      else match decimal k 0 with
           | Some n => if (n <? 4294967295)%N then Some n else None
           | None => None
           end
  end.

Definition is_index {V : Type} (e : string * V) : bool :=
  match array_index (fst e) with Some _ => true | None => false end.

Definition index_compare {V : Type} (e1 e2 : string * V) : Z :=
  match array_index (fst e1), array_index (fst e2) with
  | Some n1, Some n2 => (Z.of_N n1 - Z.of_N n2)%Z
  | _, _ => 0%Z
  end.

Definition entries {V : Type} (o : object V) : list (string * V) :=
  sort index_compare (List.filter is_index o)
    ++ List.filter (fun e => negb (is_index e)) o.

Definition keys {V : Type} (o : object V) : list string := map fst (entries o).
Definition values {V : Type} (o : object V) : list V := map snd (entries o).

End JS.

(** ** alphabet-extractor.js *)

(** [getUniqueCharSet]: all the characters of the words, each once, sorted. *)
Definition getUniqueCharSet (words : list string) : list string :=
  match words with
  | [] => []
  | _ :: _ => JS.sort JS.default_compare (JS.Set_of (JS.flat (map JS.split words)))
  end.

(** The callback of [words.reduce] in [getOrderedCharSet]: the word joins
    the group of its first character. *)
Definition group_word (_orderedCharMap : JS.object (list string)) (word : string)
  : JS.object (list string) :=
  let firstChar := JS.charAt0 word in
  if negb (JS.hasOwnProperty _orderedCharMap firstChar) then
    JS.set _orderedCharMap firstChar [word]
  else
    match JS.get _orderedCharMap firstChar with
    | Some group => JS.set _orderedCharMap firstChar (group ++ [word])
    | None => _orderedCharMap
    end.

Definition longer_than_1 {A : Type} (l : list A) : bool := Nat.ltb 1 (length l).

(** [getOrderedCharSet]: the keys of the groups, then, for every group of
    more than one word, the result on the words without their first
    character; chains of length 0 or 1 are filtered out on return. *)
Fixpoint getOrderedCharSet (fuel : nat) (words : list string)
  : outcome (list (list string)) :=
  match fuel with
  | O => OutOfFuel
  | S fuel' =>
      match words with
      | [] => Return (List.filter longer_than_1 [])
      | _ :: _ =>
          let orderedCharMap := fold_left group_word words [] in
          orderedChars <-
            foldM (fun orderedChars _words =>
                     let trimmedWords := map JS.substring1 _words in
                     more <- getOrderedCharSet fuel' trimmedWords ;;
                     Return (orderedChars ++ more))
                  (List.filter longer_than_1 (JS.values orderedCharMap))
                  [JS.keys orderedCharMap] ;;
          Return (List.filter longer_than_1 orderedChars)
      end
  end.

(** ** directed-graph-tree: the class [DTG] *)

Module DTG.

(** The node object stored in the map for every vertex. *)
Record node : Type := Node {
  vertexStart : string;
  isRoot : bool;
  vertexEnds : list string
}.

(** [dtg._map]: a [Map] from vertex to node, in insertion order. *)
Definition t : Type := list (string * node).

(** [new DTG()]. *)
Definition new : t := [].

Definition Map_has (m : t) (k : string) : bool :=
  existsb (fun e => String.eqb (fst e) k) m.

Fixpoint Map_get (m : t) (k : string) : option node :=
  match m with
  | [] => None
  | (k', n) :: m' => if String.eqb k' k then Some n else Map_get m' k
  end.

(** [map.set(k, n)]: a present key keeps its place, a new key goes last. *)
Fixpoint Map_set (m : t) (k : string) (n : node) : t :=
  match m with
  | [] => [(k, n)]
  | (k', n') :: m' =>
      if String.eqb k' k then (k', n) :: m' else (k', n') :: Map_set m' k n
  end.

Definition Map_size (m : t) : nat := length m.

Definition hasVertex (dtg : t) (vertex : string) : bool := Map_has dtg vertex.

Definition isRootVertex (dtg : t) (vertex : string) : bool :=
  if hasVertex dtg vertex then
    match Map_get dtg vertex with
    | Some node => isRoot node
    | None => false
    end
  else false.

Definition isLeafVertex (dtg : t) (vertex : string) : bool :=
  if hasVertex dtg vertex then
    match Map_get dtg vertex with
    | Some node => negb (isRoot node) && Nat.eqb (length (vertexEnds node)) 0
    | None => false
    end
  else false.

Definition isBranchVertex (dtg : t) (vertex : string) : bool :=
  if hasVertex dtg vertex then
    match Map_get dtg vertex with
    | Some node => negb (isRoot node) && Nat.ltb 1 (length (vertexEnds node))
    | None => false
    end
  else false.

Definition isFullyConnected (dtg : t) : bool :=
  if negb (Nat.eqb (Map_size dtg) 0) then
    let count :=
      fold_left (fun count e => if isRoot (snd e) then count + 1 else count) dtg 0 in
    Nat.eqb count 1
  else false.

Definition hasEdge (dtg : t) (vertexStart vertexEnd : string) : bool :=
  if hasVertex dtg vertexStart && hasVertex dtg vertexEnd then
    match Map_get dtg vertexStart with
    | Some startingNode =>
        existsb (fun _vertexEnd => String.eqb _vertexEnd vertexEnd)
                (vertexEnds startingNode)
    | None => false
    end
  else false.

(** [addVertices]: the vertices not yet in the map are selected first,
    then every selected vertex is set to a fresh root node. *)
Definition addVertices (dtg : t) (vertices : list string) : t :=
  match vertices with
  | [] => dtg
  | _ :: _ =>
      fold_left
        (fun _map vertex =>
           Map_set _map vertex
                   {| vertexStart := vertex; isRoot := true; vertexEnds := [] |})
        (List.filter (fun vertex => negb (hasVertex dtg vertex)) vertices)
        dtg
  end.

(** [createEdge]: the four rejections leave the map as it is; otherwise
    the end is pushed on the starting node and the ending node stops
    being a root.  The two nodes are different objects, as the two
    vertices differ. *)
Definition createEdge (dtg : t) (vertexStart vertexEnd : string) : t :=
  if String.eqb vertexStart vertexEnd then dtg
  else if negb (hasVertex dtg vertexStart) then dtg
  else if negb (hasVertex dtg vertexEnd) then dtg
  else if hasEdge dtg vertexStart vertexEnd then dtg
  else
    match Map_get dtg vertexStart, Map_get dtg vertexEnd with
    | Some startingNode, Some endingNode =>
        let startingNode' :=
          {| vertexStart := DTG.vertexStart startingNode;
             isRoot := isRoot startingNode;
             vertexEnds := vertexEnds startingNode ++ [vertexEnd] |} in
        let endingNode' :=
          {| vertexStart := DTG.vertexStart endingNode;
             isRoot := false;
             vertexEnds := vertexEnds endingNode |} in
        Map_set (Map_set dtg vertexStart startingNode') vertexEnd endingNode'
    | _, _ => dtg
    end.

(** The callback of [vertices.forEach] in [createDaisyChainEdges]; the
    state is the graph and the variable [vertexStart] ([None] while it
    is still undefined, that is at index 0). *)
Definition daisy_step (state : t * option string) (vertex : string)
  : t * option string :=
  let '(dtg, vertexStart) := state in
  match vertexStart with
  | Some vertexStart => (createEdge dtg vertexStart vertex, Some vertex)
  | None => (dtg, Some vertex)
  end.

Definition createDaisyChainEdges (dtg : t) (vertices : list string) : t :=
  match vertices with
  | [] => dtg
  | _ :: _ => fst (fold_left daisy_step vertices (dtg, None))
  end.

(** *** The arrays of visited vertices

    [visitedVertices] arrays are shared: [collect] keeps the array
    itself in [paths], and a later [push] on it is seen through
    [paths].  The store holds the arrays by reference. *)
Definition ref : Type := nat.

Record store : Type := Store {
  heap : list (list string);
  paths : list ref
}.

Definition empty_store : store := {| heap := []; paths := [] |}.

Definition deref (st : store) (r : ref) : list string := nth r (heap st) [].

(** A new array, as [[ rootNode.vertexStart ]] or [[ ...visitedVertices, vertexEnd ]]. *)
Definition alloc (a : list string) (st : store) : ref * store :=
  (length (heap st), {| heap := heap st ++ [a]; paths := paths st |}).

Fixpoint update {A : Type} (i : nat) (f : A -> A) (l : list A) : list A :=
  match l, i with
  | [], _ => []
  | x :: l', O => f x :: l'
  | x :: l', S i' => x :: update i' f l'
  end.

(** [visitedVertices.push(vertexEnd)]. *)
Definition push (r : ref) (vertexEnd : string) (st : store) : store :=
  {| heap := update r (fun a => a ++ [vertexEnd]) (heap st); paths := paths st |}.

(** [collect(visitedVertices)], that is [paths.push(visitedVertices)]. *)
Definition collect (r : ref) (st : store) : store :=
  {| heap := heap st; paths := paths st ++ [r] |}.

(** [_traverse].  [startingNode] is [None] when the caller passes
    [undefined]: reading [startingNode.vertexStart] then throws.  In the
    last case an empty [vertexEnds] makes [vertexEnd] and [endingNode]
    undefined: [includes] is false, [undefined] is pushed and the
    recursive call throws before the array is read again. *)
Fixpoint _traverse (fuel : nat) (dtg : t) (startingNode : option node)
         (visitedVertices : ref) (st : store) : outcome store :=
  match fuel with
  | O => OutOfFuel
  | S fuel' =>
      match startingNode with
      | None => Throw TypeError
      | Some startingNode =>
          let vertexStart := DTG.vertexStart startingNode in
          if isLeafVertex dtg vertexStart then
            Return (collect visitedVertices st)
          else if isBranchVertex dtg vertexStart then
            foldM (fun st vertexEnd =>
                     let endingNode := Map_get dtg vertexEnd in
                     if JS.includes (deref st visitedVertices) vertexEnd then
                       Return (collect visitedVertices
                                       (push visitedVertices vertexEnd st))
                     else
                       let '(copy, st') :=
                         alloc (deref st visitedVertices ++ [vertexEnd]) st in
                       _traverse fuel' dtg endingNode copy st')
                  (vertexEnds startingNode) st
          else
            match vertexEnds startingNode with
            | [] => _traverse fuel' dtg None visitedVertices st
            | vertexEnd :: _ =>
                let endingNode := Map_get dtg vertexEnd in
                if JS.includes (deref st visitedVertices) vertexEnd then
                  Return (collect visitedVertices
                                  (push visitedVertices vertexEnd st))
                else
                  _traverse fuel' dtg endingNode visitedVertices
                            (push visitedVertices vertexEnd st)
            end
      end
  end.

(** The comparator given to [paths.sort] in [getPaths]; it never
    answers 0. *)
Definition compare_paths (pathA pathB : list string) : Z :=
  if Nat.ltb (length pathA) (length pathB) then (-1)%Z else 1%Z.

(** [getPaths]: one traversal per root, in map order; then the collected
    arrays are sorted by length. *)
Definition getPaths (fuel : nat) (dtg : t) : outcome (list (list string)) :=
  if negb (Nat.eqb (Map_size dtg) 0) then
    st <- foldM (fun st e =>
                   let node := snd e in
                   if isRoot node then
                     let rootNode := node in
                     let '(visitedVertices, st') :=
                       alloc [DTG.vertexStart rootNode] st in
                     _traverse fuel dtg (Some rootNode) visitedVertices st'
                   else Return st)
                dtg empty_store ;;
    Return (JS.sort compare_paths (map (deref st) (paths st)))
  else Return [].

(** [getLoopCount]. *)
Definition getLoopCount (fuel : nat) (dtg : t) : outcome nat :=
  paths <- getPaths fuel dtg ;;
  Return (fold_left
            (fun count visitedVertices =>
               let hasLoop :=
                 negb (Nat.eqb (length (JS.Set_of visitedVertices))
                               (length visitedVertices)) in
               if hasLoop then count + 1 else count)
            paths 0).

End DTG.

(** ** alphabet-extractor.js, continued *)

(** [extractAlphabetChars].  The result is [None] when [pop()] gives
    [undefined].  The two checks only warn, but they are evaluated:
    [getLoopCount] traverses again, and [[ ...alphabetChars ]] throws on
    [undefined] when the left operand of [||] is false. *)
Definition extractAlphabetChars (fuel : nat) (words : list string)
  : outcome (option (list string)) :=
  match words with
  | [] => Return (Some [])
  | _ :: _ =>
      let dtg := DTG.new in
      let uniqueChars := getUniqueCharSet words in
      orderedChars <- getOrderedCharSet fuel words ;;
      let dtg := DTG.addVertices dtg uniqueChars in
      let dtg := fold_left DTG.createDaisyChainEdges orderedChars dtg in
      paths <- DTG.getPaths fuel dtg ;;
      let alphabetChars := JS.pop paths in
      loopCount <- DTG.getLoopCount fuel dtg ;;
      let notSorted := negb (Nat.eqb loopCount 0) in
      notEnough <-
        (if negb (DTG.isFullyConnected dtg) then Return true
         else match alphabetChars with
              | None => Throw TypeError
              | Some chars =>
                  Return (negb (String.eqb (JS.join uniqueChars)
                                           (JS.join (JS.sort JS.default_compare chars))))
              end) ;;
      Return alphabetChars
  end.

Definition sample_words : list string := ["bca"; "aaa"; "acb"; "ddb"; "dca"].

Definition graph_of (vertices : list string) (chains : list (list string)) : DTG.t :=
  fold_left DTG.createDaisyChainEdges chains (DTG.addVertices DTG.new vertices).

(** ** Histories of graph operations *)

Inductive operation : Type :=
| AddVertices (vertices : list string)
| CreateEdge (vertexStart vertexEnd : string)
| CreateDaisyChainEdges (vertices : list string).

Definition apply (dtg : DTG.t) (op : operation) : DTG.t :=
  match op with
  | AddVertices vertices => DTG.addVertices dtg vertices
  | CreateEdge vertexStart vertexEnd => DTG.createEdge dtg vertexStart vertexEnd
  | CreateDaisyChainEdges vertices => DTG.createDaisyChainEdges dtg vertices
  end.

Definition run (ops : list operation) (dtg : DTG.t) : DTG.t := fold_left apply ops dtg.

(** What a later graph keeps of an earlier one: every vertex, the ends it
    already had (in front, in order), and a lowered [isRoot] flag. *)
Definition keeps (n n' : DTG.node) : Prop :=
  DTG.vertexStart n' = DTG.vertexStart n
  /\ (DTG.isRoot n = false -> DTG.isRoot n' = false)
  /\ exists more, DTG.vertexEnds n' = DTG.vertexEnds n ++ more.

Definition extends (dtg dtg' : DTG.t) : Prop :=
  forall k n, DTG.Map_get dtg k = Some n ->
              exists n', DTG.Map_get dtg' k = Some n' /\ keeps n n'.

(** The keys of a [Map] are unique. *)
Definition unique_keys (dtg : DTG.t) : Prop := NoDup (map fst dtg).

(** No node lists its own vertex among its ends. *)
Definition loop_free (dtg : DTG.t) : Prop :=
  forall k n, DTG.Map_get dtg k = Some n -> ~ In k (DTG.vertexEnds n).

(** ** Notions used to state the properties *)

(** A sequence of symbols with a symbol that occurs twice. *)
Fixpoint has_duplicate (p : list string) : bool :=
  match p with
  | [] => false
  | x :: p' => JS.includes p' x || has_duplicate p'
  end.

(** Ascending by length. *)
Definition shorter_eq (p q : list string) : Prop := length p <= length q.
Definition ascending (paths : list (list string)) : Prop :=
  StronglySorted shorter_eq paths.

(** A walk along edges that starts at [v] and ends at a vertex without
    outgoing edges. *)
Inductive walk_to_end (dtg : DTG.t) : string -> list string -> Prop :=
| walk_end (v : string) (n : DTG.node) :
    DTG.Map_get dtg v = Some n -> DTG.vertexEnds n = [] ->
    walk_to_end dtg v [v]
| walk_edge (v w : string) (p : list string) :
    DTG.hasEdge dtg v w = true -> walk_to_end dtg w p ->
    walk_to_end dtg v (v :: p).

(** A path from a root to a terminal vertex. *)
Definition root_to_terminal (dtg : DTG.t) (p : list string) : Prop :=
  exists v, DTG.isRootVertex dtg v = true /\ walk_to_end dtg v p.

(** [p] is the last entry of [paths] and every other entry is shorter. *)
Definition single_longest (paths : list (list string)) (p : list string) : Prop :=
  exists front, paths = front ++ [p] /\ Forall (fun q => length q < length p) front.

(** ** The graphs of the examples *)

(** The chain a -> b -> c -> d, and the same with the edge d -> b. *)
Definition chain_graph : DTG.t :=
  run [AddVertices ["a"; "b"; "c"; "d"];
       CreateDaisyChainEdges ["a"; "b"; "c"; "d"]] DTG.new.

Definition chain_loop_graph : DTG.t := DTG.createEdge chain_graph "d" "b".

(** The two chains a -> b -> c and d -> e -> f, and the same with c -> d. *)
Definition two_chains_graph : DTG.t :=
  run [AddVertices ["a"; "b"; "c"; "d"; "e"; "f"];
       CreateDaisyChainEdges ["a"; "b"; "c"];
       CreateDaisyChainEdges ["d"; "e"; "f"]] DTG.new.

Definition joined_chains_graph : DTG.t := DTG.createEdge two_chains_graph "c" "d".

(** The graph with twelve vertices and twelve edges. *)
Definition twelve_graph : DTG.t :=
  run [AddVertices ["a"; "b"; "c"; "d"; "e"; "f"; "g"; "h"; "i"; "x"; "y"; "z"];
       CreateDaisyChainEdges ["a"; "b"; "e"; "f"];
       CreateEdge "d" "g";
       CreateEdge "d" "x";
       CreateEdge "x" "y";
       CreateEdge "x" "z";
       CreateDaisyChainEdges ["b"; "c"; "d"; "e"];
       CreateEdge "f" "g";
       CreateEdge "h" "i"] DTG.new.

Definition twelve_paths : list (list string) :=
  [["h"; "i"];
   ["a"; "b"; "e"; "f"; "g"];
   ["a"; "b"; "c"; "d"; "g"];
   ["a"; "b"; "c"; "d"; "x"; "y"];
   ["a"; "b"; "c"; "d"; "x"; "z"];
   ["a"; "b"; "c"; "d"; "e"; "f"; "g"]].

(** A root with two outgoing edges: a -> b and a -> c. *)
Definition fork_graph : DTG.t :=
  run [AddVertices ["a"; "b"; "c"]; CreateEdge "a" "b"; CreateEdge "a" "c"] DTG.new.

(** The example in the comment of [getPaths]: e alone, a - b - c - d and
    c - f - g. *)
Definition comment_graph : DTG.t :=
  run [AddVertices ["a"; "b"; "c"; "d"; "e"; "f"; "g"];
       CreateDaisyChainEdges ["a"; "b"; "c"; "d"];
       CreateDaisyChainEdges ["c"; "f"; "g"]] DTG.new.

(** One vertex and no edge. *)
Definition single_graph : DTG.t := run [AddVertices ["a"]] DTG.new.

(** Two vertices on a cycle, so that no vertex is a root. *)
Definition cycle_graph : DTG.t :=
  run [AddVertices ["a"; "b"]; CreateEdge "a" "b"; CreateEdge "b" "a"] DTG.new.

(** ** Auxiliary definitions of the proofs *)

(** The node that [addVertices] sets for a vertex. *)
Definition fresh_node (vertex : string) : DTG.node :=
  {| DTG.vertexStart := vertex; DTG.isRoot := true; DTG.vertexEnds := [] |}.

(** The test inside the loop of [isFullyConnected]. *)
Definition root_entry (e : string * DTG.node) : bool := DTG.isRoot (snd e).

(** The step of [JS.Set_of]. *)
Definition Set_add (seen : list string) (x : string) : list string :=
  if JS.includes seen x then seen else seen ++ [x].

(** Every node is stored under its own vertex. *)
Definition named (dtg : DTG.t) : Prop :=
  forall k n, DTG.Map_get dtg k = Some n -> DTG.vertexStart n = k.

(** Every end of an edge is a vertex of the graph. *)
Definition closed (dtg : DTG.t) : Prop :=
  forall k n e, DTG.Map_get dtg k = Some n -> In e (DTG.vertexEnds n) ->
                DTG.hasVertex dtg e = true.

(** The number of vertices that are not on a path. *)
Definition unvisited (dtg : DTG.t) (path : list string) : nat :=
  length (List.filter (fun e => negb (JS.includes path (fst e))) dtg).

(** From [st] to [st'] the heap only grows, and the arrays of [st] other
    than [r] are as they were. *)
Definition frame (r : DTG.ref) (st st' : DTG.store) : Prop :=
  length (DTG.heap st) <= length (DTG.heap st')
  /\ forall r', r' < length (DTG.heap st) -> r' <> r ->
                DTG.deref st' r' = DTG.deref st r'.

(** The words of a list that start with the key [k] ([k] is empty for
    the empty word). *)
Definition key_of (k : string) (word : string) : bool :=
  String.eqb (JS.charAt0 word) k.

Definition group_of (k : string) (words : list string) : list string :=
  List.filter (key_of k) words.

(** The object built by [words.reduce] after the words [done]: every
    property holds the words of its key, every word has its property. *)
Definition grouped (o : JS.object (list string)) (done : list string) : Prop :=
  NoDup (map fst o)
  /\ (forall k g, JS.get o k = Some g -> g = group_of k done)
  /\ (forall w, In w done -> exists g, JS.get o (JS.charAt0 w) = Some g).

(** A root without outgoing edges. *)
Definition isolated (dtg : DTG.t) (v : string) : Prop :=
  exists n, DTG.Map_get dtg v = Some n
            /\ DTG.isRoot n = true /\ DTG.vertexEnds n = [].

(** ** Notions used by the further properties *)

(** The pairs of neighbours of a list, from left to right. *)
Fixpoint consecutive {A : Type} (l : list A) : list (A * A) :=
  match l with
  | [] => []
  | a :: rest =>
      match rest with
      | [] => []
      | b :: _ => (a, b) :: consecutive rest
      end
  end.

(** The ends of every node are pairwise different. *)
Definition distinct_ends (dtg : DTG.t) : Prop :=
  forall k n, DTG.Map_get dtg k = Some n -> NoDup (DTG.vertexEnds n).

(** The [isRoot] flag of a node says that no edge ends at its vertex. *)
Definition root_flags (dtg : DTG.t) : Prop :=
  forall k n, DTG.Map_get dtg k = Some n ->
              (DTG.isRoot n = true <-> forall u, DTG.hasEdge dtg u k = false).

(** Code unit order on strings, strict. *)
Definition code_unit_lt (a b : string) : Prop := String.compare a b = Lt.

(** A path that starts at a root and runs over vertices of the graph. *)
Definition rooted (dtg : DTG.t) (p : list string) : Prop :=
  (exists v rest, p = v :: rest /\ DTG.isRootVertex dtg v = true)
  /\ Forall (fun x => DTG.hasVertex dtg x = true) p.

(** The arrays of the store are rooted paths, and the collected
    references are references of the store. *)
Definition store_rooted (dtg : DTG.t) (st : DTG.store) : Prop :=
  Forall (rooted dtg) (DTG.heap st)
  /\ Forall (fun r => r < length (DTG.heap st)) (DTG.paths st).

(** [a] is a walk along edges that starts at a root and stands at [k]. *)
Definition walk_at (dtg : DTG.t) (a : list string) (k : string) : Prop :=
  (exists front, a = front ++ [k])
  /\ (exists v rest, a = v :: rest /\ DTG.isRootVertex dtg v = true)
  /\ Forall (fun p => DTG.hasEdge dtg (fst p) (snd p) = true) (consecutive a).

(** The array of a traversal that has not met a vertex twice is such a
    walk; a collected array without a repeated vertex is a path from a
    root to a terminal vertex. *)
Definition tracked (dtg : DTG.t) (a : list string) (k : string) : Prop :=
  NoDup a -> walk_at dtg a k.

Definition finished (dtg : DTG.t) (a : list string) : Prop :=
  NoDup a -> root_to_terminal dtg a.

Definition store_finished (dtg : DTG.t) (st : DTG.store) : Prop :=
  Forall (fun r => r < length (DTG.heap st) /\ finished dtg (DTG.deref st r))
         (DTG.paths st).

(** ** Lemmas on loops *)

Section LoopFacts.

Lemma foldM_no_return {A S : Type} (f : S -> A -> outcome S) (l : list A) (x : A) :
  In x l -> (forall s, returns (f s x) = false) ->
  forall s, returns (foldM f l s) = false.
Proof.
  intros Hin Hx. induction l as [|y l IH]; simpl; intros s; [contradiction|].
  destruct Hin as [->|Hin].
  - specialize (Hx s). destruct (f s x); simpl in *; congruence.
  - destruct (f s y); simpl; auto.
Qed.

Lemma foldM_skip {A S : Type} (f : S -> A -> outcome S) (l : list A) (s : S) :
  (forall x, In x l -> f s x = Return s) -> foldM f l s = Return s.
Proof.
  induction l as [|y l IH]; simpl; intros H; [reflexivity|].
  rewrite (H y) by now left. simpl. apply IH. intros x Hx. apply H. now right.
Qed.

Lemma foldM_settled {A S : Type} (f : S -> A -> outcome S) (l : list A) :
  (forall x s, In x l -> f s x <> OutOfFuel) ->
  forall s, foldM f l s <> OutOfFuel.
Proof.
  induction l as [|y l IH]; simpl; intros H s; [discriminate|].
  destruct (f s y) eqn:Hy; simpl.
  - apply IH. intros x s' Hx. apply H. now right.
  - discriminate.
  - exfalso. apply (H y s); auto.
Qed.

Lemma foldM_no_throw {A S : Type} (f : S -> A -> outcome S) (l : list A) (e : exn) :
  (forall x s, In x l -> f s x <> Throw e) ->
  forall s, foldM f l s <> Throw e.
Proof.
  induction l as [|y l IH]; simpl; intros H s; [discriminate|].
  destruct (f s y) eqn:Hy; simpl.
  - apply IH. intros x s' Hx. apply H. now right.
  - intros [= ->]. apply (H y s); auto.
  - discriminate.
Qed.

Lemma foldM_returns {A S : Type} (f : S -> A -> outcome S) (l : list A) :
  (forall x s, In x l -> exists s', f s x = Return s') ->
  forall s, exists s', foldM f l s = Return s'.
Proof.
  induction l as [|y l IH]; simpl; intros H s; [eauto|].
  destruct (H y s) as [s1 ->]; [now left|]. simpl.
  apply IH. intros x s' Hx. apply H. now right.
Qed.

End LoopFacts.

(** ** Lemmas on the map *)

Section MapFacts.

Import DTG.

Lemma Map_has_get (m : t) (k : string) :
  Map_has m k = match Map_get m k with Some _ => true | None => false end.
Proof.
  induction m as [|[k' n'] m IH]; simpl; [reflexivity|].
  destruct (String.eqb k' k); simpl; auto.
Qed.

Lemma Map_get_set (m : t) (k k' : string) (n : node) :
  Map_get (Map_set m k n) k' =
  if String.eqb k k' then Some n else Map_get m k'.
Proof.
  induction m as [|[k0 n0] m IH]; simpl.
  - reflexivity.
  - destruct (String.eqb_spec k0 k) as [->|Hne]; simpl.
    + destruct (String.eqb k k'); reflexivity.
    + rewrite IH. destruct (String.eqb_spec k0 k') as [->|Hne'].
      * destruct (String.eqb_spec k k') as [->|]; [congruence|reflexivity].
      * reflexivity.
Qed.

Lemma Map_set_keys_present (m : t) (k : string) (n : node) :
  Map_has m k = true -> map fst (Map_set m k n) = map fst m.
Proof.
  induction m as [|[k0 n0] m IH]; simpl; [discriminate|].
  destruct (String.eqb_spec k0 k) as [->|Hne]; simpl; intros H.
  - reflexivity.
  - f_equal. auto.
Qed.

Lemma Map_set_keys_absent (m : t) (k : string) (n : node) :
  Map_has m k = false -> map fst (Map_set m k n) = map fst m ++ [k].
Proof.
  induction m as [|[k0 n0] m IH]; simpl; [reflexivity|].
  destruct (String.eqb_spec k0 k) as [->|Hne]; simpl; intros H.
  - discriminate.
  - f_equal. auto.
Qed.

Lemma Map_has_In (m : t) (k : string) :
  Map_has m k = true <-> In k (map fst m).
Proof.
  unfold Map_has. rewrite existsb_exists, in_map_iff. split.
  - intros [e [He Hk]]. exists e. split; [|assumption].
    now apply String.eqb_eq.
  - intros [e [Hk He]]. exists e. split; [assumption|].
    now apply String.eqb_eq.
Qed.

Lemma Map_get_In (m : t) (k : string) (n : node) :
  Map_get m k = Some n -> In (k, n) m.
Proof.
  induction m as [|[k0 n0] m IH]; simpl; [discriminate|].
  destruct (String.eqb_spec k0 k) as [->|Hne]; intros H.
  - left. congruence.
  - right. auto.
Qed.

Lemma In_Map_get (m : t) (k : string) (n : node) :
  unique_keys m -> In (k, n) m -> Map_get m k = Some n.
Proof.
  unfold unique_keys.
  induction m as [|[k0 n0] m IH]; simpl; [contradiction|].
  intros Hnd [Heq|Hin].
  - inversion Heq; subst. now rewrite String.eqb_refl.
  - inversion Hnd as [|? ? Hnotin Hnd']; subst.
    destruct (String.eqb_spec k0 k) as [->|Hne].
    + exfalso. apply Hnotin. apply in_map_iff. now exists (k, n).
    + auto.
Qed.

Lemma unique_keys_set (m : t) (k : string) (n : node) :
  unique_keys m -> unique_keys (Map_set m k n).
Proof.
  unfold unique_keys. intros Hnd.
  destruct (Map_has m k) eqn:Hk.
  - now rewrite Map_set_keys_present.
  - rewrite Map_set_keys_absent by assumption.
    apply NoDup_app; [assumption|repeat constructor; intros []|].
    intros x Hx [<-|[]].
    apply Map_has_In in Hx. congruence.
Qed.

End MapFacts.

(** ** Lemmas on the graph operations *)

Section GraphFacts.

Import DTG.

Lemma keeps_refl (n : node) : keeps n n.
Proof.
  repeat split; auto. exists []. now rewrite app_nil_r.
Qed.

Lemma keeps_trans (n1 n2 n3 : node) : keeps n1 n2 -> keeps n2 n3 -> keeps n1 n3.
Proof.
  intros (Hs & Hr & more & He) (Hs' & Hr' & more' & He').
  repeat split.
  - congruence.
  - auto.
  - exists (more ++ more'). rewrite He', He. now rewrite app_assoc.
Qed.

Lemma extends_refl (dtg : t) : extends dtg dtg.
Proof.
  intros k n H. exists n. split; [assumption|apply keeps_refl].
Qed.

Lemma extends_trans (g1 g2 g3 : t) : extends g1 g2 -> extends g2 g3 -> extends g1 g3.
Proof.
  intros H12 H23 k n Hk.
  destruct (H12 k n Hk) as (n2 & Hk2 & K12).
  destruct (H23 k n2 Hk2) as (n3 & Hk3 & K23).
  exists n3. split; [assumption|]. eapply keeps_trans; eassumption.
Qed.

(** The four rejections of [createEdge]. *)
Lemma createEdge_rejected (dtg : t) (vertexStart vertexEnd : string) :
  vertexStart = vertexEnd
  \/ hasVertex dtg vertexStart = false
  \/ hasVertex dtg vertexEnd = false
  \/ hasEdge dtg vertexStart vertexEnd = true ->
  createEdge dtg vertexStart vertexEnd = dtg.
Proof.
  unfold createEdge. intros [->|[H|[H|H]]].
  - now rewrite String.eqb_refl.
  - rewrite H. simpl. now destruct (String.eqb _ _).
  - rewrite H. simpl. destruct (String.eqb _ _); [reflexivity|].
    now destruct (negb _).
  - rewrite H. destruct (String.eqb _ _); [reflexivity|].
    destruct (negb _); [reflexivity|]. now destruct (negb _).
Qed.

(** What an accepted [createEdge] does, seen through the map. *)
Lemma createEdge_accepted (dtg : t) (vertexStart vertexEnd : string) :
  vertexStart <> vertexEnd ->
  hasVertex dtg vertexStart = true ->
  hasVertex dtg vertexEnd = true ->
  hasEdge dtg vertexStart vertexEnd = false ->
  exists startingNode endingNode,
    Map_get dtg vertexStart = Some startingNode
    /\ Map_get dtg vertexEnd = Some endingNode
    /\ createEdge dtg vertexStart vertexEnd =
       Map_set
         (Map_set dtg vertexStart
                  {| vertexStart := DTG.vertexStart startingNode;
                     isRoot := isRoot startingNode;
                     vertexEnds := vertexEnds startingNode ++ [vertexEnd] |})
         vertexEnd
         {| vertexStart := DTG.vertexStart endingNode;
            isRoot := false;
            vertexEnds := vertexEnds endingNode |}.
Proof.
  intros Hne Hs He Hedge. unfold createEdge.
  apply String.eqb_neq in Hne. rewrite Hne, Hs, He, Hedge. simpl.
  unfold hasVertex in Hs, He. rewrite Map_has_get in Hs, He.
  destruct (Map_get dtg vertexStart) as [sn|]; [|discriminate].
  destruct (Map_get dtg vertexEnd) as [en|]; [|discriminate].
  exists sn, en. auto.
Qed.

(** [createEdge] either rejects or is accepted. *)
Lemma createEdge_cases (dtg : t) (vertexStart vertexEnd : string) :
  createEdge dtg vertexStart vertexEnd = dtg
  \/ (vertexStart <> vertexEnd
      /\ hasVertex dtg vertexStart = true
      /\ hasVertex dtg vertexEnd = true
      /\ hasEdge dtg vertexStart vertexEnd = false).
Proof.
  destruct (String.eqb_spec vertexStart vertexEnd) as [Heq|Hne].
  { left. apply createEdge_rejected. auto. }
  destruct (hasVertex dtg vertexStart) eqn:Hs.
  2:{ left. apply createEdge_rejected. auto. }
  destruct (hasVertex dtg vertexEnd) eqn:He.
  2:{ left. apply createEdge_rejected. auto. }
  destruct (hasEdge dtg vertexStart vertexEnd) eqn:Hedge.
  { left. apply createEdge_rejected. auto. }
  right. auto.
Qed.

Lemma createEdge_extends (dtg : t) (vertexStart vertexEnd : string) :
  extends dtg (createEdge dtg vertexStart vertexEnd).
Proof.
  destruct (createEdge_cases dtg vertexStart vertexEnd) as [->|(Hne & Hs & He & Hedge)].
  { apply extends_refl. }
  destruct (createEdge_accepted dtg vertexStart vertexEnd Hne Hs He Hedge) as (sn & en & Hsn & Hen & ->).
  intros k n Hk. rewrite !Map_get_set.
  destruct (String.eqb_spec vertexEnd k) as [<-|Hk1].
  - eexists. split; [reflexivity|].
    assert (n = en) as -> by congruence.
    repeat split; simpl; auto. exists []. now rewrite app_nil_r.
  - destruct (String.eqb_spec vertexStart k) as [<-|Hk2].
    + eexists. split; [reflexivity|].
      assert (n = sn) as -> by congruence.
      repeat split; simpl; auto. now exists [vertexEnd].
    + exists n. split; [assumption|apply keeps_refl].
Qed.

Lemma createEdge_unique_keys (dtg : t) (vertexStart vertexEnd : string) :
  unique_keys dtg -> unique_keys (createEdge dtg vertexStart vertexEnd).
Proof.
  intros H.
  destruct (createEdge_cases dtg vertexStart vertexEnd) as [->|(Hne & Hs & He & Hedge)].
  { assumption. }
  destruct (createEdge_accepted dtg vertexStart vertexEnd Hne Hs He Hedge) as (sn & en & Hsn & Hen & ->).
  now apply unique_keys_set, unique_keys_set.
Qed.

Lemma createEdge_loop_free (dtg : t) (vertexStart vertexEnd : string) :
  loop_free dtg -> loop_free (createEdge dtg vertexStart vertexEnd).
Proof.
  intros H.
  destruct (createEdge_cases dtg vertexStart vertexEnd) as [->|(Hne & Hs & He & Hedge)].
  { assumption. }
  destruct (createEdge_accepted dtg vertexStart vertexEnd Hne Hs He Hedge) as (sn & en & Hsn & Hen & ->).
  intros k n. rewrite !Map_get_set.
  destruct (String.eqb_spec vertexEnd k) as [<-|Hk1].
  - intros [= <-]. simpl. now apply H.
  - destruct (String.eqb_spec vertexStart k) as [<-|Hk2].
    + intros [= <-]. simpl. rewrite in_app_iff. intros [Hin|[Heq|[]]].
      * now apply (H vertexStart sn).
      * congruence.
    + apply H.
Qed.

Lemma add_loop_get (vertices : list string) (m : t) (k : string) :
  ~ In k vertices ->
  Map_get (fold_left (fun _map vertex => Map_set _map vertex (fresh_node vertex))
                     vertices m) k
  = Map_get m k.
Proof.
  revert m. induction vertices as [|v vs IH]; simpl; intros m Hk; [reflexivity|].
  rewrite IH by tauto. rewrite Map_get_set.
  destruct (String.eqb_spec v k) as [->|]; [tauto|reflexivity].
Qed.

Lemma add_loop_get_new (vertices : list string) (m : t) (k : string) :
  In k vertices ->
  Map_get (fold_left (fun _map vertex => Map_set _map vertex (fresh_node vertex))
                     vertices m) k
  = Some (fresh_node k).
Proof.
  revert m. induction vertices as [|v vs IH]; simpl; intros m Hk; [contradiction|].
  destruct (in_dec string_dec k vs) as [Hin|Hnot].
  - now apply IH.
  - destruct Hk as [->|Hk]; [|contradiction].
    rewrite add_loop_get by assumption.
    rewrite Map_get_set. now rewrite String.eqb_refl.
Qed.

Lemma add_loop_unique_keys (vertices : list string) (m : t) :
  unique_keys m ->
  unique_keys (fold_left (fun _map vertex => Map_set _map vertex (fresh_node vertex))
                         vertices m).
Proof.
  revert m. induction vertices as [|v vs IH]; simpl; intros m H; [assumption|].
  apply IH. now apply unique_keys_set.
Qed.

Lemma addVertices_unfold (dtg : t) (vertices : list string) :
  addVertices dtg vertices =
  fold_left (fun _map vertex => Map_set _map vertex (fresh_node vertex))
            (List.filter (fun vertex => negb (hasVertex dtg vertex)) vertices) dtg.
Proof.
  destruct vertices; reflexivity.
Qed.

(** A vertex that is already in the map keeps its node. *)
Lemma addVertices_present (dtg : t) (vertices : list string) (k : string) :
  hasVertex dtg k = true ->
  Map_get (addVertices dtg vertices) k = Map_get dtg k.
Proof.
  intros Hk. rewrite addVertices_unfold. apply add_loop_get.
  rewrite filter_In. intros [_ H]. rewrite Hk in H. discriminate.
Qed.

(** A vertex that is not in the map but in the list gets a fresh node. *)
Lemma addVertices_absent (dtg : t) (vertices : list string) (k : string) :
  hasVertex dtg k = false -> In k vertices ->
  Map_get (addVertices dtg vertices) k = Some (fresh_node k).
Proof.
  intros Hk Hin. rewrite addVertices_unfold. apply add_loop_get_new.
  rewrite filter_In. split; [assumption|]. now rewrite Hk.
Qed.

Lemma addVertices_extends (dtg : t) (vertices : list string) :
  extends dtg (addVertices dtg vertices).
Proof.
  intros k n Hk. exists n. split; [|apply keeps_refl].
  rewrite addVertices_present; [assumption|].
  unfold hasVertex. rewrite Map_has_get. now rewrite Hk.
Qed.

Lemma addVertices_unique_keys (dtg : t) (vertices : list string) :
  unique_keys dtg -> unique_keys (addVertices dtg vertices).
Proof.
  intros H. rewrite addVertices_unfold. now apply add_loop_unique_keys.
Qed.

Lemma addVertices_loop_free (dtg : t) (vertices : list string) :
  loop_free dtg -> loop_free (addVertices dtg vertices).
Proof.
  intros H k n Hk.
  destruct (hasVertex dtg k) eqn:Hhas.
  - rewrite addVertices_present in Hk by assumption. now apply H.
  - destruct (in_dec string_dec k vertices) as [Hin|Hnot].
    + rewrite addVertices_absent in Hk by assumption.
      injection Hk as <-. simpl. tauto.
    + rewrite addVertices_unfold, add_loop_get in Hk.
      * now apply H.
      * rewrite filter_In. tauto.
Qed.

(** The loop of [createDaisyChainEdges] keeps a property of the graph
    that [createEdge] keeps. *)
Lemma daisy_loop_invariant (P : t -> Prop) :
  (forall dtg a b, P dtg -> P (createEdge dtg a b)) ->
  forall vertices dtg vertexStart,
    P dtg -> P (fst (fold_left daisy_step vertices (dtg, vertexStart))).
Proof.
  intros Hstep. induction vertices as [|v vs IH]; simpl; intros dtg vertexStart H.
  - assumption.
  - destruct vertexStart as [s|]; apply IH; auto.
Qed.

Lemma createDaisyChainEdges_invariant (P : t -> Prop) :
  (forall dtg a b, P dtg -> P (createEdge dtg a b)) ->
  forall dtg vertices, P dtg -> P (createDaisyChainEdges dtg vertices).
Proof.
  intros Hstep dtg vertices H. unfold createDaisyChainEdges.
  destruct vertices as [|v vs]; [assumption|].
  now apply daisy_loop_invariant.
Qed.

Lemma createDaisyChainEdges_extends (dtg : t) (vertices : list string) :
  extends dtg (createDaisyChainEdges dtg vertices).
Proof.
  apply (createDaisyChainEdges_invariant (fun g => extends dtg g)).
  - intros g a b H. eapply extends_trans; [exact H|apply createEdge_extends].
  - apply extends_refl.
Qed.

Lemma apply_extends (dtg : t) (op : operation) : extends dtg (apply dtg op).
Proof.
  destruct op; simpl.
  - apply addVertices_extends.
  - apply createEdge_extends.
  - apply createDaisyChainEdges_extends.
Qed.

Lemma run_extends (ops : list operation) (dtg : t) : extends dtg (run ops dtg).
Proof.
  revert dtg. induction ops as [|op ops IH]; simpl; intros dtg.
  - apply extends_refl.
  - eapply extends_trans; [apply apply_extends|apply IH].
Qed.

Lemma apply_unique_keys (dtg : t) (op : operation) :
  unique_keys dtg -> unique_keys (apply dtg op).
Proof.
  destruct op; simpl; intros H.
  - now apply addVertices_unique_keys.
  - now apply createEdge_unique_keys.
  - apply (createDaisyChainEdges_invariant unique_keys); [|assumption].
    intros; now apply createEdge_unique_keys.
Qed.

Lemma run_unique_keys (ops : list operation) (dtg : t) :
  unique_keys dtg -> unique_keys (run ops dtg).
Proof.
  revert dtg. induction ops as [|op ops IH]; simpl; intros dtg H.
  - assumption.
  - apply IH. now apply apply_unique_keys.
Qed.

Lemma apply_loop_free (dtg : t) (op : operation) :
  loop_free dtg -> loop_free (apply dtg op).
Proof.
  destruct op; simpl; intros H.
  - now apply addVertices_loop_free.
  - now apply createEdge_loop_free.
  - apply (createDaisyChainEdges_invariant loop_free); [|assumption].
    intros; now apply createEdge_loop_free.
Qed.

Lemma run_loop_free (ops : list operation) (dtg : t) :
  loop_free dtg -> loop_free (run ops dtg).
Proof.
  revert dtg. induction ops as [|op ops IH]; simpl; intros dtg H.
  - assumption.
  - apply IH. now apply apply_loop_free.
Qed.

Lemma new_unique_keys : unique_keys new.
Proof. constructor. Qed.

Lemma new_loop_free : loop_free new.
Proof. intros k n H. discriminate. Qed.

(** Reading the observers through the map. *)
Lemma hasVertex_get (dtg : t) (k : string) :
  hasVertex dtg k = true <-> exists n, Map_get dtg k = Some n.
Proof.
  unfold hasVertex. rewrite Map_has_get.
  destruct (Map_get dtg k) as [n|]; split.
  - eauto.
  - reflexivity.
  - discriminate.
  - intros [n H]. discriminate.
Qed.

Lemma hasEdge_get (dtg : t) (a b : string) :
  hasEdge dtg a b = true <->
  hasVertex dtg b = true /\ exists n, Map_get dtg a = Some n /\ In b (vertexEnds n).
Proof.
  unfold hasEdge. split.
  - destruct (hasVertex dtg a) eqn:Ha; simpl; [|discriminate].
    destruct (hasVertex dtg b) eqn:Hb; simpl; [|discriminate].
    destruct (Map_get dtg a) as [n|]; [|discriminate].
    rewrite existsb_exists. intros [x [Hx Heq]].
    apply String.eqb_eq in Heq. subst x. eauto.
  - intros [Hb (n & Hn & Hin)].
    assert (Ha : hasVertex dtg a = true) by (apply hasVertex_get; eauto).
    rewrite Ha, Hb, Hn. simpl. rewrite existsb_exists.
    exists b. split; [assumption|apply String.eqb_refl].
Qed.

Lemma hasEdge_ends (dtg : t) (a b : string) :
  hasEdge dtg a b = true ->
  exists n, Map_get dtg a = Some n /\ In b (vertexEnds n).
Proof. intros H. apply hasEdge_get in H. tauto. Qed.

Lemma isRootVertex_get (dtg : t) (k : string) :
  isRootVertex dtg k = true <-> exists n, Map_get dtg k = Some n /\ isRoot n = true.
Proof.
  unfold isRootVertex, hasVertex. rewrite Map_has_get.
  destruct (Map_get dtg k) as [n|]; split.
  - eauto.
  - now intros [n' [[= <-] H]].
  - discriminate.
  - intros [n [H _]]. discriminate.
Qed.

Lemma isRootVertex_node (dtg : t) (k : string) (n : node) :
  Map_get dtg k = Some n -> isRootVertex dtg k = isRoot n.
Proof.
  intros H. unfold isRootVertex, hasVertex. rewrite Map_has_get, H. reflexivity.
Qed.

Lemma extends_hasVertex (dtg dtg' : t) (k : string) :
  extends dtg dtg' -> hasVertex dtg k = true -> hasVertex dtg' k = true.
Proof.
  intros Hext. rewrite !hasVertex_get. intros [n Hn].
  destruct (Hext k n Hn) as (n' & Hn' & _). eauto.
Qed.

Lemma extends_hasEdge (dtg dtg' : t) (a b : string) :
  extends dtg dtg' -> hasEdge dtg a b = true -> hasEdge dtg' a b = true.
Proof.
  intros Hext. rewrite !hasEdge_get. intros [Hb (n & Hn & Hin)]. split.
  - eapply extends_hasVertex; eassumption.
  - destruct (Hext a n Hn) as (n' & Hn' & _ & _ & more & Hends).
    exists n'. split; [assumption|]. rewrite Hends. apply in_or_app. now left.
Qed.

Lemma createEdge_named (dtg : t) (vertexStart vertexEnd : string) :
  named dtg -> named (createEdge dtg vertexStart vertexEnd).
Proof.
  intros H.
  destruct (createEdge_cases dtg vertexStart vertexEnd) as [->|(Hne & Hs & He & Hedge)].
  { assumption. }
  destruct (createEdge_accepted dtg vertexStart vertexEnd Hne Hs He Hedge)
    as (sn & en & Hsn & Hen & ->).
  intros k n. rewrite !Map_get_set.
  destruct (String.eqb_spec vertexEnd k) as [<-|Hk1].
  - intros [= <-]. simpl. now apply H.
  - destruct (String.eqb_spec vertexStart k) as [<-|Hk2].
    + intros [= <-]. simpl. now apply H.
    + apply H.
Qed.

Lemma addVertices_get (dtg : t) (vertices : list string) (k : string) (n : node) :
  Map_get (addVertices dtg vertices) k = Some n ->
  Map_get dtg k = Some n \/ n = fresh_node k.
Proof.
  intros Hk. destruct (hasVertex dtg k) eqn:Hhas.
  - rewrite addVertices_present in Hk by assumption. now left.
  - destruct (in_dec string_dec k vertices) as [Hin|Hnot].
    + rewrite addVertices_absent in Hk by assumption. right. congruence.
    + rewrite addVertices_unfold, add_loop_get in Hk; [now left|].
      rewrite filter_In. tauto.
Qed.

Lemma addVertices_named (dtg : t) (vertices : list string) :
  named dtg -> named (addVertices dtg vertices).
Proof.
  intros H k n Hk. apply addVertices_get in Hk. destruct Hk as [Hk| ->].
  - now apply H.
  - reflexivity.
Qed.

Lemma createEdge_closed (dtg : t) (vertexStart vertexEnd : string) :
  closed dtg -> closed (createEdge dtg vertexStart vertexEnd).
Proof.
  intros H.
  assert (Hext := createEdge_extends dtg vertexStart vertexEnd).
  destruct (createEdge_cases dtg vertexStart vertexEnd) as [Hsame|(Hne & Hs & He & Hedge)].
  { now rewrite Hsame. }
  destruct (createEdge_accepted dtg vertexStart vertexEnd Hne Hs He Hedge)
    as (sn & en & Hsn & Hen & Heq).
  rewrite Heq in *.
  intros k n e. rewrite !Map_get_set.
  destruct (String.eqb_spec vertexEnd k) as [<-|Hk1].
  - intros [= <-]. simpl. intros Hin.
    eapply extends_hasVertex; [exact Hext|]. exact (H _ _ _ Hen Hin).
  - destruct (String.eqb_spec vertexStart k) as [<-|Hk2].
    + intros [= <-]. simpl. rewrite in_app_iff. intros [Hin|[<-|[]]].
      * eapply extends_hasVertex; [exact Hext|]. exact (H _ _ _ Hsn Hin).
      * eapply extends_hasVertex; [exact Hext|assumption].
    + intros Hk Hin.
      eapply extends_hasVertex; [exact Hext|]. exact (H _ _ _ Hk Hin).
Qed.

Lemma addVertices_closed (dtg : t) (vertices : list string) :
  closed dtg -> closed (addVertices dtg vertices).
Proof.
  intros H k n e Hk Hin. apply addVertices_get in Hk. destruct Hk as [Hk| ->].
  - eapply extends_hasVertex; [apply addVertices_extends|]. eapply H; eassumption.
  - destruct Hin.
Qed.

Lemma apply_named (dtg : t) (op : operation) : named dtg -> named (apply dtg op).
Proof.
  destruct op; simpl; intros H.
  - now apply addVertices_named.
  - now apply createEdge_named.
  - apply (createDaisyChainEdges_invariant named); [|assumption].
    intros; now apply createEdge_named.
Qed.

Lemma apply_closed (dtg : t) (op : operation) : closed dtg -> closed (apply dtg op).
Proof.
  destruct op; simpl; intros H.
  - now apply addVertices_closed.
  - now apply createEdge_closed.
  - apply (createDaisyChainEdges_invariant closed); [|assumption].
    intros; now apply createEdge_closed.
Qed.

Lemma run_invariant (P : t -> Prop) :
  (forall dtg op, P dtg -> P (apply dtg op)) ->
  forall ops dtg, P dtg -> P (run ops dtg).
Proof.
  intros Hstep. induction ops as [|op ops IH]; simpl; intros dtg H.
  - assumption.
  - apply IH. now apply Hstep.
Qed.

Lemma run_named (ops : list operation) : named (run ops new).
Proof.
  apply (run_invariant named apply_named). intros k n H. discriminate.
Qed.

Lemma run_closed (ops : list operation) : closed (run ops new).
Proof.
  apply (run_invariant closed apply_closed). intros k n e H. discriminate.
Qed.

End GraphFacts.

(** ** Counting the roots *)

Section RootCount.

Import DTG.

Lemma count_loop (dtg : t) (count : nat) :
  fold_left (fun count e => if isRoot (snd e) then count + 1 else count) dtg count
  = count + length (List.filter root_entry dtg).
Proof.
  revert count. induction dtg as [|e dtg IH]; simpl; intros count.
  - lia.
  - rewrite IH. unfold root_entry at 2. destruct (isRoot (snd e)); simpl; lia.
Qed.

Lemma isFullyConnected_count (dtg : t) :
  isFullyConnected dtg = Nat.eqb (length (List.filter root_entry dtg)) 1.
Proof.
  unfold isFullyConnected, Map_size. rewrite count_loop. simpl.
  destruct dtg; reflexivity.
Qed.

Lemma filter_unique_keys (f : string * node -> bool) (dtg : t) :
  unique_keys dtg -> unique_keys (List.filter f dtg).
Proof.
  unfold unique_keys. induction dtg as [|e dtg IH]; simpl; intros H.
  - constructor.
  - inversion H as [|? ? Hnotin Hnd]; subst.
    destruct (f e); simpl; auto.
    constructor; auto.
    intros Hin. apply Hnotin.
    apply in_map_iff in Hin. destruct Hin as (e' & He' & Hin').
    apply filter_In in Hin'. apply in_map_iff. exists e'. tauto.
Qed.

Lemma same_key_length (l : t) (v : string) :
  unique_keys l -> (forall e, In e l -> fst e = v) -> length l <= 1.
Proof.
  unfold unique_keys. destruct l as [|e1 [|e2 l]]; simpl; intros Hnd Hall; try lia.
  exfalso. inversion Hnd as [|? ? Hnotin _]; subst. apply Hnotin.
  left. rewrite (Hall e1), (Hall e2); auto.
Qed.

Lemma root_entry_isRootVertex (dtg : t) (e : string * node) :
  unique_keys dtg -> In e (List.filter root_entry dtg) -> isRootVertex dtg (fst e) = true.
Proof.
  intros Hu Hin. apply filter_In in Hin. destruct Hin as [Hin Hroot].
  destruct e as [k n]. apply isRootVertex_get. exists n. split; [|assumption].
  now apply In_Map_get.
Qed.

Lemma isRootVertex_root_entry (dtg : t) (v : string) :
  isRootVertex dtg v = true -> exists n, In (v, n) (List.filter root_entry dtg).
Proof.
  intros H. apply isRootVertex_get in H. destruct H as (n & Hget & Hroot).
  exists n. apply filter_In. split; [now apply Map_get_In|assumption].
Qed.

Lemma one_root_iff (dtg : t) :
  unique_keys dtg ->
  (isFullyConnected dtg = true <->
   exists v, isRootVertex dtg v = true
             /\ forall w, isRootVertex dtg w = true -> w = v).
Proof.
  intros Hu. rewrite isFullyConnected_count, Nat.eqb_eq. split.
  - intros Hlen.
    destruct (List.filter root_entry dtg) as [|e [|e' roots]] eqn:Hroots;
      try discriminate.
    exists (fst e). split.
    + apply root_entry_isRootVertex; [assumption|]. rewrite Hroots. now left.
    + intros w Hw. apply isRootVertex_root_entry in Hw. destruct Hw as [n Hin].
      rewrite Hroots in Hin. destruct Hin as [Heq|[]]. now rewrite Heq.
  - intros (v & Hv & Honly).
    apply isRootVertex_root_entry in Hv. destruct Hv as [n Hin].
    assert (Hle : length (List.filter root_entry dtg) <= 1).
    { apply (same_key_length _ v); [now apply filter_unique_keys|].
      intros e He. apply Honly. now apply root_entry_isRootVertex. }
    destruct (List.filter root_entry dtg); [contradiction|]. simpl in *. lia.
Qed.

End RootCount.

(** ** Lemmas on sorting and on duplicates *)

Section ArrayFacts.

Lemma insert_Permutation {A : Type} (cmp : A -> A -> Z) (x : A) (l : list A) :
  Permutation (JS.insert cmp x l) (x :: l).
Proof.
  induction l as [|y l IH]; simpl.
  - apply Permutation_refl.
  - destruct (cmp x y <? 0)%Z.
    + apply Permutation_refl.
    + eapply Permutation_trans; [apply perm_skip, IH|apply perm_swap].
Qed.

Lemma sort_loop_Permutation {A : Type} (cmp : A -> A -> Z) (l sorted : list A) :
  Permutation (fold_left (fun sorted x => JS.insert cmp x sorted) l sorted)
              (sorted ++ l).
Proof.
  revert sorted. induction l as [|x l IH]; simpl; intros sorted.
  - now rewrite app_nil_r.
  - eapply Permutation_trans; [apply IH|].
    eapply Permutation_trans;
      [apply Permutation_app_tail, insert_Permutation|].
    simpl. apply Permutation_middle.
Qed.

Lemma sort_Permutation {A : Type} (cmp : A -> A -> Z) (l : list A) :
  Permutation (JS.sort cmp l) l.
Proof. apply (sort_loop_Permutation cmp l []). Qed.

Lemma insert_ascending (x : list string) (l : list (list string)) :
  ascending l -> ascending (JS.insert DTG.compare_paths x l).
Proof.
  unfold ascending. induction l as [|y l IH]; simpl; intros H.
  - repeat constructor.
  - inversion H as [|? ? Hl Hy]; subst.
    unfold DTG.compare_paths at 1.
    destruct (Nat.ltb_spec (length x) (length y)) as [Hlt|Hge]; simpl.
    + constructor; [assumption|]. constructor.
      * unfold shorter_eq. lia.
      * eapply Forall_impl; [|exact Hy]. unfold shorter_eq. intros; lia.
    + constructor; [auto|].
      eapply Permutation_Forall.
      * apply Permutation_sym, insert_Permutation.
      * constructor; [assumption|assumption].
Qed.

Lemma sort_loop_ascending (l sorted : list (list string)) :
  ascending sorted ->
  ascending (fold_left (fun sorted x => JS.insert DTG.compare_paths x sorted) l sorted).
Proof.
  revert sorted. induction l as [|x l IH]; simpl; intros sorted H.
  - assumption.
  - apply IH. now apply insert_ascending.
Qed.

Lemma sort_ascending (l : list (list string)) :
  ascending (JS.sort DTG.compare_paths l).
Proof. apply sort_loop_ascending. constructor. Qed.

Lemma includes_In (l : list string) (x : string) :
  JS.includes l x = true <-> In x l.
Proof.
  unfold JS.includes. rewrite existsb_exists. split.
  - intros [y [Hin Heq]]. apply String.eqb_eq in Heq. now subst.
  - intros Hin. exists x. split; [assumption|apply String.eqb_refl].
Qed.

Lemma has_duplicate_false (p : list string) :
  has_duplicate p = false <-> NoDup p.
Proof.
  induction p as [|x p IH]; simpl.
  - split; [constructor|reflexivity].
  - rewrite orb_false_iff. split.
    + intros [Hinc Hdup]. constructor; [|now apply IH].
      intros Hin. apply includes_In in Hin. congruence.
    + intros Hnd. inversion Hnd as [|? ? Hnot Hp]; subst. split.
      * destruct (JS.includes p x) eqn:Hinc; [|reflexivity].
        apply includes_In in Hinc. contradiction.
      * now apply IH.
Qed.

Lemma has_duplicate_NoDup (p : list string) :
  has_duplicate p = true <-> ~ NoDup p.
Proof.
  rewrite <- has_duplicate_false. destruct (has_duplicate p); split; congruence.
Qed.

Lemma Set_loop_length (l seen : list string) :
  length (fold_left Set_add l seen) <= length seen + length l
  /\ (length (fold_left Set_add l seen) = length seen + length l
      <-> NoDup l /\ forall x, In x l -> ~ In x seen).
Proof.
  revert seen. induction l as [|x l IH]; simpl; intros seen.
  - split; [lia|]. split; [|lia]. intros _. split; [constructor|tauto].
  - unfold Set_add at 2 4. destruct (JS.includes seen x) eqn:Hinc.
    + apply includes_In in Hinc. destruct (IH seen) as [Hle _].
      split; [lia|]. split; [lia|].
      intros [_ Hall]. exfalso. apply (Hall x); auto.
    + assert (Hnot : ~ In x seen).
      { intros Hin. apply includes_In in Hin. congruence. }
      destruct (IH (seen ++ [x])) as [Hle Hiff].
      rewrite length_app in Hle, Hiff. simpl in Hle, Hiff.
      split; [lia|].
      replace (length seen + S (length l)) with (length seen + 1 + length l) by lia.
      rewrite Hiff. split.
      * intros [Hnd Hall]. split.
        -- constructor; [|assumption].
           intros Hin. apply (Hall x Hin). apply in_or_app. right. now left.
        -- intros y [<-|Hy]; [assumption|].
           intros Hin. apply (Hall y Hy). apply in_or_app. now left.
      * intros [Hnd Hall]. inversion Hnd as [|? ? Hxl Hnd']; subst.
        split; [assumption|].
        intros y Hy Hin. apply in_app_or in Hin. destruct Hin as [Hin|[<-|[]]].
        -- apply (Hall y); auto.
        -- contradiction.
Qed.

(** The test of [getLoopCount] on one path. *)
Lemma hasLoop_has_duplicate (p : list string) :
  negb (Nat.eqb (length (JS.Set_of p)) (length p)) = has_duplicate p.
Proof.
  destruct (Set_loop_length p []) as [_ Hiff]. simpl in Hiff.
  change (fold_left Set_add p []) with (JS.Set_of p) in Hiff.
  destruct (has_duplicate p) eqn:Hdup.
  - apply negb_true_iff, Nat.eqb_neq. intros Heq.
    apply has_duplicate_NoDup in Hdup. apply Hdup. now apply Hiff.
  - apply negb_false_iff, Nat.eqb_eq. apply Hiff. split; [|tauto].
    now apply has_duplicate_false.
Qed.

Lemma loop_count_loop (paths : list (list string)) (count : nat) :
  fold_left
    (fun count visitedVertices =>
       let hasLoop :=
         negb (Nat.eqb (length (JS.Set_of visitedVertices))
                       (length visitedVertices)) in
       if hasLoop then count + 1 else count)
    paths count
  = count + length (List.filter has_duplicate paths).
Proof.
  revert count. induction paths as [|p paths IH]; simpl; intros count.
  - lia.
  - rewrite IH, hasLoop_has_duplicate.
    destruct (has_duplicate p); simpl; lia.
Qed.

End ArrayFacts.

(** ** Lemmas on the extraction of chains *)

Section ObjectFacts.

Context {V : Type}.

Lemma hasOwnProperty_get (o : JS.object V) (k : string) :
  JS.hasOwnProperty o k = match JS.get o k with Some _ => true | None => false end.
Proof.
  induction o as [|[k' v'] o IH]; simpl; [reflexivity|].
  destruct (String.eqb k' k); simpl; auto.
Qed.

Lemma get_set (o : JS.object V) (k k' : string) (v : V) :
  JS.get (JS.set o k v) k' = if String.eqb k k' then Some v else JS.get o k'.
Proof.
  induction o as [|[k0 v0] o IH]; simpl.
  - reflexivity.
  - destruct (String.eqb_spec k0 k) as [->|Hne]; simpl.
    + destruct (String.eqb k k'); reflexivity.
    + rewrite IH. destruct (String.eqb_spec k0 k') as [->|Hne'].
      * destruct (String.eqb_spec k k') as [->|]; [congruence|reflexivity].
      * reflexivity.
Qed.

Lemma get_In (o : JS.object V) (k : string) (v : V) :
  JS.get o k = Some v -> In (k, v) o.
Proof.
  induction o as [|[k0 v0] o IH]; simpl; [discriminate|].
  destruct (String.eqb_spec k0 k) as [->|Hne]; intros H.
  - left. congruence.
  - right. auto.
Qed.

Lemma In_get (o : JS.object V) (k : string) (v : V) :
  NoDup (map fst o) -> In (k, v) o -> JS.get o k = Some v.
Proof.
  induction o as [|[k0 v0] o IH]; simpl; [contradiction|].
  intros Hnd [Heq|Hin].
  - inversion Heq; subst. now rewrite String.eqb_refl.
  - inversion Hnd as [|? ? Hnotin Hnd']; subst.
    destruct (String.eqb_spec k0 k) as [->|Hne].
    + exfalso. apply Hnotin. apply in_map_iff. now exists (k, v).
    + auto.
Qed.

Lemma set_keys (o : JS.object V) (k : string) (v : V) :
  map fst (JS.set o k v) =
  if JS.hasOwnProperty o k then map fst o else map fst o ++ [k].
Proof.
  unfold JS.hasOwnProperty.
  induction o as [|[k0 v0] o IH]; simpl; [reflexivity|].
  destruct (String.eqb_spec k0 k) as [->|Hne]; simpl.
  - reflexivity.
  - rewrite IH. now destruct (existsb _ o).
Qed.

Lemma set_NoDup (o : JS.object V) (k : string) (v : V) :
  NoDup (map fst o) -> NoDup (map fst (JS.set o k v)).
Proof.
  intros Hnd. rewrite set_keys.
  destruct (JS.hasOwnProperty o k) eqn:Hk; [assumption|].
  apply NoDup_app; [assumption|repeat constructor; intros []|].
  intros x Hx [Heq|[]]. subst x.
  apply in_map_iff in Hx. destruct Hx as ([k' v'] & Hfst & Hin). simpl in Hfst.
  subst k'. unfold JS.hasOwnProperty in Hk.
  assert (existsb (fun e : string * V => String.eqb (fst e) k) o = true).
  { apply existsb_exists. exists (k, v'). split; [assumption|apply String.eqb_refl]. }
  congruence.
Qed.

(** [Object.keys] and [Object.values] list every property once. *)
Lemma entries_In (o : JS.object V) (e : string * V) :
  In e (JS.entries o) <-> In e o.
Proof.
  unfold JS.entries. rewrite in_app_iff. split.
  - intros [H|H].
    + apply (Permutation_in _ (sort_Permutation _ _)) in H.
      now apply filter_In in H.
    + now apply filter_In in H.
  - intros H. destruct (JS.is_index e) eqn:He.
    + left. apply (Permutation_in _ (Permutation_sym (sort_Permutation _ _))).
      apply filter_In. auto.
    + right. apply filter_In. rewrite He. auto.
Qed.

End ObjectFacts.

Section ChainFacts.

Lemma getOrderedCharSet_unfold (fuel : nat) (words : list string) :
  words <> [] ->
  getOrderedCharSet (S fuel) words =
  (let orderedCharMap := fold_left group_word words [] in
   orderedChars <-
     foldM (fun orderedChars _words =>
              more <- getOrderedCharSet fuel (map JS.substring1 _words) ;;
              Return (orderedChars ++ more))
           (List.filter longer_than_1 (JS.values orderedCharMap))
           [JS.keys orderedCharMap] ;;
   Return (List.filter longer_than_1 orderedChars)).
Proof. destruct words; [congruence|reflexivity]. Qed.

Lemma group_of_app (k : string) (l1 l2 : list string) :
  group_of k (l1 ++ l2) = group_of k l1 ++ group_of k l2.
Proof. apply filter_app. Qed.

Lemma group_word_grouped (o : JS.object (list string)) (done : list string)
      (word : string) :
  grouped o done -> grouped (group_word o word) (done ++ [word]).
Proof.
  intros (Hnd & Hsound & Hcomplete). unfold group_word.
  rewrite hasOwnProperty_get.
  assert (Hstep : forall g0,
             (g0 = [] /\ JS.get o (JS.charAt0 word) = None
              \/ JS.get o (JS.charAt0 word) = Some g0) ->
             grouped (JS.set o (JS.charAt0 word) (g0 ++ [word])) (done ++ [word])).
  { intros g0 Hg0. split; [now apply set_NoDup|]. split.
    - intros k g. rewrite get_set, group_of_app. unfold group_of at 2. simpl.
      unfold key_of.
      destruct (String.eqb_spec (JS.charAt0 word) k) as [<-|Hne].
      + intros [= <-]. f_equal. destruct Hg0 as [[-> Hnone]|Hsome].
        * unfold group_of.
          destruct (List.filter (key_of (JS.charAt0 word)) done) as [|w ws] eqn:Hf;
            [reflexivity|].
          assert (Hw : In w (List.filter (key_of (JS.charAt0 word)) done))
            by (rewrite Hf; now left).
          apply filter_In in Hw. destruct Hw as [Hin Hkey].
          unfold key_of in Hkey. apply String.eqb_eq in Hkey.
          destruct (Hcomplete w Hin) as [g Hg]. congruence.
        * now apply Hsound.
      + intros Hg. rewrite app_nil_r. now apply Hsound.
    - intros w Hw. rewrite get_set. apply in_app_or in Hw.
      destruct (String.eqb_spec (JS.charAt0 word) (JS.charAt0 w)) as [Heq|Hne];
        [eauto|].
      destruct Hw as [Hw|[<-|[]]]; [now apply Hcomplete|congruence]. }
  destruct (JS.get o (JS.charAt0 word)) as [g0|] eqn:Hget; simpl.
  - apply Hstep. now right.
  - apply (Hstep []). now left.
Qed.

Lemma reduce_grouped (todo done : list string) (o : JS.object (list string)) :
  grouped o done -> grouped (fold_left group_word todo o) (done ++ todo).
Proof.
  revert done o. induction todo as [|w todo IH]; simpl; intros done o H.
  - now rewrite app_nil_r.
  - replace (done ++ w :: todo) with ((done ++ [w]) ++ todo)
      by now rewrite <- app_assoc.
    apply IH. now apply group_word_grouped.
Qed.

Lemma reduce_groups (words : list string) :
  grouped (fold_left group_word words []) words.
Proof.
  apply (reduce_grouped words [] []). split; [constructor|].
  split; [discriminate|contradiction].
Qed.

(** The values of the object are the groups of the words. *)
Lemma values_group (words : list string) (g : list string) :
  In g (JS.values (fold_left group_word words [])) ->
  exists k, g = group_of k words.
Proof.
  destruct (reduce_groups words) as (Hnd & Hsound & _).
  unfold JS.values. rewrite in_map_iff. intros ([k g'] & <- & Hin).
  apply (proj1 (entries_In _ _)) in Hin. exists k. simpl.
  apply Hsound. now apply In_get.
Qed.

Lemma group_values (words : list string) (w : string) :
  In w words ->
  In (group_of (JS.charAt0 w) words) (JS.values (fold_left group_word words [])).
Proof.
  intros Hw. destruct (reduce_groups words) as (Hnd & Hsound & Hcomplete).
  destruct (Hcomplete w Hw) as [g Hg].
  rewrite <- (Hsound _ _ Hg).
  unfold JS.values. apply in_map_iff. exists (JS.charAt0 w, g). split; [reflexivity|].
  apply entries_In. now apply get_In.
Qed.

(** The words of one group that share a first character differ in the
    rest. *)
Lemma substring1_inj (c : string) (w1 w2 : string) :
  c <> "" -> JS.charAt0 w1 = c -> JS.charAt0 w2 = c ->
  JS.substring1 w1 = JS.substring1 w2 -> w1 = w2.
Proof.
  destruct w1 as [|a1 r1], w2 as [|a2 r2]; simpl; intros Hc H1 H2 Hr; try congruence.
Qed.

Lemma group_trimmed_NoDup (k : string) (words : list string) :
  k <> "" -> NoDup words -> NoDup (map JS.substring1 (group_of k words)).
Proof.
  intros Hk Hnd.
  assert (Hg : NoDup (group_of k words)) by now apply NoDup_filter.
  assert (Hkey : forall w, In w (group_of k words) -> JS.charAt0 w = k).
  { intros w Hw. apply filter_In in Hw. destruct Hw as [_ Hw].
    now apply String.eqb_eq in Hw. }
  revert Hg Hkey. generalize (group_of k words) as g.
  induction g as [|w g IH]; simpl; intros Hg Hkey; [constructor|].
  inversion Hg as [|? ? Hnot Hg']; subst. constructor.
  - intros Hin. apply in_map_iff in Hin. destruct Hin as (w' & Heq & Hw').
    apply Hnot. rewrite <- (substring1_inj k w' w); auto.
  - apply IH; auto.
Qed.

Lemma empty_group_short (words : list string) :
  NoDup words -> length (group_of "" words) <= 1.
Proof.
  intros Hnd.
  assert (Hg : NoDup (group_of "" words)) by now apply NoDup_filter.
  assert (Hall : forall w, In w (group_of "" words) -> w = "").
  { intros w Hw. apply filter_In in Hw. destruct Hw as [_ Hw].
    apply String.eqb_eq in Hw. destruct w; [reflexivity|discriminate]. }
  destruct (group_of "" words) as [|w1 [|w2 g]]; simpl; try lia.
  exfalso. inversion Hg as [|? ? Hnot _]; subst. apply Hnot. left.
  rewrite (Hall w1), (Hall w2); simpl; auto.
Qed.

(** On pairwise different words of at most [n] characters every call
    depth above [n] is enough. *)
Lemma getOrderedCharSet_returns (fuel n : nat) (words : list string) :
  n < fuel -> NoDup words -> Forall (fun w => String.length w <= n) words ->
  exists chains, getOrderedCharSet fuel words = Return chains.
Proof.
  revert n words. induction fuel as [|fuel IH]; intros n words Hn Hnd Hlen; [lia|].
  destruct (list_eq_dec string_dec words []) as [->|Hwords];
    [eexists; reflexivity|].
  rewrite getOrderedCharSet_unfold by assumption. cbv zeta.
  match goal with
  | |- context [foldM ?f ?l ?s] =>
      assert (Hloop : exists s', foldM f l s = Return s')
  end.
  { apply foldM_returns. intros g s Hg.
    apply filter_In in Hg. destruct Hg as [Hg Hlong].
    apply values_group in Hg. destruct Hg as [k ->].
    unfold longer_than_1 in Hlong. apply Nat.ltb_lt in Hlong.
    assert (Hk : k <> "").
    { intros ->. pose proof (empty_group_short words Hnd). lia. }
    assert (Htrim : Forall (fun w => S (String.length w) <= n)
                           (map JS.substring1 (group_of k words))).
    { apply Forall_forall. intros t Ht.
      apply in_map_iff in Ht. destruct Ht as (w & <- & Hw).
      apply filter_In in Hw. destruct Hw as [Hw Hkey].
      apply String.eqb_eq in Hkey.
      rewrite Forall_forall in Hlen. specialize (Hlen w Hw).
      destruct w; simpl in *; [congruence|exact Hlen]. }
    assert (Hpos : 1 <= n).
    { destruct (group_of k words) as [|w g]; simpl in *; [lia|].
      inversion Htrim; subst. lia. }
    destruct (IH (n - 1) (map JS.substring1 (group_of k words))) as [chains ->].
    - lia.
    - now apply group_trimmed_NoDup.
    - eapply Forall_impl; [|exact Htrim]. simpl. intros; lia.
    - simpl. eauto. }
  destruct Hloop as [s' ->]. simpl. eauto.
Qed.

Lemma getOrderedCharSet_no_throw (fuel : nat) (words : list string) (exc : exn) :
  getOrderedCharSet fuel words <> Throw exc.
Proof.
  revert words. induction fuel as [|fuel IH]; intros words; [discriminate|].
  destruct words as [|word words']; [discriminate|].
  rewrite getOrderedCharSet_unfold by discriminate. cbv zeta.
  match goal with
  | |- context [foldM ?f ?l ?s] =>
      assert (Hloop : foldM f l s <> Throw exc)
  end.
  { apply foldM_no_throw. intros g s _.
    specialize (IH (map JS.substring1 g)).
    destruct (getOrderedCharSet fuel (map JS.substring1 g)); simpl; congruence. }
  match goal with
  | |- context [foldM ?f ?l ?s] => destruct (foldM f l s)
  end; simpl; congruence.
Qed.

Lemma duplicate_count (words : list string) :
  has_duplicate words = true -> exists w, 2 <= count_occ string_dec words w.
Proof.
  induction words as [|x words IH]; simpl; [discriminate|].
  rewrite orb_true_iff. intros [Hinc|Hdup].
  - exists x. apply includes_In in Hinc.
    apply (count_occ_In string_dec) in Hinc.
    destruct (string_dec x x); [lia|congruence].
  - destruct (IH Hdup) as [w Hw]. exists w.
    destruct (string_dec x w); lia.
Qed.

Lemma count_occ_filter (f : string -> bool) (words : list string) (w : string) :
  f w = true -> count_occ string_dec (List.filter f words) w = count_occ string_dec words w.
Proof.
  intros Hf. induction words as [|x words IH]; simpl; [reflexivity|].
  destruct (string_dec x w) as [->|Hne].
  - rewrite Hf. simpl. destruct (string_dec w w); [|congruence]. now rewrite IH.
  - destruct (f x); simpl; [|assumption].
    destruct (string_dec x w); [congruence|assumption].
Qed.

(** On a word list with two equal words no call depth is enough. *)
Lemma getOrderedCharSet_duplicate (fuel : nat) (words : list string) :
  ~ NoDup words -> getOrderedCharSet fuel words = OutOfFuel.
Proof.
  assert (Hno : forall fuel words,
             ~ NoDup words -> returns (getOrderedCharSet fuel words) = false).
  { clear. induction fuel as [|fuel IH]; intros words Hdup; [reflexivity|].
    rewrite getOrderedCharSet_unfold
      by (intros ->; apply Hdup; constructor).
    cbv zeta.
    apply has_duplicate_NoDup, duplicate_count in Hdup. destruct Hdup as [w Hw].
    assert (Hin : In w words) by (apply (count_occ_In string_dec); lia).
    assert (Hkey : key_of (JS.charAt0 w) w = true) by apply String.eqb_refl.
    pose proof (count_occ_filter (key_of (JS.charAt0 w)) words w Hkey) as Hcount.
    fold (group_of (JS.charAt0 w) words) in Hcount.
    assert (Hg : ~ NoDup (group_of (JS.charAt0 w) words)).
    { intros Hnd. rewrite (NoDup_count_occ string_dec) in Hnd.
      specialize (Hnd w). lia. }
    match goal with
    | |- context [foldM ?f ?l ?s] =>
        assert (Hloop : returns (foldM f l s) = false)
    end.
    { apply (foldM_no_return _ _ (group_of (JS.charAt0 w) words)).
      - apply filter_In. split; [now apply group_values|].
        unfold longer_than_1. apply Nat.ltb_lt.
        pose proof (count_occ_bound string_dec w (group_of (JS.charAt0 w) words)).
        lia.
      - intros s.
        assert (Hsub : returns (getOrderedCharSet fuel
                                  (map JS.substring1 (group_of (JS.charAt0 w) words)))
                       = false).
        { apply IH. intros Hnd. apply Hg. now apply NoDup_map_inv in Hnd. }
        destruct (getOrderedCharSet fuel _); simpl in *; congruence. }
    match goal with
    | |- context [foldM ?f ?l ?s] => destruct (foldM f l s)
    end; simpl in *; congruence. }
  intros Hdup. specialize (Hno fuel words Hdup).
  pose proof (getOrderedCharSet_no_throw fuel words) as Hthrow.
  destruct (getOrderedCharSet fuel words) as [chains|exc|]; simpl in *.
  - discriminate.
  - exfalso. now apply (Hthrow exc).
  - reflexivity.
Qed.

(** Every returned chain went through the last [filter]. *)
Lemma getOrderedCharSet_chains (fuel : nat) (words : list string)
      (chains : list (list string)) :
  getOrderedCharSet fuel words = Return chains ->
  Forall (fun chain => 2 <= length chain) chains.
Proof.
  destruct fuel as [|fuel]; simpl; [discriminate|].
  destruct words as [|w ws].
  - intros [= <-]. constructor.
  - match goal with |- context [foldM ?f ?l ?s] => destruct (foldM f l s) end;
      simpl; try discriminate.
    intros [= <-]. apply Forall_forall. intros chain Hin.
    apply filter_In in Hin. destruct Hin as [_ Hlen].
    unfold longer_than_1 in Hlen. apply Nat.ltb_lt in Hlen. lia.
Qed.

End ChainFacts.

(** ** Lemmas on the traversal *)

Section TraverseFacts.

Import DTG.

Lemma traverse_unfold (fuel : nat) (dtg : t) (startingNode : node)
      (visitedVertices : ref) (st : store) :
  _traverse (S fuel) dtg (Some startingNode) visitedVertices st =
  if isLeafVertex dtg (vertexStart startingNode) then
    Return (collect visitedVertices st)
  else if isBranchVertex dtg (vertexStart startingNode) then
    foldM (fun st vertexEnd =>
             if JS.includes (deref st visitedVertices) vertexEnd then
               Return (collect visitedVertices (push visitedVertices vertexEnd st))
             else
               let '(copy, st') :=
                 alloc (deref st visitedVertices ++ [vertexEnd]) st in
               _traverse fuel dtg (Map_get dtg vertexEnd) copy st')
          (vertexEnds startingNode) st
  else
    match vertexEnds startingNode with
    | [] => _traverse fuel dtg None visitedVertices st
    | vertexEnd :: _ =>
        if JS.includes (deref st visitedVertices) vertexEnd then
          Return (collect visitedVertices (push visitedVertices vertexEnd st))
        else
          _traverse fuel dtg (Map_get dtg vertexEnd) visitedVertices
                    (push visitedVertices vertexEnd st)
    end.
Proof. reflexivity. Qed.

Lemma isLeafVertex_node (dtg : t) (k : string) (n : node) :
  Map_get dtg k = Some n ->
  isLeafVertex dtg k = negb (isRoot n) && Nat.eqb (length (vertexEnds n)) 0.
Proof.
  intros H. unfold isLeafVertex, hasVertex. rewrite Map_has_get, H. reflexivity.
Qed.

Lemma isBranchVertex_node (dtg : t) (k : string) (n : node) :
  Map_get dtg k = Some n ->
  isBranchVertex dtg k = negb (isRoot n) && Nat.ltb 1 (length (vertexEnds n)).
Proof.
  intros H. unfold isBranchVertex, hasVertex. rewrite Map_has_get, H. reflexivity.
Qed.

(** The traversal that starts at an isolated root does not return. *)
Lemma traverse_isolated (fuel : nat) (dtg : t) (n : node) (r : ref) (st : store) :
  Map_get dtg (vertexStart n) = Some n ->
  isRoot n = true -> vertexEnds n = [] ->
  returns (_traverse fuel dtg (Some n) r st) = false.
Proof.
  intros Hget Hroot Hends. destruct fuel as [|fuel]; [reflexivity|].
  rewrite traverse_unfold.
  rewrite (isLeafVertex_node _ _ _ Hget), (isBranchVertex_node _ _ _ Hget).
  rewrite Hroot, Hends. simpl. destruct fuel; reflexivity.
Qed.

(** [getPaths] does not return on a graph with an isolated root. *)
Lemma getPaths_isolated (dtg : t) (v : string) :
  unique_keys dtg -> named dtg -> isolated dtg v ->
  forall fuel, returns (getPaths fuel dtg) = false.
Proof.
  intros Hu Hnamed (n & Hget & Hroot & Hends) fuel.
  assert (Hin : In (v, n) dtg) by now apply Map_get_In.
  unfold getPaths, Map_size.
  destruct dtg as [|e dtg']; [contradiction|].
  remember (e :: dtg') as dtg eqn:Hdtg.
  replace (negb (Nat.eqb (length dtg) 0)) with true by now rewrite Hdtg.
  match goal with
  | |- context [foldM ?f dtg ?s] =>
      assert (Hno : returns (foldM f dtg s) = false)
  end.
  { apply (foldM_no_return _ _ (v, n) Hin). intros st. simpl. rewrite Hroot.
    apply traverse_isolated; [|assumption|assumption].
    now rewrite (Hnamed v n Hget). }
  match goal with
  | |- context [foldM ?f dtg ?s] => destruct (foldM f dtg s)
  end; simpl in *; congruence.
Qed.

(** [getPaths] returns the empty list on a graph without a root. *)
Lemma getPaths_no_root (dtg : t) :
  unique_keys dtg -> (forall v, isRootVertex dtg v = false) ->
  forall fuel, getPaths fuel dtg = Return [].
Proof.
  intros Hu Hnone fuel. unfold getPaths.
  destruct (negb (Nat.eqb (Map_size dtg) 0)); [|reflexivity].
  rewrite foldM_skip; [reflexivity|].
  intros [k n] Hin. simpl.
  assert (Hget : Map_get dtg k = Some n) by now apply In_Map_get.
  specialize (Hnone k). rewrite (isRootVertex_node _ _ _ Hget) in Hnone.
  now rewrite Hnone.
Qed.

(** *** The store *)

Lemma update_length {A : Type} (i : nat) (f : A -> A) (l : list A) :
  length (update i f l) = length l.
Proof.
  revert i. induction l as [|x l IH]; intros [|i]; simpl; auto.
Qed.

Lemma update_nth_same {A : Type} (i : nat) (f : A -> A) (l : list A) (d : A) :
  i < length l -> nth i (update i f l) d = f (nth i l d).
Proof.
  revert i. induction l as [|x l IH]; intros [|i]; simpl; intros H; try lia.
  - reflexivity.
  - apply IH. lia.
Qed.

Lemma update_nth_other {A : Type} (i j : nat) (f : A -> A) (l : list A) (d : A) :
  i <> j -> nth j (update i f l) d = nth j l d.
Proof.
  revert i j. induction l as [|x l IH]; intros [|i] [|j]; simpl; intros H;
    try reflexivity; try lia.
  apply IH. lia.
Qed.

Lemma deref_push_same (r : ref) (x : string) (st : store) :
  r < length (heap st) -> deref (push r x st) r = deref st r ++ [x].
Proof.
  intros H. unfold deref, push. simpl. now rewrite update_nth_same.
Qed.

Lemma deref_push_other (r r' : ref) (x : string) (st : store) :
  r <> r' -> deref (push r x st) r' = deref st r'.
Proof.
  intros H. unfold deref, push. simpl. now rewrite update_nth_other.
Qed.

Lemma heap_push (r : ref) (x : string) (st : store) :
  length (heap (push r x st)) = length (heap st).
Proof. unfold push. simpl. apply update_length. Qed.

Lemma deref_alloc_old (a : list string) (st : store) (r : ref) :
  r < length (heap st) -> deref (snd (alloc a st)) r = deref st r.
Proof.
  intros H. unfold deref, alloc. simpl. now rewrite app_nth1.
Qed.

Lemma deref_alloc_new (a : list string) (st : store) :
  deref (snd (alloc a st)) (fst (alloc a st)) = a.
Proof.
  unfold deref, alloc. simpl. rewrite app_nth2 by lia.
  now rewrite Nat.sub_diag.
Qed.

Lemma heap_alloc (a : list string) (st : store) :
  length (heap (snd (alloc a st))) = S (length (heap st)).
Proof. unfold alloc. simpl. rewrite length_app. simpl. lia. Qed.

(** *** The traversal leaves the other arrays alone *)

Lemma frame_refl (r : ref) (st : store) : frame r st st.
Proof. split; auto. Qed.

Lemma frame_push_collect (r : ref) (x : string) (st : store) :
  frame r st (collect r (push r x st)).
Proof.
  split.
  - simpl. rewrite update_length. lia.
  - intros r' _ Hne. unfold deref. simpl. rewrite update_nth_other; auto.
Qed.

Lemma traverse_frame (dtg : t) (fuel : nat) :
  forall startingNode r st st',
    _traverse fuel dtg startingNode r st = Return st' -> frame r st st'.
Proof.
  induction fuel as [|fuel IH]; intros startingNode r st st'; [discriminate|].
  destruct startingNode as [node|]; [|discriminate].
  rewrite traverse_unfold.
  destruct (isLeafVertex dtg (vertexStart node)).
  { intros [= <-]. split; simpl; auto. }
  destruct (isBranchVertex dtg (vertexStart node)).
  { generalize (vertexEnds node) as ends. intros ends. revert st.
    induction ends as [|e ends IHends]; simpl; intros st.
    - intros [= <-]. apply frame_refl.
    - destruct (JS.includes (deref st r) e).
      + simpl. intros H. apply IHends in H.
        destruct H as [Hlen Hsame]. simpl in Hlen, Hsame.
        rewrite update_length in Hlen, Hsame. split; [assumption|].
        intros r' Hr' Hne. rewrite (Hsame r' Hr' Hne).
        unfold deref. simpl. now rewrite update_nth_other by auto.
      + destruct (_traverse fuel dtg (Map_get dtg e) (length (heap st))
                            {| heap := heap st ++ [deref st r ++ [e]];
                               paths := paths st |}) as [st1| |] eqn:Hsub;
          simpl; try discriminate.
        intros H. apply IHends in H. apply IH in Hsub.
        destruct H as [Hlen Hsame]. destruct Hsub as [Hlen1 Hsame1].
        simpl in Hlen1, Hsame1. rewrite length_app in Hlen1, Hsame1.
        simpl in Hlen1, Hsame1.
        split; [lia|].
        intros r' Hr' Hne. rewrite Hsame by (auto; lia).
        rewrite Hsame1 by lia.
        unfold deref. simpl. now rewrite app_nth1. }
  destruct (vertexEnds node) as [|e ends].
  { intros H. now apply IH in H. }
  destruct (JS.includes (deref st r) e).
  { intros [= <-]. apply frame_push_collect. }
  intros H. apply IH in H. destruct H as [Hlen Hsame].
  rewrite heap_push in Hlen, Hsame. split; [assumption|].
  intros r' Hr' Hne. rewrite (Hsame r' Hr' Hne).
  now apply deref_push_other.
Qed.

(** *** The traversal ends *)

Lemma includes_app (path : list string) (e k : string) :
  JS.includes (path ++ [e]) k = JS.includes path k || String.eqb e k.
Proof.
  unfold JS.includes. rewrite existsb_app. simpl. now rewrite orb_false_r.
Qed.

Lemma unvisited_le (dtg : t) (path : list string) : unvisited dtg path <= length dtg.
Proof. apply filter_length_le. Qed.

Lemma unvisited_same (dtg : t) (path : list string) (e : string) :
  JS.includes path e = true -> unvisited dtg (path ++ [e]) = unvisited dtg path.
Proof.
  intros He. unfold unvisited. f_equal. apply filter_ext. intros [k n]. simpl.
  rewrite includes_app. destruct (String.eqb_spec e k) as [<-|]; simpl.
  - now rewrite He.
  - now rewrite orb_false_r.
Qed.

Lemma unvisited_less (dtg : t) (path : list string) (e : string) :
  hasVertex dtg e = true -> JS.includes path e = false ->
  unvisited dtg (path ++ [e]) < unvisited dtg path.
Proof.
  unfold hasVertex, Map_has, unvisited. intros Hhas He.
  induction dtg as [|[k n] dtg IH]; simpl in *; [discriminate|].
  rewrite includes_app.
  assert (Hle : length (List.filter (fun e0 => negb (JS.includes (path ++ [e]) (fst e0))) dtg)
                <= length (List.filter (fun e0 => negb (JS.includes path (fst e0))) dtg)).
  { clear. induction dtg as [|[k n] dtg IH]; simpl; [lia|].
    rewrite includes_app. destruct (JS.includes path k); simpl; [assumption|].
    destruct (String.eqb e k); simpl; lia. }
  destruct (String.eqb_spec k e) as [->|Hne]; simpl in Hhas.
  - rewrite He, String.eqb_refl. simpl. lia.
  - specialize (IH Hhas).
    destruct (JS.includes path k); simpl; [assumption|].
    destruct (String.eqb e k); simpl; lia.
Qed.

(** With a call depth of the number of unvisited vertices plus two the
    traversal does not run out of depth. *)
Lemma traverse_settled (dtg : t) (fuel : nat) :
  closed dtg ->
  forall k r st,
    r < length (heap st) ->
    unvisited dtg (deref st r) + 2 <= fuel ->
    _traverse fuel dtg (Map_get dtg k) r st <> OutOfFuel.
Proof.
  intros Hclosed. induction fuel as [|fuel IH]; intros k r st Hr Hfuel; [lia|].
  destruct (Map_get dtg k) as [node|] eqn:Hget; [|discriminate].
  rewrite traverse_unfold.
  destruct (isLeafVertex dtg (vertexStart node)); [discriminate|].
  destruct (isBranchVertex dtg (vertexStart node)).
  { assert (Hends : forall e, In e (vertexEnds node) -> hasVertex dtg e = true).
    { intros e He. exact (Hclosed k node e Hget He). }
    revert Hends. generalize (vertexEnds node) as ends. intros ends. revert st Hr Hfuel.
    induction ends as [|e ends IHends]; simpl; intros st Hr Hfuel Hends; [discriminate|].
    destruct (JS.includes (deref st r) e) eqn:Hinc.
    - simpl. apply IHends.
      + simpl. now rewrite update_length.
      + change (deref (collect r (push r e st)) r) with (deref (push r e st) r).
        rewrite deref_push_same by assumption.
        now rewrite unvisited_same.
      + intros e' He'. apply Hends. now right.
    - set (st1 := {| heap := heap st ++ [deref st r ++ [e]]; paths := paths st |}).
      assert (Hst1 : st1 = snd (alloc (deref st r ++ [e]) st)) by reflexivity.
      assert (Hsub : _traverse fuel dtg (Map_get dtg e) (length (heap st)) st1
                     <> OutOfFuel).
      { apply IH.
        - rewrite Hst1, heap_alloc. lia.
        - change (length (heap st)) with (fst (alloc (deref st r ++ [e]) st)).
          rewrite Hst1, deref_alloc_new.
          assert (unvisited dtg (deref st r ++ [e]) < unvisited dtg (deref st r)).
          { apply unvisited_less; [|assumption]. apply Hends. now left. }
          lia. }
      destruct (_traverse fuel dtg (Map_get dtg e) (length (heap st)) st1)
        as [st2| |] eqn:Hres; simpl; [|discriminate|congruence].
      apply traverse_frame in Hres. destruct Hres as [Hlen Hsame].
      rewrite Hst1, heap_alloc in Hlen, Hsame.
      apply IHends.
      + lia.
      + rewrite Hsame by lia. rewrite deref_alloc_old by assumption. assumption.
      + intros e' He'. apply Hends. now right. }
  destruct (vertexEnds node) as [|e ends] eqn:Hends.
  { destruct fuel; [lia|discriminate]. }
  destruct (JS.includes (deref st r) e) eqn:Hinc; [discriminate|].
  apply IH.
  - now rewrite heap_push.
  - rewrite deref_push_same by assumption.
    assert (unvisited dtg (deref st r ++ [e]) < unvisited dtg (deref st r)).
    { apply unvisited_less; [|assumption].
      apply (Hclosed k node e Hget). rewrite Hends. now left. }
    lia.
Qed.

(** Without an isolated root the traversal does not throw. *)
Lemma traverse_no_throw (dtg : t) (fuel : nat) (exc : exn) :
  closed dtg -> named dtg -> (forall v, ~ isolated dtg v) ->
  forall k node r st,
    Map_get dtg k = Some node ->
    _traverse fuel dtg (Some node) r st <> Throw exc.
Proof.
  intros Hclosed Hnamed Hnone.
  induction fuel as [|fuel IH]; intros k node r st Hget; [discriminate|].
  rewrite traverse_unfold.
  assert (Hname : vertexStart node = k) by now apply Hnamed.
  rewrite Hname.
  rewrite (isLeafVertex_node _ _ _ Hget), (isBranchVertex_node _ _ _ Hget).
  assert (Hnext : forall e r' st', In e (vertexEnds node) ->
                    _traverse fuel dtg (Map_get dtg e) r' st' <> Throw exc).
  { intros e r' st' He.
    assert (Hhas : hasVertex dtg e = true) by exact (Hclosed k node e Hget He).
    apply hasVertex_get in Hhas. destruct Hhas as [n' Hn']. rewrite Hn'.
    now apply (IH e). }
  destruct (negb (isRoot node) && Nat.eqb (length (vertexEnds node)) 0) eqn:Hleaf;
    [discriminate|].
  destruct (negb (isRoot node) && Nat.ltb 1 (length (vertexEnds node))).
  { apply foldM_no_throw. intros e st' He.
    destruct (JS.includes (deref st' r) e); [discriminate|].
    simpl. now apply Hnext. }
  destruct (vertexEnds node) as [|e ends] eqn:Hends.
  { exfalso. apply (Hnone k). exists node. split; [assumption|].
    split; [|assumption].
    simpl in Hleaf. rewrite andb_true_r in Hleaf. now apply negb_false_iff. }
  destruct (JS.includes (deref st r) e); [discriminate|].
  apply Hnext. now left.
Qed.

(** On a graph where every end is a vertex, [getPaths] with a call depth
    of the number of vertices plus two returns or throws. *)
Lemma getPaths_settled (dtg : t) (fuel : nat) :
  unique_keys dtg -> closed dtg -> length dtg + 2 <= fuel ->
  getPaths fuel dtg <> OutOfFuel.
Proof.
  intros Hu Hclosed Hfuel. unfold getPaths.
  destruct (negb (Nat.eqb (Map_size dtg) 0)); [|discriminate].
  match goal with
  | |- context [foldM ?f dtg ?s] =>
      assert (Hloop : foldM f dtg s <> OutOfFuel)
  end.
  { apply foldM_settled. intros [k n] st Hin. simpl.
    destruct (isRoot n); [|discriminate].
    rewrite <- (In_Map_get dtg k n Hu Hin).
    apply traverse_settled; [assumption| |].
    - simpl. rewrite length_app. simpl. lia.
    - pose proof (unvisited_le dtg
                    (deref {| heap := heap st ++ [[vertexStart n]]; paths := paths st |}
                           (length (heap st)))).
      lia. }
  match goal with
  | |- context [foldM ?f dtg ?s] => destruct (foldM f dtg s)
  end; simpl; congruence.
Qed.

(** Without an isolated root [getPaths] does not throw. *)
Lemma getPaths_no_throw (dtg : t) (fuel : nat) (exc : exn) :
  unique_keys dtg -> closed dtg -> named dtg -> (forall v, ~ isolated dtg v) ->
  getPaths fuel dtg <> Throw exc.
Proof.
  intros Hu Hclosed Hnamed Hnone. unfold getPaths.
  destruct (negb (Nat.eqb (Map_size dtg) 0)); [|discriminate].
  match goal with
  | |- context [foldM ?f dtg ?s] =>
      assert (Hloop : foldM f dtg s <> Throw exc)
  end.
  { apply foldM_no_throw. intros [k n] st Hin. simpl.
    destruct (isRoot n); [|discriminate].
    apply (traverse_no_throw dtg fuel exc Hclosed Hnamed Hnone k).
    now apply In_Map_get. }
  match goal with
  | |- context [foldM ?f dtg ?s] => destruct (foldM f dtg s)
  end; simpl; congruence.
Qed.

(** [getPaths] returns exactly on the graphs without an isolated root. *)
Lemma getPaths_returns_iff (ops : list operation) (fuel : nat) :
  length (run ops new) + 2 <= fuel ->
  (returns (getPaths fuel (run ops new)) = true <->
   forall v, ~ isolated (run ops new) v).
Proof.
  intros Hfuel.
  assert (Hu : unique_keys (run ops new))
    by apply run_unique_keys, new_unique_keys.
  assert (Hclosed := run_closed ops). assert (Hnamed := run_named ops).
  split.
  - intros Hret v Hv.
    rewrite (getPaths_isolated _ v Hu Hnamed Hv fuel) in Hret. discriminate.
  - intros Hnone.
    pose proof (getPaths_settled _ fuel Hu Hclosed Hfuel) as Hs.
    destruct (getPaths fuel (run ops new)) as [paths|exc|] eqn:Hres.
    + reflexivity.
    + exfalso. apply (getPaths_no_throw _ fuel exc Hu Hclosed Hnamed Hnone Hres).
    + congruence.
Qed.

End TraverseFacts.

(** ** The properties *)

Section Claims.

Import DTG.

Lemma getPaths_ascending (fuel : nat) (dtg : t) (paths : list (list string)) :
  getPaths fuel dtg = Return paths -> ascending paths.
Proof.
  unfold getPaths. destruct (negb (Nat.eqb (Map_size dtg) 0)).
  - match goal with |- context [foldM ?f ?l ?s] => destruct (foldM f l s) end;
      simpl; try discriminate.
    intros [= <-]. apply sort_ascending.
  - intros [= <-]. constructor.
Qed.

(** C1: on the word list bca, aaa, acb, ddb, dca the chains are b a d, a c
    and d c; the graph built from the unique symbols and these chains has
    the paths b a c and b a d c, in ascending order of length;
    [extractAlphabetChars] returns the last and single longest of them,
    b a d c. *)
Theorem extractAlphabetChars_sample (n : nat) :
  let uniqueChars := getUniqueCharSet sample_words in
  let orderedChars := [["b"; "a"; "d"]; ["a"; "c"]; ["d"; "c"]] in
  let dtg := graph_of uniqueChars orderedChars in
  let paths := [["b"; "a"; "c"]; ["b"; "a"; "d"; "c"]] in
  getOrderedCharSet (4 + n) sample_words = Return orderedChars
  /\ getPaths (4 + n) dtg = Return paths
  /\ ascending paths
  /\ single_longest paths ["b"; "a"; "d"; "c"]
  /\ JS.pop paths = Some ["b"; "a"; "d"; "c"]
  /\ extractAlphabetChars (4 + n) sample_words = Return (Some ["b"; "a"; "d"; "c"]).
Proof.
  intros uniqueChars orderedChars dtg paths.
  assert (Hpaths : getPaths (4 + n) dtg = Return paths) by (vm_compute; reflexivity).
  split; [vm_compute; reflexivity|].
  split; [exact Hpaths|].
  split; [exact (getPaths_ascending _ _ _ Hpaths)|].
  split.
  - exists [["b"; "a"; "c"]]. split; [reflexivity|].
    repeat constructor.
  - split; vm_compute; reflexivity.
Qed.

(** C2: an exception does cross the boundary.  On the word list ab the
    graph has the two isolated roots a and b, and [extractAlphabetChars]
    throws a TypeError at every call depth of at least 2 and returns at
    none; [getPaths] throws on the graph with one isolated vertex, and on
    the graph drawn in its own comment, where the vertex e is isolated.
    On a graph built by any history of operations [getPaths] returns
    exactly when no vertex is an isolated root (a call depth of the number
    of vertices plus two is enough).  On a graph without a root [getPaths]
    returns the empty list, and [extractAlphabetChars] returns undefined
    on ab, b, aa. *)
Theorem isolated_root_throws :
  (forall n, extractAlphabetChars (2 + n) ["ab"] = Throw TypeError)
  /\ (forall fuel, returns (extractAlphabetChars fuel ["ab"]) = false)
  /\ (forall n, getPaths (2 + n) single_graph = Throw TypeError)
  /\ (forall n, getPaths (5 + n) comment_graph = Throw TypeError)
  /\ (forall ops fuel,
        length (run ops new) + 2 <= fuel ->
        (returns (getPaths fuel (run ops new)) = true <->
         forall v, ~ isolated (run ops new) v))
  /\ (forall fuel, getPaths fuel cycle_graph = Return [])
  /\ (forall n, extractAlphabetChars (2 + n) ["ab"; "b"; "aa"] = Return None).
Proof.
  split; [intros n; vm_compute; reflexivity|].
  split; [intros [|[|fuel]]; vm_compute; reflexivity|].
  split; [intros n; vm_compute; reflexivity|].
  split; [intros n; vm_compute; reflexivity|].
  split; [exact getPaths_returns_iff|].
  split; [intros fuel; vm_compute; reflexivity|].
  intros n; vm_compute; reflexivity.
Qed.

Lemma isolated_root_throws_witness :
  length chain_graph + 2 <= 6
  /\ forall v, ~ isolated chain_graph v.
Proof.
  split; [vm_compute; lia|].
  apply (proj1 (proj2 (proj2 (proj2 (proj2 isolated_root_throws))))
               [AddVertices ["a"; "b"; "c"; "d"];
                CreateDaisyChainEdges ["a"; "b"; "c"; "d"]] 6).
  - vm_compute. lia.
  - vm_compute. reflexivity.
Defined.

(** C3: [getOrderedCharSet] returns, at some call depth, exactly on the
    word lists without two equal words; on aa, aa it runs out of every
    call depth. *)
Theorem getOrderedCharSet_returns_iff :
  (forall words,
      (exists fuel, returns (getOrderedCharSet fuel words) = true) <-> NoDup words)
  /\ (forall fuel, getOrderedCharSet fuel ["aa"; "aa"] = OutOfFuel).
Proof.
  split.
  - intros words. split.
    + intros [fuel Hret]. apply has_duplicate_false.
      destruct (has_duplicate words) eqn:Hdup; [|reflexivity].
      apply has_duplicate_NoDup in Hdup.
      rewrite (getOrderedCharSet_duplicate fuel words Hdup) in Hret. discriminate.
    + intros Hnd.
      pose (n := list_max (map String.length words)).
      exists (S n).
      destruct (getOrderedCharSet_returns (S n) n words) as [chains ->];
        [lia|assumption| |reflexivity].
      apply Forall_forall. intros w Hw.
      assert (Hmax : list_max (map String.length words) <= n) by reflexivity.
      rewrite list_max_le, Forall_forall in Hmax. apply Hmax.
      now apply in_map.
  - intros fuel. apply getOrderedCharSet_duplicate.
    intros Hnd. inversion Hnd as [|? ? Hnot _]; subst. apply Hnot. now left.
Qed.

Lemma getOrderedCharSet_returns_iff_witness :
  NoDup sample_words.
Proof.
  apply (proj1 getOrderedCharSet_returns_iff sample_words).
  exists 2. vm_compute. reflexivity.
Defined.

(** C4: on the word list bca, aaa, acb, ddb, dca [getOrderedCharSet]
    returns the chains b a d, a c and d c (in this order), and every chain
    it returns, on any word list, has at least two elements. *)
Theorem getOrderedCharSet_sample :
  (forall n, getOrderedCharSet (2 + n) sample_words
             = Return [["b"; "a"; "d"]; ["a"; "c"]; ["d"; "c"]])
  /\ (forall fuel words chains,
        getOrderedCharSet fuel words = Return chains ->
        Forall (fun chain => 2 <= length chain) chains).
Proof.
  split.
  - intros n. vm_compute. reflexivity.
  - apply getOrderedCharSet_chains.
Qed.

Lemma getOrderedCharSet_sample_witness :
  getOrderedCharSet 2 sample_words = Return [["b"; "a"; "d"]; ["a"; "c"]; ["d"; "c"]]
  /\ Forall (fun chain => 2 <= length chain) [["b"; "a"; "d"]; ["a"; "c"]; ["d"; "c"]].
Proof.
  split.
  - vm_compute. reflexivity.
  - apply (proj2 getOrderedCharSet_sample 2 sample_words). vm_compute. reflexivity.
Defined.

(** C5: on a graph built by any history of operations, a [createEdge]
    that is rejected (same vertex twice, a missing vertex, or an edge
    that is already there) leaves the graph as it is; and after
    [createEdge] of a vertex to itself [hasEdge] of that vertex to
    itself is false. *)
Theorem createEdge_rejected_noop (ops : list operation) (vertexStart vertexEnd : string) :
  let dtg := run ops new in
  vertexStart = vertexEnd
  \/ hasVertex dtg vertexStart = false
  \/ hasVertex dtg vertexEnd = false
  \/ hasEdge dtg vertexStart vertexEnd = true ->
  createEdge dtg vertexStart vertexEnd = dtg
  /\ (vertexStart = vertexEnd ->
      hasEdge (createEdge dtg vertexStart vertexEnd) vertexStart vertexEnd = false).
Proof.
  intros dtg Hrej.
  assert (Hsame : createEdge dtg vertexStart vertexEnd = dtg)
    by now apply createEdge_rejected.
  split; [assumption|].
  intros <-. rewrite Hsame.
  destruct (hasEdge dtg vertexStart vertexStart) eqn:Hedge; [|reflexivity].
  exfalso. apply hasEdge_get in Hedge. destruct Hedge as [_ (node & Hget & Hin)].
  revert Hin. apply (run_loop_free ops new new_loop_free vertexStart node Hget).
Qed.

Lemma createEdge_rejected_noop_witness :
  let dtg := run [AddVertices ["a"; "b"]; CreateEdge "a" "b"] new in
  hasVertex dtg "a" = true
  /\ createEdge dtg "a" "a" = dtg
  /\ hasEdge (createEdge dtg "a" "a") "a" "a" = false.
Proof.
  intros dtg. split; [reflexivity|].
  destruct (createEdge_rejected_noop
              [AddVertices ["a"; "b"]; CreateEdge "a" "b"] "a" "a") as [H1 H2].
  - left. reflexivity.
  - split; [exact H1|exact (H2 eq_refl)].
Defined.

(** C6: let [before] be a graph built by any history of operations and
    [after] the graph after any further operations.  A vertex of [before]
    is a vertex of [after]; if its isRoot flag is false in [before] it is
    false in [after]; an edge of [before] is an edge of [after]; and
    adding vertices again leaves one entry for a vertex that was there,
    with the same node (the same ends and the same isRoot flag). *)
Theorem graph_never_shrinks (history ops : list operation) (v : string) :
  let before := run history new in
  let after := run ops before in
  hasVertex before v = true ->
  hasVertex after v = true
  /\ (isRootVertex before v = false -> isRootVertex after v = false)
  /\ (forall w, hasEdge before v w = true -> hasEdge after v w = true)
  /\ (forall vertices,
        count_occ string_dec (map fst (addVertices before vertices)) v = 1
        /\ Map_get (addVertices before vertices) v = Map_get before v).
Proof.
  intros before after Hv.
  assert (Hext : extends before after) by apply run_extends.
  split; [now apply (extends_hasVertex before after)|].
  split.
  { intros Hroot. apply hasVertex_get in Hv. destruct Hv as [node Hget].
    destruct (Hext v node Hget) as (node' & Hget' & _ & Hflag & _).
    rewrite (isRootVertex_node _ _ _ Hget) in Hroot.
    rewrite (isRootVertex_node _ _ _ Hget'). auto. }
  split.
  { intros w. now apply extends_hasEdge. }
  intros vertices. split.
  - apply NoDup_count_occ'.
    + apply addVertices_unique_keys, run_unique_keys, new_unique_keys.
    + apply Map_has_In.
      apply (extends_hasVertex before); [apply addVertices_extends|assumption].
  - now apply addVertices_present.
Qed.

Lemma graph_never_shrinks_witness :
  let before := run [AddVertices ["a"; "b"]; CreateEdge "a" "b"] new in
  let after := run [AddVertices ["b"; "c"]; CreateEdge "c" "a"] before in
  hasVertex before "b" = true
  /\ hasVertex after "b" = true
  /\ isRootVertex after "b" = false
  /\ hasEdge after "a" "b" = true
  /\ Map_get (addVertices before ["b"; "b"]) "b" = Map_get before "b".
Proof.
  intros before after. split; [reflexivity|].
  destruct (graph_never_shrinks
              [AddVertices ["a"; "b"]; CreateEdge "a" "b"]
              [AddVertices ["b"; "c"]; CreateEdge "c" "a"] "b" eq_refl)
    as (H1 & H2 & _ & H4).
  destruct (graph_never_shrinks
              [AddVertices ["a"; "b"]; CreateEdge "a" "b"]
              [AddVertices ["b"; "c"]; CreateEdge "c" "a"] "a" eq_refl)
    as (_ & _ & H3 & _).
  split; [exact H1|].
  split; [exact (H2 eq_refl)|].
  split; [exact (H3 "b" eq_refl)|].
  exact (proj2 (H4 ["b"; "b"])).
Defined.

(** One step of a walk on a graph that is given in full: the walk ends
    at its vertex, or goes on along one of the edges of the vertex. *)
Ltac walk_step :=
  match goal with
  | H : walk_to_end _ _ _ |- _ =>
      let n0 := fresh "n" in
      let Hget := fresh "Hget" in
      let Hends := fresh "Hends" in
      let Hedge := fresh "Hedge" in
      let Hnext := fresh "Hnext" in
      let Hin := fresh "Hin" in
      inversion H as [? n0 Hget Hends|? ? ? Hedge Hnext]; subst; clear H;
      [ vm_compute in Hget; injection Hget as <-; simpl in Hends;
        try discriminate
      | apply hasEdge_ends in Hedge; destruct Hedge as (n0 & Hget & Hin);
        vm_compute in Hget; injection Hget as <-; simpl in Hin;
        repeat (destruct Hin as [<-|Hin]); try contradiction ]
  end.

Ltac walk_build :=
  repeat match goal with
         | |- walk_to_end ?g ?v (?v :: ?w :: ?p) =>
             apply (walk_edge g v w); [vm_compute; reflexivity|]
         | |- walk_to_end ?g ?v [?v] =>
             let found := eval vm_compute in (DTG.Map_get g v) in
             match found with
             | Some ?n => apply (walk_end g v n); vm_compute; reflexivity
             end
         end.

Lemma twelve_graph_walks (p : list string) :
  root_to_terminal twelve_graph p <-> In p twelve_paths.
Proof.
  split.
  - intros (v & Hroot & Hwalk).
    apply isRootVertex_get in Hroot. destruct Hroot as (n & Hget & Hroot).
    apply Map_get_In in Hget. vm_compute in Hget.
    repeat (destruct Hget as [Hget|Hget];
            [injection Hget as <- <-; try discriminate|]); try contradiction.
    + repeat walk_step; repeat ((left; reflexivity) || right).
    + repeat walk_step; repeat ((left; reflexivity) || right).
  - unfold twelve_paths. simpl.
    intros [<-|[<-|[<-|[<-|[<-|[<-|[]]]]]]];
      match goal with
      | |- root_to_terminal _ (?v :: _) => exists v
      end; (split; [vm_compute; reflexivity|]); walk_build.
Qed.

(** C7: [getPaths] does not return all the paths from a root to a
    terminal vertex: from a root only the first outgoing edge is
    followed.  On the graph a -> b, a -> c the path a c runs from the root
    a to the leaf c, and [getPaths] returns the path a b alone.  On the
    graph with twelve vertices it returns six paths, which are the paths
    from a root to a terminal vertex, the last being a b c d e f g; and
    what [getPaths] returns is always ascending by length. *)
Theorem getPaths_misses_root_fork :
  (forall n, getPaths (2 + n) fork_graph = Return [["a"; "b"]])
  /\ root_to_terminal fork_graph ["a"; "c"]
  /\ ~ In ["a"; "c"] [["a"; "b"]]
  /\ (forall n, getPaths (7 + n) twelve_graph = Return twelve_paths)
  /\ length twelve_paths = 6
  /\ JS.pop twelve_paths = Some ["a"; "b"; "c"; "d"; "e"; "f"; "g"]
  /\ (forall p, root_to_terminal twelve_graph p <-> In p twelve_paths)
  /\ (forall fuel dtg paths, getPaths fuel dtg = Return paths -> ascending paths).
Proof.
  split; [intros n; vm_compute; reflexivity|]. split.
  { exists "a". split; [vm_compute; reflexivity|]. walk_build. }
  split; [intros [H|[]]; discriminate|].
  split; [intros n; vm_compute; reflexivity|].
  split; [reflexivity|].
  split; [reflexivity|].
  split; [exact twelve_graph_walks|].
  exact getPaths_ascending.
Qed.

Lemma getPaths_misses_root_fork_witness :
  getPaths 7 twelve_graph = Return twelve_paths /\ ascending twelve_paths.
Proof.
  split; [vm_compute; reflexivity|].
  apply (proj2 (proj2 (proj2 (proj2 (proj2 (proj2 (proj2
           getPaths_misses_root_fork)))))) 7 twelve_graph).
  vm_compute. reflexivity.
Defined.

(** C8: on a map with unique keys [isFullyConnected] is true exactly when
    one and only one vertex is a root; it is false on the empty graph,
    false on the two chains a -> b -> c and d -> e -> f, and true once the
    edge c -> d is added. *)
Theorem isFullyConnected_one_root :
  (forall dtg, unique_keys dtg ->
     (isFullyConnected dtg = true <->
      exists v, isRootVertex dtg v = true
                /\ forall w, isRootVertex dtg w = true -> w = v))
  /\ isFullyConnected new = false
  /\ isFullyConnected two_chains_graph = false
  /\ isFullyConnected joined_chains_graph = true.
Proof.
  split; [exact one_root_iff|]. repeat split.
Qed.

Lemma isFullyConnected_one_root_witness :
  unique_keys joined_chains_graph
  /\ exists v, isRootVertex joined_chains_graph v = true
               /\ forall w, isRootVertex joined_chains_graph w = true -> w = v.
Proof.
  assert (Hu : unique_keys joined_chains_graph).
  { apply createEdge_unique_keys, run_unique_keys, new_unique_keys. }
  split; [exact Hu|].
  apply (proj1 isFullyConnected_one_root joined_chains_graph Hu). reflexivity.
Defined.

(** C9: [getLoopCount] is the number of entries of [getPaths] in which a
    symbol occurs twice; it is 0 on the chain a -> b -> c -> d and 1 once
    the edge d -> b is added. *)
Theorem getLoopCount_counts_duplicates :
  (forall fuel dtg,
     getLoopCount fuel dtg =
     (paths <- getPaths fuel dtg ;;
      Return (length (List.filter has_duplicate paths))))
  /\ (forall p, has_duplicate p = true <-> ~ NoDup p)
  /\ (forall n, getLoopCount (4 + n) chain_graph = Return 0)
  /\ (forall n, getLoopCount (4 + n) chain_loop_graph = Return 1).
Proof.
  split.
  { intros fuel dtg. unfold getLoopCount.
    destruct (getPaths fuel dtg); simpl; try reflexivity.
    now rewrite loop_count_loop. }
  split; [exact has_duplicate_NoDup|].
  split; intros n; vm_compute; reflexivity.
Qed.

End Claims.

(** ** Further properties of the graph operations *)

Section GraphProperties.

Import DTG.

Lemma hasVertex_keys (dtg dtg' : t) :
  map fst dtg' = map fst dtg -> forall v, hasVertex dtg' v = hasVertex dtg v.
Proof.
  intros Hkeys v. unfold hasVertex.
  destruct (Map_has dtg v) eqn:Hv.
  - apply Map_has_In. rewrite Hkeys. now apply Map_has_In.
  - destruct (Map_has dtg' v) eqn:Hv'; [|reflexivity].
    apply Map_has_In in Hv'. rewrite Hkeys in Hv'. apply Map_has_In in Hv'.
    congruence.
Qed.

Lemma createEdge_keys (dtg : t) (a b : string) :
  map fst (createEdge dtg a b) = map fst dtg.
Proof.
  destruct (createEdge_cases dtg a b) as [->|(Hne & Ha & Hb & Hedge)]; [reflexivity|].
  destruct (createEdge_accepted dtg a b Hne Ha Hb Hedge) as (sn & en & Hsn & Hen & ->).
  rewrite Map_set_keys_present.
  - now apply Map_set_keys_present.
  - apply Map_has_In. rewrite Map_set_keys_present by exact Ha.
    now apply Map_has_In.
Qed.

Lemma hasEdge_node (dtg : t) (a b : string) (n : node) :
  Map_get dtg a = Some n -> hasVertex dtg b = true ->
  hasEdge dtg a b = JS.includes (vertexEnds n) b.
Proof.
  intros Hget Hb. unfold hasEdge.
  assert (Ha : hasVertex dtg a = true) by (apply hasVertex_get; eauto).
  now rewrite Ha, Hb, Hget.
Qed.

Lemma hasEdge_missing (dtg : t) (a b : string) :
  hasVertex dtg a = false \/ hasVertex dtg b = false -> hasEdge dtg a b = false.
Proof.
  unfold hasEdge. intros [H|H]; rewrite H; [reflexivity|].
  now rewrite andb_false_r.
Qed.

(** The effect of an accepted [createEdge] on every observer. *)
Lemma createEdge_effect (dtg : t) (a b : string) :
  a <> b -> hasVertex dtg a = true -> hasVertex dtg b = true ->
  hasEdge dtg a b = false ->
  (forall x y, hasEdge (createEdge dtg a b) x y
               = hasEdge dtg x y || (String.eqb x a && String.eqb y b))
  /\ (forall v, isRootVertex (createEdge dtg a b) v
                = isRootVertex dtg v && negb (String.eqb v b)).
Proof.
  intros Hne Ha Hb Hedge.
  assert (Hkeys := createEdge_keys dtg a b).
  assert (Hvert := hasVertex_keys _ _ Hkeys).
  destruct (createEdge_accepted dtg a b Hne Ha Hb Hedge) as (sn & en & Hsn & Hen & Heq).
  assert (Hget : forall k, Map_get (createEdge dtg a b) k =
                   if String.eqb b k
                   then Some {| vertexStart := vertexStart en; isRoot := false;
                                vertexEnds := vertexEnds en |}
                   else if String.eqb a k
                        then Some {| vertexStart := vertexStart sn; isRoot := isRoot sn;
                                     vertexEnds := vertexEnds sn ++ [b] |}
                        else Map_get dtg k).
  { intros k. rewrite Heq, !Map_get_set. reflexivity. }
  split.
  - intros x y.
    destruct (hasVertex dtg x) eqn:Hx.
    2:{ rewrite !hasEdge_missing by (rewrite ?Hvert; auto).
        destruct (String.eqb_spec x a) as [->|]; [congruence|reflexivity]. }
    destruct (hasVertex dtg y) eqn:Hy.
    2:{ rewrite !hasEdge_missing by (rewrite ?Hvert; auto).
        destruct (String.eqb_spec y b) as [->|]; [congruence|].
        now rewrite andb_false_r. }
    apply hasVertex_get in Hx. destruct Hx as [nx Hnx].
    rewrite (hasEdge_node dtg x y nx Hnx Hy).
    specialize (Hget x).
    destruct (String.eqb_spec b x) as [Hbx|Hbx]; [subst x|].
    + rewrite (hasEdge_node _ b y _ Hget) by now rewrite Hvert.
      simpl. assert (nx = en) as -> by congruence.
      destruct (String.eqb_spec b a) as [->|]; [congruence|].
      simpl. now rewrite orb_false_r.
    + destruct (String.eqb_spec a x) as [Hax|Hax]; [subst x|].
      * rewrite (hasEdge_node _ a y _ Hget) by now rewrite Hvert.
        simpl. assert (nx = sn) as -> by congruence.
        rewrite includes_app, String.eqb_refl. simpl.
        now rewrite (String.eqb_sym b y).
      * rewrite Hnx in Hget.
        rewrite (hasEdge_node _ x y _ Hget) by now rewrite Hvert.
        destruct (String.eqb_spec x a) as [->|]; [congruence|].
        simpl. now rewrite orb_false_r.
  - intros v. specialize (Hget v). unfold isRootVertex. rewrite Hvert.
    destruct (hasVertex dtg v) eqn:Hv; [|reflexivity].
    rewrite Hget.
    destruct (String.eqb_spec b v) as [Hbv|Hbv]; [subst v|].
    + rewrite String.eqb_refl. simpl. now rewrite andb_false_r.
    + destruct (String.eqb_spec v b) as [->|]; [congruence|]. simpl.
      rewrite andb_true_r.
      destruct (String.eqb_spec a v) as [Hav|Hav]; [subst v|reflexivity].
      now rewrite Hsn.
Qed.

Lemma createEdge_accepted_hasEdge (dtg : t) (vertexStart vertexEnd : string) :
  vertexStart <> vertexEnd ->
  hasVertex dtg vertexStart = true ->
  hasVertex dtg vertexEnd = true ->
  hasEdge dtg vertexStart vertexEnd = false ->
  hasEdge (createEdge dtg vertexStart vertexEnd) vertexStart vertexEnd = true.
Proof.
  intros Hne Ha Hb Hedge.
  destruct (createEdge_effect dtg vertexStart vertexEnd Hne Ha Hb Hedge) as [He _].
  rewrite He, !String.eqb_refl. now rewrite orb_true_r.
Qed.

(** X1: an accepted [createEdge] (two different vertices of the graph
    that are not yet connected) adds exactly the one edge, lowers exactly
    the isRoot flag of the ending vertex, and leaves the vertices and
    their order in the map as they are. *)
Theorem createEdge_adds_one_edge (dtg : t) (vertexStart vertexEnd : string) :
  vertexStart <> vertexEnd ->
  hasVertex dtg vertexStart = true ->
  hasVertex dtg vertexEnd = true ->
  hasEdge dtg vertexStart vertexEnd = false ->
  hasEdge (createEdge dtg vertexStart vertexEnd) vertexStart vertexEnd = true
  /\ isRootVertex (createEdge dtg vertexStart vertexEnd) vertexEnd = false
  /\ (forall x y, (x, y) <> (vertexStart, vertexEnd) ->
        hasEdge (createEdge dtg vertexStart vertexEnd) x y = hasEdge dtg x y)
  /\ (forall v, v <> vertexEnd ->
        isRootVertex (createEdge dtg vertexStart vertexEnd) v = isRootVertex dtg v)
  /\ map fst (createEdge dtg vertexStart vertexEnd) = map fst dtg.
Proof.
  intros Hne Ha Hb Hedge.
  destruct (createEdge_effect dtg vertexStart vertexEnd Hne Ha Hb Hedge) as [He Hr].
  split; [rewrite He, !String.eqb_refl; now rewrite orb_true_r|].
  split; [rewrite Hr, String.eqb_refl; now rewrite andb_false_r|].
  split.
  { intros x y Hxy. rewrite He.
    destruct (String.eqb_spec x vertexStart) as [->|]; simpl;
      [|now rewrite orb_false_r].
    destruct (String.eqb_spec y vertexEnd) as [->|]; [congruence|].
    now rewrite orb_false_r. }
  split.
  { intros v Hv. rewrite Hr.
    destruct (String.eqb_spec v vertexEnd); [congruence|]. now rewrite andb_true_r. }
  apply createEdge_keys.
Qed.

Lemma createEdge_adds_one_edge_witness :
  hasEdge (createEdge (addVertices new ["a"; "b"]) "a" "b") "a" "b" = true
  /\ isRootVertex (createEdge (addVertices new ["a"; "b"]) "a" "b") "b" = false.
Proof.
  destruct (createEdge_adds_one_edge (addVertices new ["a"; "b"]) "a" "b")
    as (H1 & H2 & _); try reflexivity; [discriminate|].
  split; [exact H1|exact H2].
Defined.

(** X2: the same [createEdge] twice is the same as once: the second call
    is rejected. *)
Theorem createEdge_twice (dtg : t) (vertexStart vertexEnd : string) :
  createEdge (createEdge dtg vertexStart vertexEnd) vertexStart vertexEnd
  = createEdge dtg vertexStart vertexEnd.
Proof.
  destruct (createEdge_cases dtg vertexStart vertexEnd)
    as [Hsame|(Hne & Ha & Hb & Hedge)].
  - now rewrite !Hsame.
  - apply createEdge_rejected. right. right. right.
    now apply createEdge_accepted_hasEdge.
Qed.

Lemma add_loop_keys (vertices : list string) (m : t) (seen : list string) (base : list string) :
  map fst m = base ++ seen ->
  (forall v, In v vertices -> ~ In v base) ->
  map fst (fold_left (fun _map vertex => Map_set _map vertex (fresh_node vertex))
                     vertices m)
  = base ++ fold_left Set_add vertices seen.
Proof.
  revert m seen. induction vertices as [|v vs IH]; simpl; intros m seen Hm Hbase.
  - assumption.
  - apply IH; [|intros w Hw; apply Hbase; now right].
    unfold Set_add. destruct (JS.includes seen v) eqn:Hinc.
    + rewrite Map_set_keys_present; [assumption|].
      apply Map_has_In. rewrite Hm. apply in_or_app. right.
      now apply includes_In.
    + rewrite Map_set_keys_absent.
      * rewrite Hm. now rewrite app_assoc.
      * destruct (Map_has m v) eqn:Hhas; [|reflexivity].
        apply Map_has_In in Hhas. rewrite Hm in Hhas.
        apply in_app_or in Hhas. destruct Hhas as [Hin|Hin].
        -- exfalso. apply (Hbase v); auto.
        -- apply includes_In in Hin. congruence.
Qed.

Lemma filter_none {A : Type} (f : A -> bool) (l : list A) :
  (forall x, In x l -> f x = false) -> List.filter f l = [].
Proof.
  induction l as [|x l IH]; simpl; intros H; [reflexivity|].
  rewrite (H x) by now left. apply IH. intros y Hy. apply H. now right.
Qed.

Lemma addVertices_hasVertex (dtg : t) (vertices : list string) (v : string) :
  hasVertex (addVertices dtg vertices) v = true
  <-> hasVertex dtg v = true \/ In v vertices.
Proof.
  split.
  - intros Hv. destruct (hasVertex dtg v) eqn:Hold; [now left|]. right.
    destruct (in_dec string_dec v vertices) as [Hin|Hnot]; [assumption|].
    apply hasVertex_get in Hv. destruct Hv as [n Hn].
    rewrite addVertices_unfold, add_loop_get in Hn.
    + assert (hasVertex dtg v = true) by (apply hasVertex_get; eauto). congruence.
    + rewrite filter_In. tauto.
  - intros [Hold|Hin].
    + eapply extends_hasVertex; [apply addVertices_extends|assumption].
    + destruct (hasVertex dtg v) eqn:Hold.
      * eapply extends_hasVertex; [apply addVertices_extends|assumption].
      * apply hasVertex_get. eexists. now apply addVertices_absent.
Qed.

(** X3: after [addVertices] the vertices of the graph are the old ones
    and the ones of the list; in the map the new vertices follow the old
    ones in the order of the list, each once; and adding the same list
    again changes nothing. *)
Theorem addVertices_then_hasVertex (dtg : t) (vertices : list string) :
  (forall v, hasVertex (addVertices dtg vertices) v = true
             <-> hasVertex dtg v = true \/ In v vertices)
  /\ map fst (addVertices dtg vertices)
     = map fst dtg
       ++ JS.Set_of (List.filter (fun vertex => negb (hasVertex dtg vertex)) vertices)
  /\ addVertices (addVertices dtg vertices) vertices = addVertices dtg vertices.
Proof.
  assert (Hhas : forall v, hasVertex (addVertices dtg vertices) v = true
                           <-> hasVertex dtg v = true \/ In v vertices)
    by (intros v; apply addVertices_hasVertex).
  split; [exact Hhas|]. split.
  - rewrite addVertices_unfold.
    apply (add_loop_keys _ dtg [] (map fst dtg)).
    + now rewrite app_nil_r.
    + intros v Hv Hin. apply filter_In in Hv. destruct Hv as [_ Hv].
      apply Map_has_In in Hin. unfold hasVertex in Hv. now rewrite Hin in Hv.
  - rewrite (addVertices_unfold (addVertices dtg vertices)).
    rewrite filter_none; [reflexivity|].
    intros v Hv.
    assert (H : hasVertex (addVertices dtg vertices) v = true) by (apply Hhas; now right).
    now rewrite H.
Qed.

(** X4: a vertex that [addVertices] adds is a root without edges: it is
    neither a leaf nor a branch, and no edge starts or ends at it. *)
Theorem addVertices_new_vertex (dtg : t) (vertices : list string) (v : string) :
  hasVertex dtg v = false -> In v vertices ->
  hasVertex (addVertices dtg vertices) v = true
  /\ isRootVertex (addVertices dtg vertices) v = true
  /\ isLeafVertex (addVertices dtg vertices) v = false
  /\ isBranchVertex (addVertices dtg vertices) v = false
  /\ (forall w, hasEdge (addVertices dtg vertices) v w = false).
Proof.
  intros Hold Hin.
  pose proof (addVertices_absent dtg vertices v Hold Hin) as Hget.
  split; [apply hasVertex_get; eauto|].
  split; [now rewrite (isRootVertex_node _ _ _ Hget)|].
  split; [now rewrite (isLeafVertex_node _ _ _ Hget)|].
  split; [now rewrite (isBranchVertex_node _ _ _ Hget)|].
  intros w. destruct (hasEdge (addVertices dtg vertices) v w) eqn:He; [|reflexivity].
  apply hasEdge_ends in He. destruct He as (n & Hn & Hw).
  rewrite Hget in Hn. injection Hn as <-. destruct Hw.
Qed.

Lemma addVertices_new_vertex_witness :
  isRootVertex (addVertices chain_graph ["e"]) "e" = true
  /\ hasEdge (addVertices chain_graph ["e"]) "e" "a" = false.
Proof.
  destruct (addVertices_new_vertex chain_graph ["e"] "e") as (_ & H1 & _ & _ & H2).
  - reflexivity.
  - now left.
  - split; [exact H1|exact (H2 "a")].
Defined.

Lemma daisy_loop_pairs (rest : list string) (dtg : t) (a : string) :
  fst (fold_left daisy_step rest (dtg, Some a))
  = fold_left (fun g p => createEdge g (fst p) (snd p)) (consecutive (a :: rest)) dtg.
Proof.
  revert dtg a. induction rest as [|b rest IH]; intros dtg a; [reflexivity|].
  simpl fold_left at 1. rewrite IH. reflexivity.
Qed.

Lemma createDaisyChainEdges_pairs (dtg : t) (vertices : list string) :
  createDaisyChainEdges dtg vertices
  = fold_left (fun g p => createEdge g (fst p) (snd p)) (consecutive vertices) dtg.
Proof.
  destruct vertices as [|a rest]; [reflexivity|].
  unfold createDaisyChainEdges. simpl fold_left at 1. apply daisy_loop_pairs.
Qed.

Lemma createEdge_then_hasEdge (dtg : t) (a b : string) :
  a <> b -> hasVertex dtg a = true -> hasVertex dtg b = true ->
  hasEdge (createEdge dtg a b) a b = true.
Proof.
  intros Hne Ha Hb. destruct (hasEdge dtg a b) eqn:He.
  - rewrite createEdge_rejected; auto.
  - now apply createEdge_accepted_hasEdge.
Qed.

Lemma edges_loop_extends (pairs : list (string * string)) (dtg : t) :
  extends dtg (fold_left (fun g p => createEdge g (fst p) (snd p)) pairs dtg).
Proof.
  revert dtg. induction pairs as [|p pairs IH]; simpl; intros dtg.
  - apply extends_refl.
  - eapply extends_trans; [apply createEdge_extends|apply IH].
Qed.

Lemma edges_loop_keys (pairs : list (string * string)) (dtg : t) :
  map fst (fold_left (fun g p => createEdge g (fst p) (snd p)) pairs dtg)
  = map fst dtg.
Proof.
  revert dtg. induction pairs as [|p pairs IH]; simpl; intros dtg; [reflexivity|].
  rewrite IH. apply createEdge_keys.
Qed.

Lemma createDaisyChainEdges_keys (dtg : t) (vertices : list string) :
  map fst (createDaisyChainEdges dtg vertices) = map fst dtg.
Proof. rewrite createDaisyChainEdges_pairs. apply edges_loop_keys. Qed.

(** X5: [createDaisyChainEdges] is [createEdge] on every pair of
    neighbours of the list, from left to right; a rejected pair does not
    stop the later ones: afterwards every pair of two different
    neighbours that are vertices of the graph is an edge.  The vertices
    and their order in the map stay as they are; a list of one vertex
    changes nothing. *)
Theorem createDaisyChainEdges_connects (dtg : t) (vertices : list string) :
  createDaisyChainEdges dtg vertices
  = fold_left (fun g p => createEdge g (fst p) (snd p)) (consecutive vertices) dtg
  /\ (forall a b, In (a, b) (consecutive vertices) -> a <> b ->
        hasVertex dtg a = true -> hasVertex dtg b = true ->
        hasEdge (createDaisyChainEdges dtg vertices) a b = true)
  /\ map fst (createDaisyChainEdges dtg vertices) = map fst dtg
  /\ (forall v, createDaisyChainEdges dtg [v] = dtg).
Proof.
  split; [apply createDaisyChainEdges_pairs|]. split.
  - rewrite createDaisyChainEdges_pairs.
    generalize (consecutive vertices) as pairs. intros pairs. revert dtg.
    induction pairs as [|p pairs IH]; simpl; intros dtg a b Hin Hne Ha Hb;
      [contradiction|].
    destruct Hin as [->|Hin].
    + simpl. eapply extends_hasEdge; [apply edges_loop_extends|].
      now apply createEdge_then_hasEdge.
    + apply IH; auto;
        rewrite (hasVertex_keys _ _ (createEdge_keys dtg (fst p) (snd p)));
        assumption.
  - split; [apply createDaisyChainEdges_keys|reflexivity].
Qed.

Lemma createDaisyChainEdges_connects_witness :
  hasEdge (createDaisyChainEdges (addVertices new ["a"; "b"; "c"]) ["a"; "a"; "b"; "x"; "c"])
          "a" "b" = true.
Proof.
  apply (proj1 (proj2 (createDaisyChainEdges_connects
                         (addVertices new ["a"; "b"; "c"])
                         ["a"; "a"; "b"; "x"; "c"])) "a" "b").
  - simpl. right. left. reflexivity.
  - discriminate.
  - reflexivity.
  - reflexivity.
Defined.

Lemma addVertices_hasEdge (dtg : t) (vertices : list string) (u v : string) :
  closed dtg -> hasEdge (addVertices dtg vertices) u v = hasEdge dtg u v.
Proof.
  intros Hclosed.
  destruct (hasEdge dtg u v) eqn:Hold.
  - eapply extends_hasEdge; [apply addVertices_extends|assumption].
  - destruct (hasEdge (addVertices dtg vertices) u v) eqn:Hnew; [|reflexivity].
    apply hasEdge_ends in Hnew. destruct Hnew as (n & Hn & Hv).
    apply addVertices_get in Hn. destruct Hn as [Hn| ->]; [|destruct Hv].
    assert (hasEdge dtg u v = true); [|congruence].
    apply hasEdge_get. split; [exact (Hclosed u n v Hn Hv)|eauto].
Qed.

Lemma createEdge_distinct_ends (dtg : t) (a b : string) :
  distinct_ends dtg -> distinct_ends (createEdge dtg a b).
Proof.
  intros H.
  destruct (createEdge_cases dtg a b) as [->|(Hne & Ha & Hb & Hedge)];
    [assumption|].
  destruct (createEdge_accepted dtg a b Hne Ha Hb Hedge) as (sn & en & Hsn & Hen & ->).
  intros k n. rewrite !Map_get_set.
  destruct (String.eqb_spec b k) as [Hbk|Hbk]; [subst k|].
  - intros [= <-]. simpl. exact (H b en Hen).
  - destruct (String.eqb_spec a k) as [Hak|Hak]; [subst k|].
    + intros [= <-]. simpl. apply NoDup_app.
      * exact (H a sn Hsn).
      * repeat constructor. intros [].
      * intros x Hx [Hxb|[]]. subst x.
        rewrite (hasEdge_node dtg a b sn Hsn Hb) in Hedge.
        apply includes_In in Hx. congruence.
    + apply H.
Qed.

Lemma addVertices_distinct_ends (dtg : t) (vertices : list string) :
  distinct_ends dtg -> distinct_ends (addVertices dtg vertices).
Proof.
  intros H k n Hk. apply addVertices_get in Hk. destruct Hk as [Hk| ->].
  - exact (H k n Hk).
  - constructor.
Qed.

Lemma createEdge_root_flags (dtg : t) (a b : string) :
  root_flags dtg -> root_flags (createEdge dtg a b).
Proof.
  intros H.
  destruct (createEdge_cases dtg a b) as [Hsame|(Hne & Ha & Hb & Hedge)];
    [now rewrite Hsame|].
  destruct (createEdge_effect dtg a b Hne Ha Hb Hedge) as [He Hr].
  intros k n' Hk.
  assert (Hhas : hasVertex dtg k = true).
  { rewrite <- (hasVertex_keys _ _ (createEdge_keys dtg a b)).
    apply hasVertex_get. eauto. }
  apply hasVertex_get in Hhas. destruct Hhas as [n Hn].
  rewrite <- (isRootVertex_node _ _ _ Hk), Hr, (isRootVertex_node _ _ _ Hn).
  specialize (H k n Hn).
  destruct (String.eqb_spec k b) as [Hkb|Hkb]; [subst k|]; simpl.
  - rewrite andb_false_r. split; [discriminate|].
    intros Hall. specialize (Hall a). rewrite He, !String.eqb_refl in Hall.
    rewrite orb_true_r in Hall. discriminate.
  - rewrite andb_true_r, H. split; intros Hall u; specialize (Hall u).
    + rewrite He, Hall. simpl.
      destruct (String.eqb_spec k b); [congruence|]. now rewrite andb_false_r.
    + rewrite He in Hall. now apply orb_false_iff in Hall.
Qed.

Lemma addVertices_root_flags (dtg : t) (vertices : list string) :
  closed dtg -> root_flags dtg -> root_flags (addVertices dtg vertices).
Proof.
  intros Hclosed H k n Hk.
  assert (Hedges : (forall u, hasEdge (addVertices dtg vertices) u k = false)
                   <-> (forall u, hasEdge dtg u k = false)).
  { split; intros Hall u; specialize (Hall u);
      now rewrite addVertices_hasEdge in * by assumption. }
  rewrite Hedges.
  destruct (hasVertex dtg k) eqn:Hold.
  - rewrite addVertices_present in Hk by assumption. now apply H.
  - assert (n = fresh_node k) as ->.
    { apply addVertices_get in Hk. destruct Hk as [Hk|Hk]; [|assumption].
      assert (hasVertex dtg k = true) by (apply hasVertex_get; eauto). congruence. }
    simpl. split; [|reflexivity].
    intros _ u. apply hasEdge_missing. now right.
Qed.

Lemma run_distinct_ends (ops : list operation) : distinct_ends (run ops new).
Proof.
  apply (run_invariant distinct_ends); [|intros k n H; discriminate].
  intros dtg [vs|a b|vs] H; simpl.
  - now apply addVertices_distinct_ends.
  - now apply createEdge_distinct_ends.
  - apply (createDaisyChainEdges_invariant distinct_ends); [|assumption].
    intros; now apply createEdge_distinct_ends.
Qed.

Lemma run_root_flags (ops : list operation) : root_flags (run ops new).
Proof.
  apply (run_invariant (fun g => closed g /\ root_flags g));
    [|split; intros k n; discriminate].
  intros dtg op [Hc Hr]. split; [now apply apply_closed|].
  destruct op as [vs|a b|vs]; simpl.
  - now apply addVertices_root_flags.
  - now apply createEdge_root_flags.
  - apply (createDaisyChainEdges_invariant root_flags); [|assumption].
    intros; now apply createEdge_root_flags.
Qed.

(** X6: every graph built from the empty graph by [addVertices],
    [createEdge] and [createDaisyChainEdges] is well formed: the keys of
    the map are unique, every node is stored under its own vertex, every
    end of an edge is a vertex, no vertex is among its own ends, the ends
    of a vertex are pairwise different, and a vertex is flagged as root
    exactly when no edge ends at it. *)
Theorem built_graph_well_formed (ops : list operation) :
  unique_keys (run ops new)
  /\ named (run ops new)
  /\ closed (run ops new)
  /\ loop_free (run ops new)
  /\ distinct_ends (run ops new)
  /\ root_flags (run ops new).
Proof.
  split; [apply run_unique_keys, new_unique_keys|].
  split; [apply run_named|].
  split; [apply run_closed|].
  split; [apply run_loop_free, new_loop_free|].
  split; [apply run_distinct_ends|apply run_root_flags].
Qed.

End GraphProperties.

(** ** Further properties of the extraction *)

Section ExtractorProperties.

Lemma Set_loop_In (l seen : list string) (x : string) :
  In x (fold_left Set_add l seen) <-> In x seen \/ In x l.
Proof.
  revert seen. induction l as [|y l IH]; simpl; intros seen; [tauto|].
  rewrite IH. unfold Set_add. destruct (JS.includes seen y) eqn:Hinc.
  - apply includes_In in Hinc. split; [tauto|].
    intros [H|[<-|H]]; auto.
  - rewrite in_app_iff. simpl. tauto.
Qed.

Lemma Set_loop_NoDup (l seen : list string) :
  NoDup seen -> NoDup (fold_left Set_add l seen).
Proof.
  revert seen. induction l as [|y l IH]; simpl; intros seen H; [assumption|].
  apply IH. unfold Set_add. destruct (JS.includes seen y) eqn:Hinc; [assumption|].
  apply NoDup_app; [assumption|repeat constructor; intros []|].
  intros x Hx [Hxy|[]]. subst x. apply includes_In in Hx. congruence.
Qed.

Lemma Set_of_In (l : list string) (x : string) : In x (JS.Set_of l) <-> In x l.
Proof.
  unfold JS.Set_of. change (In x (fold_left Set_add l []) <-> In x l).
  rewrite Set_loop_In. simpl. tauto.
Qed.

Lemma Set_of_NoDup (l : list string) : NoDup (JS.Set_of l).
Proof. apply (Set_loop_NoDup l []). constructor. Qed.

Lemma compare_not_Gt_trans (a b c : string) :
  String.compare a b <> Gt -> String.compare b c <> Gt -> String.compare a c <> Gt.
Proof.
  intros Hab Hbc.
  destruct (String.compare a b) eqn:Eab; [| |congruence].
  { apply String.compare_eq_iff in Eab. now subst. }
  destruct (String.compare b c) eqn:Ebc; [| |congruence].
  { apply String.compare_eq_iff in Ebc. subst. now rewrite Eab. }
  apply OrderedTypeEx.String_as_OT.cmp_lt in Eab, Ebc.
  pose proof (OrderedTypeEx.String_as_OT.lt_trans _ _ _ Eab Ebc) as Hac.
  apply OrderedTypeEx.String_as_OT.cmp_lt in Hac.
  unfold OrderedTypeEx.String_as_OT.cmp in Hac. now rewrite Hac.
Qed.

Lemma insert_default_sorted (x : string) (l : list string) :
  StronglySorted (fun a b => String.compare a b <> Gt) l ->
  StronglySorted (fun a b => String.compare a b <> Gt)
                 (JS.insert JS.default_compare x l).
Proof.
  induction l as [|y l IH]; simpl; intros H.
  - repeat constructor.
  - inversion H as [|? ? Hl Hy]; subst.
    unfold JS.default_compare at 1.
    destruct (String.compare x y) eqn:Exy; simpl.
    + constructor; [auto|].
      eapply Permutation_Forall; [apply Permutation_sym, insert_Permutation|].
      constructor; [|assumption].
      rewrite String.compare_antisym, Exy. discriminate.
    + constructor; [assumption|]. constructor; [congruence|].
      eapply Forall_impl; [|exact Hy]. intros z Hz.
      apply (compare_not_Gt_trans x y z); congruence.
    + constructor; [auto|].
      eapply Permutation_Forall; [apply Permutation_sym, insert_Permutation|].
      constructor; [|assumption].
      rewrite String.compare_antisym, Exy. discriminate.
Qed.

Lemma sort_default_sorted (l : list string) :
  StronglySorted (fun a b => String.compare a b <> Gt)
                 (JS.sort JS.default_compare l).
Proof.
  unfold JS.sort.
  assert (H : forall l sorted,
             StronglySorted (fun a b => String.compare a b <> Gt) sorted ->
             StronglySorted (fun a b => String.compare a b <> Gt)
               (fold_left (fun sorted x => JS.insert JS.default_compare x sorted)
                          l sorted)).
  { clear. induction l as [|x l IH]; simpl; intros sorted H; [assumption|].
    apply IH. now apply insert_default_sorted. }
  apply H. constructor.
Qed.

Lemma sorted_strict (l : list string) :
  NoDup l -> StronglySorted (fun a b => String.compare a b <> Gt) l ->
  StronglySorted code_unit_lt l.
Proof.
  induction l as [|x l IH]; intros Hnd Hs; [constructor|].
  inversion Hnd as [|? ? Hnot Hnd']; subst.
  inversion Hs as [|? ? Hl Hx]; subst.
  constructor; [auto|].
  apply Forall_forall. intros y Hy. rewrite Forall_forall in Hx.
  specialize (Hx y Hy). unfold code_unit_lt.
  destruct (String.compare x y) eqn:Exy; [|reflexivity|congruence].
  apply String.compare_eq_iff in Exy. subst. contradiction.
Qed.

Lemma split_length (w c : string) : In c (JS.split w) -> String.length c = 1.
Proof.
  induction w as [|a w IH]; simpl; [contradiction|].
  intros [<-|H]; [reflexivity|auto].
Qed.

Lemma getUniqueCharSet_In (words : list string) (c : string) :
  In c (getUniqueCharSet words) <-> exists w, In w words /\ In c (JS.split w).
Proof.
  destruct words as [|w0 ws].
  - simpl. split; [contradiction|]. intros (w & [] & _).
  - unfold getUniqueCharSet. remember (w0 :: ws) as words.
    split.
    + intros H. apply (Permutation_in _ (sort_Permutation _ _)) in H.
      apply (proj1 (Set_of_In _ _)) in H. unfold JS.flat in H.
      apply (proj1 (in_concat _ _)) in H.
      destruct H as (chars & Hchars & Hc). apply in_map_iff in Hchars.
      destruct Hchars as (w & <- & Hw). eauto.
    + intros (w & Hw & Hc).
      apply (Permutation_in _ (Permutation_sym (sort_Permutation _ _))).
      apply Set_of_In. unfold JS.flat. apply in_concat.
      exists (JS.split w). split; [now apply in_map|assumption].
Qed.

(** X7: [getUniqueCharSet] returns the characters of the words: every
    character of a word, nothing else, each once, as strings of one code
    unit, in strictly ascending code unit order. *)
Theorem getUniqueCharSet_sorted_set (words : list string) :
  (forall c, In c (getUniqueCharSet words)
             <-> exists w, In w words /\ In c (JS.split w))
  /\ NoDup (getUniqueCharSet words)
  /\ StronglySorted code_unit_lt (getUniqueCharSet words)
  /\ (forall c, In c (getUniqueCharSet words) -> String.length c = 1).
Proof.
  assert (Hin : forall c, In c (getUniqueCharSet words)
                          <-> exists w, In w words /\ In c (JS.split w))
    by (intros c; apply getUniqueCharSet_In).
  assert (Hnd : NoDup (getUniqueCharSet words)).
  { destruct words as [|w0 ws]; [constructor|]. unfold getUniqueCharSet.
    eapply Permutation_NoDup; [apply Permutation_sym, sort_Permutation|].
    apply Set_of_NoDup. }
  split; [exact Hin|]. split; [exact Hnd|]. split.
  - apply sorted_strict; [exact Hnd|].
    destruct words as [|w0 ws]; [constructor|]. apply sort_default_sorted.
  - intros c Hc. apply Hin in Hc. destruct Hc as (w & _ & Hc).
    now apply split_length in Hc.
Qed.

Lemma partition_Permutation {A : Type} (f : A -> bool) (l : list A) :
  Permutation (List.filter f l ++ List.filter (fun x => negb (f x)) l) l.
Proof.
  induction l as [|x l IH]; simpl; [constructor|].
  destruct (f x); simpl.
  - now constructor.
  - eapply Permutation_trans; [apply Permutation_sym, Permutation_middle|].
    now constructor.
Qed.

Lemma entries_Permutation {V : Type} (o : JS.object V) :
  Permutation (JS.entries o) o.
Proof.
  unfold JS.entries.
  eapply Permutation_trans; [|apply (partition_Permutation JS.is_index)].
  apply Permutation_app_tail, sort_Permutation.
Qed.

Lemma group_word_nonempty (o : JS.object (list string)) (word : string) :
  (forall k g, JS.get o k = Some g -> g <> []) ->
  forall k g, JS.get (group_word o word) k = Some g -> g <> [].
Proof.
  intros H k g. unfold group_word.
  destruct (negb (JS.hasOwnProperty o (JS.charAt0 word))).
  - rewrite get_set. destruct (String.eqb (JS.charAt0 word) k); [|apply H].
    intros [= <-]. discriminate.
  - destruct (JS.get o (JS.charAt0 word)) as [g0|] eqn:Hg0; [|apply H].
    rewrite get_set. destruct (String.eqb (JS.charAt0 word) k); [|apply H].
    intros [= <-]. now destruct g0.
Qed.

Lemma reduce_nonempty (words : list string) (k : string) (g : list string) :
  JS.get (fold_left group_word words []) k = Some g -> g <> [].
Proof.
  assert (H : forall words o,
             (forall k g, JS.get o k = Some g -> g <> []) ->
             forall k g, JS.get (fold_left group_word words o) k = Some g -> g <> []).
  { clear. induction words as [|w words IH]; simpl; intros o Ho; [exact Ho|].
    apply IH. now apply group_word_nonempty. }
  apply H. discriminate.
Qed.

(** Every key of the object is the first character of a word. *)
Lemma reduce_key_word (words : list string) (k : string) :
  In k (map fst (fold_left group_word words [])) ->
  exists w, In w words /\ JS.charAt0 w = k.
Proof.
  intros Hk. apply in_map_iff in Hk. destruct Hk as ([k' g] & Hfst & Hin).
  simpl in Hfst. subst k'.
  destruct (reduce_groups words) as (Hnd & Hsound & _).
  pose proof (In_get _ _ _ Hnd Hin) as Hget.
  pose proof (reduce_nonempty words k g Hget) as Hne.
  rewrite (Hsound k g Hget) in Hne.
  destruct (group_of k words) as [|w ws] eqn:Hg; [congruence|].
  assert (Hw : In w (group_of k words)) by (rewrite Hg; now left).
  apply filter_In in Hw. destruct Hw as [Hw Hkey].
  exists w. split; [assumption|]. now apply String.eqb_eq.
Qed.

Lemma keys_Permutation (words : list string) :
  Permutation (JS.keys (fold_left group_word words []))
              (map fst (fold_left group_word words [])).
Proof. unfold JS.keys. apply Permutation_map, entries_Permutation. Qed.

Lemma charAt0_symbol (w : string) :
  JS.charAt0 w = "" \/ In (JS.charAt0 w) (JS.split w).
Proof. destruct w; simpl; auto. Qed.

Lemma substring1_symbol (w s : string) :
  In s (JS.split (JS.substring1 w)) -> In s (JS.split w).
Proof. destruct w; simpl; auto. Qed.

(** What the loop over the groups adds to [orderedChars]. *)
Lemma groups_loop_result (fuel : nat) (groups : list (list string))
      (init result : list (list string)) :
  foldM (fun orderedChars _words =>
           more <- getOrderedCharSet fuel (map JS.substring1 _words) ;;
           Return (orderedChars ++ more))
        groups init = Return result ->
  exists added,
    result = init ++ added
    /\ forall chain, In chain added ->
         exists g more, In g groups
                        /\ getOrderedCharSet fuel (map JS.substring1 g) = Return more
                        /\ In chain more.
Proof.
  revert init result. induction groups as [|g groups IH]; simpl; intros init result.
  - intros [= <-]. exists []. split; [now rewrite app_nil_r|contradiction].
  - destruct (getOrderedCharSet fuel (map JS.substring1 g)) as [more| |] eqn:Hg;
      simpl; try discriminate.
    intros H. apply IH in H. destruct H as (added & -> & Hadded).
    exists (more ++ added). split; [now rewrite app_assoc|].
    intros chain Hin. apply in_app_or in Hin. destruct Hin as [Hin|Hin].
    + exists g, more. auto.
    + destruct (Hadded chain Hin) as (g' & more' & Hg' & Hm & Hc).
      exists g', more'. auto.
Qed.

(** The elements of the chains, by induction on the call depth. *)
Lemma getOrderedCharSet_symbols (fuel : nat) (words : list string)
        (chains : list (list string)) :
  getOrderedCharSet fuel words = Return chains ->
  forall chain, In chain chains ->
    NoDup chain
    /\ forall s, In s chain -> s = "" \/ exists w, In w words /\ In s (JS.split w).
Proof.
  revert words chains. induction fuel as [|fuel IH]; intros words chains;
    [discriminate|].
  destruct (list_eq_dec string_dec words []) as [->|Hwords].
  { intros [= <-] chain []. }
  rewrite getOrderedCharSet_unfold by assumption. cbv zeta.
  match goal with
  | |- context [foldM ?f ?l ?s] => destruct (foldM f l s) as [result| |] eqn:Hloop
  end; simpl; try discriminate.
  intros [= <-] chain Hchain.
  apply filter_In in Hchain. destruct Hchain as [Hchain _].
  apply groups_loop_result in Hloop. destruct Hloop as (added & -> & Hadded).
  destruct Hchain as [<-|Hchain].
  - split.
    + eapply Permutation_NoDup; [apply Permutation_sym, keys_Permutation|].
      apply (reduce_groups words).
    + intros s Hs. apply (Permutation_in _ (keys_Permutation words)) in Hs.
      apply reduce_key_word in Hs. destruct Hs as (w & Hw & <-).
      destruct (charAt0_symbol w) as [He|Hc]; [now left|right; eauto].
  - destruct (Hadded chain Hchain) as (g & more & Hg & Hmore & Hin).
    apply filter_In in Hg. destruct Hg as [Hg _].
    apply values_group in Hg. destruct Hg as [k ->].
    destruct (IH _ _ Hmore chain Hin) as [Hnd Hsym].
    split; [exact Hnd|].
    intros s Hs. destruct (Hsym s Hs) as [He|(t & Ht & Hst)]; [now left|].
    right. apply in_map_iff in Ht. destruct Ht as (w & <- & Hw).
    apply filter_In in Hw. destruct Hw as [Hw _].
    exists w. split; [assumption|]. now apply substring1_symbol.
Qed.

(** X8: in every chain that [getOrderedCharSet] returns the elements are
    pairwise different, and every element is a character of an input
    word or the empty string. *)
Theorem getOrderedCharSet_chain_symbols (fuel : nat) (words : list string)
        (chains : list (list string)) :
  getOrderedCharSet fuel words = Return chains ->
  forall chain, In chain chains ->
    NoDup chain
    /\ forall s, In s chain -> s = "" \/ exists w, In w words /\ In s (JS.split w).
Proof. apply getOrderedCharSet_symbols. Qed.

Lemma getOrderedCharSet_chain_symbols_witness :
  NoDup ["b"; "a"; "d"].
Proof.
  apply (getOrderedCharSet_chain_symbols 2 sample_words
           [["b"; "a"; "d"]; ["a"; "c"]; ["d"; "c"]]).
  - vm_compute. reflexivity.
  - now left.
Defined.

Lemma hasOwnProperty_keys {V : Type} (o : JS.object V) (k : string) :
  JS.hasOwnProperty o k = JS.includes (map fst o) k.
Proof.
  unfold JS.hasOwnProperty, JS.includes.
  induction o as [|e o IH]; simpl; [reflexivity|]. now rewrite IH.
Qed.

Lemma group_word_keys (o : JS.object (list string)) (word : string) :
  map fst (group_word o word) = Set_add (map fst o) (JS.charAt0 word).
Proof.
  unfold group_word, Set_add. rewrite <- hasOwnProperty_keys.
  destruct (JS.hasOwnProperty o (JS.charAt0 word)) eqn:Hhas; simpl.
  - destruct (JS.get o (JS.charAt0 word)); [|reflexivity].
    now rewrite set_keys, Hhas.
  - now rewrite set_keys, Hhas.
Qed.

Lemma reduce_keys (words : list string) :
  map fst (fold_left group_word words []) = JS.Set_of (map JS.charAt0 words).
Proof.
  unfold JS.Set_of. change (fold_left _ (map JS.charAt0 words) [])
    with (fold_left Set_add (map JS.charAt0 words) (map fst (@nil (string * list string)))).
  generalize (@nil (string * list string)) as o. intros o. revert o.
  induction words as [|w words IH]; simpl; intros o; [reflexivity|].
  now rewrite IH, group_word_keys.
Qed.

Lemma filter_all {A : Type} (f : A -> bool) (l : list A) :
  (forall x, In x l -> f x = true) -> List.filter f l = l.
Proof.
  induction l as [|x l IH]; simpl; intros H; [reflexivity|].
  rewrite (H x) by now left. f_equal. apply IH. intros y Hy. apply H. now right.
Qed.

(** X9: when no word starts with a digit (or with a longer key that is an
    array index), the first chain that [getOrderedCharSet] returns is the
    list of the first characters of the words in order of first
    appearance, provided there are at least two of them. *)
Theorem getOrderedCharSet_first_chain (fuel : nat) (words : list string)
        (chains : list (list string)) :
  getOrderedCharSet fuel words = Return chains ->
  (forall w, In w words -> JS.array_index (JS.charAt0 w) = None) ->
  1 < length (JS.Set_of (map JS.charAt0 words)) ->
  exists rest, chains = JS.Set_of (map JS.charAt0 words) :: rest.
Proof.
  destruct fuel as [|fuel]; [discriminate|].
  destruct (list_eq_dec string_dec words []) as [->|Hwords].
  { simpl. intros _ _ H. lia. }
  rewrite getOrderedCharSet_unfold by assumption. cbv zeta.
  intros Hret Hkeys Hlen.
  assert (Hk : JS.keys (fold_left group_word words [])
               = JS.Set_of (map JS.charAt0 words)).
  { rewrite <- reduce_keys. unfold JS.keys, JS.entries.
    rewrite filter_none, filter_all; [reflexivity| |].
    - intros [k g] Hin. unfold JS.is_index. simpl.
      destruct (reduce_key_word words k) as (w & Hw & <-).
      { apply in_map_iff. now exists (k, g). }
      now rewrite (Hkeys w Hw).
    - intros [k g] Hin. unfold JS.is_index. simpl.
      destruct (reduce_key_word words k) as (w & Hw & <-).
      { apply in_map_iff. now exists (k, g). }
      now rewrite (Hkeys w Hw). }
  rewrite Hk in Hret.
  match type of Hret with
  | context [foldM ?f ?l ?s] => destruct (foldM f l s) as [result| |] eqn:Hloop
  end; simpl in Hret; try discriminate.
  injection Hret as <-.
  apply groups_loop_result in Hloop. destruct Hloop as (added & -> & _).
  simpl. unfold longer_than_1 at 1.
  apply Nat.ltb_lt in Hlen. rewrite Hlen. eauto.
Qed.

Lemma getOrderedCharSet_first_chain_witness :
  exists rest, [["b"; "a"; "d"]; ["a"; "c"]; ["d"; "c"]]
               = JS.Set_of (map JS.charAt0 sample_words) :: rest.
Proof.
  apply (getOrderedCharSet_first_chain 2 sample_words).
  - vm_compute. reflexivity.
  - intros w Hw. vm_compute in Hw.
    repeat (destruct Hw as [<-|Hw]; [reflexivity|]). contradiction.
  - vm_compute. lia.
Defined.

(** X10: on pairwise different words [getOrderedCharSet] returns within a
    call depth of the length of the longest word plus one. *)
Theorem getOrderedCharSet_depth (words : list string) :
  NoDup words ->
  exists chains,
    getOrderedCharSet (S (list_max (map String.length words))) words = Return chains.
Proof.
  intros Hnd.
  apply (getOrderedCharSet_returns _ (list_max (map String.length words)));
    [lia|assumption|].
  apply Forall_forall. intros w Hw.
  assert (Hmax : list_max (map String.length words)
                 <= list_max (map String.length words)) by lia.
  rewrite list_max_le, Forall_forall in Hmax. apply Hmax. now apply in_map.
Qed.

Lemma getOrderedCharSet_depth_witness :
  exists chains, getOrderedCharSet 4 sample_words = Return chains.
Proof.
  apply (getOrderedCharSet_depth sample_words).
  repeat constructor; simpl; intuition discriminate.
Defined.

Lemma ascending_last (front : list (list string)) (p : list string) :
  ascending (front ++ [p]) -> Forall (fun q => length q <= length p) (front ++ [p]).
Proof.
  unfold ascending. induction front as [|q front IH]; simpl; intros H.
  - repeat constructor.
  - inversion H as [|? ? Hs Hq]; subst. constructor; [|auto].
    rewrite Forall_forall in Hq. apply Hq. apply in_or_app. right. now left.
Qed.

Lemma pop_last {A : Type} (l : list A) (x : A) :
  JS.pop l = Some x -> exists front, l = front ++ [x].
Proof.
  unfold JS.pop. destruct (rev l) as [|y r] eqn:Hrev; [discriminate|].
  intros [= ->]. exists (rev r).
  rewrite <- (rev_involutive l), Hrev. reflexivity.
Qed.

(** X11: what [extractAlphabetChars] returns on a list of words is
    exactly the entry that [pop] takes from the paths of the graph built
    from the unique characters and the chains: undefined when there is no
    path, and otherwise the last of the paths, which is at least as long
    as every other. *)
Theorem extractAlphabetChars_longest_path (fuel : nat) (words : list string)
        (result : option (list string)) :
  words <> [] ->
  extractAlphabetChars fuel words = Return result ->
  exists chains paths,
    getOrderedCharSet fuel words = Return chains
    /\ DTG.getPaths fuel (graph_of (getUniqueCharSet words) chains) = Return paths
    /\ result = JS.pop paths
    /\ (paths = [] -> result = None)
    /\ (paths <> [] ->
        exists front p,
          paths = front ++ [p] /\ result = Some p
          /\ Forall (fun q => length q <= length p) paths).
Proof.
  intros Hwords. unfold extractAlphabetChars.
  destruct words as [|w0 ws]; [congruence|]. remember (w0 :: ws) as words.
  destruct (getOrderedCharSet fuel words) as [chains| |]; simpl; try discriminate.
  fold (graph_of (getUniqueCharSet words) chains).
  destruct (DTG.getPaths fuel (graph_of (getUniqueCharSet words) chains))
    as [paths| |] eqn:Hpaths; simpl; try discriminate.
  destruct (DTG.getLoopCount fuel _) as [count| |]; simpl; try discriminate.
  intros Hret.
  assert (Hres : result = JS.pop paths).
  { destruct (negb (DTG.isFullyConnected _)); simpl in Hret; [congruence|].
    destruct (JS.pop paths); simpl in Hret; congruence. }
  exists chains, paths. split; [reflexivity|]. split; [exact Hpaths|].
  split; [exact Hres|]. split.
  - intros ->. exact Hres.
  - intros Hsome. destruct (JS.pop paths) as [p|] eqn:Hpop.
    + destruct (pop_last paths p Hpop) as [front Hfront].
      exists front, p. split; [exact Hfront|]. split; [exact Hres|].
      rewrite Hfront. apply ascending_last. rewrite <- Hfront.
      exact (getPaths_ascending _ _ _ Hpaths).
    + exfalso. apply Hsome. unfold JS.pop in Hpop.
      destruct (rev paths) as [|q r] eqn:Hrev; [|discriminate].
      rewrite <- (rev_involutive paths), Hrev. reflexivity.
Qed.

Lemma extractAlphabetChars_longest_path_witness :
  exists chains paths,
    getOrderedCharSet 4 sample_words = Return chains
    /\ DTG.getPaths 4 (graph_of (getUniqueCharSet sample_words) chains) = Return paths
    /\ Some ["b"; "a"; "d"; "c"] = JS.pop paths
    /\ (paths = [] -> Some ["b"; "a"; "d"; "c"] = None)
    /\ (paths <> [] ->
        exists front p,
          paths = front ++ [p] /\ Some ["b"; "a"; "d"; "c"] = Some p
          /\ Forall (fun q => length q <= length p) paths).
Proof.
  apply (extractAlphabetChars_longest_path 4 sample_words).
  - discriminate.
  - vm_compute. reflexivity.
Defined.

Lemma consecutive_In {A : Type} (l : list A) (a b : A) :
  In (a, b) (consecutive l) -> In a l /\ In b l.
Proof.
  induction l as [|x l IH]; simpl; [contradiction|].
  destruct l as [|y l']; [contradiction|].
  intros [[= -> ->]|H].
  - split; [now left|right; now left].
  - destruct (IH H). split; now right.
Qed.

Lemma createEdge_other_node (dtg : DTG.t) (a b c : string) :
  c <> a -> c <> b -> DTG.Map_get (DTG.createEdge dtg a b) c = DTG.Map_get dtg c.
Proof.
  intros Ha Hb.
  destruct (createEdge_cases dtg a b) as [->|(Hne & Hva & Hvb & Hedge)];
    [reflexivity|].
  destruct (createEdge_accepted dtg a b Hne Hva Hvb Hedge) as (sn & en & _ & _ & ->).
  rewrite !Map_get_set.
  destruct (String.eqb_spec b c); [congruence|].
  destruct (String.eqb_spec a c); [congruence|reflexivity].
Qed.

Lemma createDaisyChainEdges_other_node (dtg : DTG.t) (vertices : list string)
      (c : string) :
  ~ In c vertices ->
  DTG.Map_get (DTG.createDaisyChainEdges dtg vertices) c = DTG.Map_get dtg c.
Proof.
  intros Hc. rewrite createDaisyChainEdges_pairs.
  assert (Hpairs : forall p, In p (consecutive vertices) -> c <> fst p /\ c <> snd p).
  { intros [a b] Hp. apply consecutive_In in Hp. simpl.
    split; intros ->; tauto. }
  revert dtg Hpairs. generalize (consecutive vertices) as pairs.
  induction pairs as [|p pairs IH]; simpl; intros dtg Hpairs; [reflexivity|].
  rewrite IH by (intros q Hq; apply Hpairs; now right).
  apply createEdge_other_node; apply Hpairs; now left.
Qed.

Lemma graph_of_run (vertices : list string) (chains : list (list string)) :
  graph_of vertices chains
  = run (AddVertices vertices :: map CreateDaisyChainEdges chains) DTG.new.
Proof.
  unfold graph_of, run. simpl.
  generalize (DTG.addVertices DTG.new vertices) as dtg.
  induction chains as [|chain chains IH]; simpl; intros dtg; [reflexivity|].
  apply IH.
Qed.

Lemma graph_of_unused (vertices : list string) (chains : list (list string))
      (c : string) :
  In c vertices -> (forall chain, In chain chains -> ~ In c chain) ->
  isolated (graph_of vertices chains) c.
Proof.
  intros Hc Hunused. exists (fresh_node c). split; [|split; reflexivity].
  unfold graph_of.
  assert (Hget : DTG.Map_get (DTG.addVertices DTG.new vertices) c
                 = Some (fresh_node c)) by now apply addVertices_absent.
  revert Hget Hunused. generalize (DTG.addVertices DTG.new vertices) as dtg.
  induction chains as [|chain chains IH]; simpl; intros dtg Hget Hunused;
    [assumption|].
  apply IH; [|intros ch Hch; apply Hunused; now right].
  rewrite createDaisyChainEdges_other_node; [assumption|].
  apply Hunused. now left.
Qed.

Lemma getOrderedCharSet_single (fuel : nat) (word : string) :
  getOrderedCharSet (S fuel) [word] = Return [].
Proof.
  rewrite getOrderedCharSet_unfold by discriminate. cbv zeta.
  assert (Hmap : fold_left group_word [word] [] = [(JS.charAt0 word, [word])])
    by reflexivity.
  rewrite Hmap. unfold JS.values, JS.keys, JS.entries. simpl.
  destruct (JS.is_index (JS.charAt0 word, [word])); reflexivity.
Qed.

(** X12: [extractAlphabetChars] does not return when a character of the
    words occurs in none of the chains: its vertex stays an isolated root
    and [getPaths] throws.  This is the case of every list of one word
    that is not empty. *)
Theorem extractAlphabetChars_unused_character :
  (forall fuel words chains c,
      getOrderedCharSet fuel words = Return chains ->
      In c (getUniqueCharSet words) ->
      (forall chain, In chain chains -> ~ In c chain) ->
      returns (extractAlphabetChars fuel words) = false)
  /\ (forall fuel word, word <> "" ->
        returns (extractAlphabetChars fuel [word]) = false).
Proof.
  assert (Hmain : forall fuel words chains c,
             getOrderedCharSet fuel words = Return chains ->
             In c (getUniqueCharSet words) ->
             (forall chain, In chain chains -> ~ In c chain) ->
             returns (extractAlphabetChars fuel words) = false).
  { intros fuel words chains c Hchains Hc Hunused.
    unfold extractAlphabetChars.
    destruct words as [|w0 ws]; [destruct Hc|]. remember (w0 :: ws) as words.
    rewrite Hchains. simpl.
    fold (graph_of (getUniqueCharSet words) chains).
    pose proof (graph_of_unused _ chains c Hc Hunused) as Hiso.
    assert (Hno : returns (DTG.getPaths fuel (graph_of (getUniqueCharSet words) chains))
                  = false).
    { rewrite graph_of_run in *.
      apply (getPaths_isolated _ c); [|apply run_named|assumption].
      apply run_unique_keys, new_unique_keys. }
    destruct (DTG.getPaths fuel _); simpl in *; congruence. }
  split; [exact Hmain|].
  intros fuel word Hword. destruct fuel as [|fuel]; [reflexivity|].
  apply (Hmain (S fuel) [word] [] (JS.charAt0 word)).
  - apply getOrderedCharSet_single.
  - apply getUniqueCharSet_In. exists word. split; [now left|].
    destruct word; [congruence|now left].
  - intros chain [].
Qed.

Lemma extractAlphabetChars_unused_character_witness :
  returns (extractAlphabetChars 3 ["ab"; "ac"]) = false
  /\ returns (extractAlphabetChars 3 ["xy"]) = false.
Proof.
  split.
  - apply (proj1 extractAlphabetChars_unused_character 3 ["ab"; "ac"] [["b"; "c"]] "a").
    + vm_compute. reflexivity.
    + vm_compute. now left.
    + intros chain [<-|[]] [H|[H|[]]]; discriminate.
  - apply (proj2 extractAlphabetChars_unused_character 3 "xy"). discriminate.
Defined.

End ExtractorProperties.

(** ** Further properties of the traversal *)

Section TraversalProperties.

Import DTG.

(** X13: on a graph built by the operations [getPaths] and [getLoopCount]
    end, also when the graph has cycles: with a call depth of the number
    of vertices plus two they return or throw. *)
Theorem getPaths_ends (ops : list operation) (fuel : nat) :
  length (run ops new) + 2 <= fuel ->
  getPaths fuel (run ops new) <> OutOfFuel
  /\ getLoopCount fuel (run ops new) <> OutOfFuel.
Proof.
  intros Hfuel.
  assert (H : getPaths fuel (run ops new) <> OutOfFuel).
  { apply getPaths_settled; [|apply run_closed|assumption].
    apply run_unique_keys, new_unique_keys. }
  split; [exact H|].
  unfold getLoopCount. destruct (getPaths fuel (run ops new)); simpl; congruence.
Qed.

Lemma getPaths_ends_witness :
  getPaths 4 cycle_graph <> OutOfFuel /\ getLoopCount 4 cycle_graph <> OutOfFuel.
Proof.
  apply (getPaths_ends
           [AddVertices ["a"; "b"]; CreateEdge "a" "b"; CreateEdge "b" "a"] 4).
  vm_compute. lia.
Defined.

(** X14: on a graph without a root [getPaths] returns no path and
    [getLoopCount] returns 0, so that a cycle through all the vertices is
    not counted as a loop; [isFullyConnected] is false. *)
Theorem rootless_graph_has_no_path (dtg : t) (fuel : nat) :
  unique_keys dtg ->
  (forall v, isRootVertex dtg v = false) ->
  getPaths fuel dtg = Return []
  /\ getLoopCount fuel dtg = Return 0
  /\ isFullyConnected dtg = false.
Proof.
  intros Hu Hnone.
  assert (H : getPaths fuel dtg = Return []) by now apply getPaths_no_root.
  split; [exact H|]. split.
  - unfold getLoopCount. now rewrite H.
  - destruct (isFullyConnected dtg) eqn:Hfc; [|reflexivity].
    apply (one_root_iff dtg Hu) in Hfc. destruct Hfc as (v & Hv & _).
    rewrite Hnone in Hv. discriminate.
Qed.

Lemma rootless_graph_has_no_path_witness :
  getPaths 0 cycle_graph = Return []
  /\ getLoopCount 0 cycle_graph = Return 0
  /\ isFullyConnected cycle_graph = false.
Proof.
  apply (rootless_graph_has_no_path cycle_graph 0).
  - apply run_unique_keys, new_unique_keys.
  - intros v. unfold isRootVertex.
    destruct (hasVertex cycle_graph v) eqn:Hv; [|reflexivity].
    apply hasVertex_get in Hv. destruct Hv as [n Hn]. rewrite Hn.
    apply Map_get_In in Hn. vm_compute in Hn.
    destruct Hn as [[= <- <-]|[[= <- <-]|[]]]; reflexivity.
Defined.

Lemma update_Forall {A : Type} (P : A -> Prop) (i : nat) (f : A -> A) (l : list A) :
  (forall x, P x -> P (f x)) -> Forall P l -> Forall P (update i f l).
Proof.
  intros Hf. revert i. induction l as [|x l IH]; intros [|i] H; simpl;
    inversion H; subst; constructor; auto.
Qed.

Lemma rooted_push (dtg : t) (a : list string) (e : string) :
  rooted dtg a -> hasVertex dtg e = true -> rooted dtg (a ++ [e]).
Proof.
  intros [(v & rest & -> & Hv) Hall] He. split.
  - exists v, (rest ++ [e]). auto.
  - apply Forall_app. split; [assumption|]. now constructor.
Qed.

Lemma store_rooted_push (dtg : t) (st : store) (r : ref) (e : string) :
  store_rooted dtg st -> hasVertex dtg e = true -> store_rooted dtg (push r e st).
Proof.
  intros [Hheap Hpaths] He. split; simpl.
  - apply update_Forall; [|assumption]. intros a Ha. now apply rooted_push.
  - now rewrite update_length.
Qed.

Lemma store_rooted_collect (dtg : t) (st : store) (r : ref) :
  store_rooted dtg st -> r < length (heap st) -> store_rooted dtg (collect r st).
Proof.
  intros [Hheap Hpaths] Hr. split; simpl; [assumption|].
  apply Forall_app. split; [assumption|]. now constructor.
Qed.

Lemma store_rooted_alloc (dtg : t) (st : store) (a : list string) :
  store_rooted dtg st -> rooted dtg a -> store_rooted dtg (snd (alloc a st)).
Proof.
  intros [Hheap Hpaths] Ha. split; simpl.
  - apply Forall_app. split; [assumption|]. now constructor.
  - rewrite length_app. simpl. eapply Forall_impl; [|exact Hpaths].
    simpl. intros; lia.
Qed.

Lemma deref_rooted (dtg : t) (st : store) (r : ref) :
  store_rooted dtg st -> r < length (heap st) -> rooted dtg (deref st r).
Proof.
  intros [Hheap _] Hr. rewrite Forall_forall in Hheap. apply Hheap.
  unfold deref. now apply nth_In.
Qed.

Lemma traverse_rooted (dtg : t) (fuel : nat) :
  closed dtg ->
  forall k r st st',
    store_rooted dtg st -> r < length (heap st) ->
    _traverse fuel dtg (Map_get dtg k) r st = Return st' ->
    store_rooted dtg st'.
Proof.
  intros Hclosed. induction fuel as [|fuel IH]; intros k r st st' Hst Hr;
    [discriminate|].
  destruct (Map_get dtg k) as [node|] eqn:Hget; [|discriminate].
  rewrite traverse_unfold.
  destruct (isLeafVertex dtg (vertexStart node)).
  { intros [= <-]. now apply store_rooted_collect. }
  destruct (isBranchVertex dtg (vertexStart node)).
  { assert (Hends : forall e, In e (vertexEnds node) -> hasVertex dtg e = true).
    { intros e He. exact (Hclosed k node e Hget He). }
    revert Hends. generalize (vertexEnds node) as ends. intros ends. revert st Hst Hr.
    induction ends as [|e ends IHends]; simpl; intros st Hst Hr Hends.
    - now intros [= <-].
    - assert (He : hasVertex dtg e = true) by (apply Hends; now left).
      destruct (JS.includes (deref st r) e).
      + simpl. apply IHends.
        * apply store_rooted_collect; [now apply store_rooted_push|].
          now rewrite heap_push.
        * simpl. now rewrite update_length.
        * intros e' He'. apply Hends. now right.
      + set (st1 := {| heap := heap st ++ [deref st r ++ [e]]; paths := paths st |}).
        assert (Hst1 : st1 = snd (alloc (deref st r ++ [e]) st)) by reflexivity.
        destruct (_traverse fuel dtg (Map_get dtg e) (length (heap st)) st1)
          as [st2| |] eqn:Hsub; simpl; try discriminate.
        pose proof (traverse_frame _ _ _ _ _ _ Hsub) as [Hlen _].
        rewrite Hst1, heap_alloc in Hlen.
        apply IHends.
        * apply (IH e (length (heap st)) st1); [| |exact Hsub].
          -- rewrite Hst1. apply store_rooted_alloc; [assumption|].
             apply rooted_push; [now apply deref_rooted|assumption].
          -- rewrite Hst1, heap_alloc. lia.
        * lia.
        * intros e' He'. apply Hends. now right. }
  destruct (vertexEnds node) as [|e ends] eqn:Hends.
  { destruct fuel; discriminate. }
  destruct (JS.includes (deref st r) e).
  { intros [= <-].
    apply store_rooted_collect; [|now rewrite heap_push].
    apply store_rooted_push; [assumption|].
    apply (Hclosed k node e Hget). rewrite Hends. now left. }
  apply IH.
  - apply store_rooted_push; [assumption|].
    apply (Hclosed k node e Hget). rewrite Hends. now left.
  - now rewrite heap_push.
Qed.

Lemma roots_loop_rooted (dtg : t) (fuel : nat) :
  unique_keys dtg -> named dtg -> closed dtg ->
  forall entries st st',
    incl entries dtg -> store_rooted dtg st ->
    foldM (fun st e =>
             let node := snd e in
             if isRoot node then
               let rootNode := node in
               let '(visitedVertices, st') := alloc [vertexStart rootNode] st in
               _traverse fuel dtg (Some rootNode) visitedVertices st'
             else Return st)
          entries st = Return st' ->
    store_rooted dtg st'.
Proof.
  intros Hu Hnamed Hclosed.
  induction entries as [|[k n] entries IH]; simpl; intros st st' Hincl Hst.
  - now intros [= <-].
  - assert (Hget : Map_get dtg k = Some n).
    { apply In_Map_get; [assumption|]. apply Hincl. now left. }
    assert (Hrest : incl entries dtg) by (intros x Hx; apply Hincl; now right).
    destruct (isRoot n) eqn:Hroot; simpl; [|now apply IH].
    destruct (_traverse fuel dtg (Some n) (length (heap st))
                        {| heap := heap st ++ [[vertexStart n]]; paths := paths st |})
      as [st1| |] eqn:Hsub; simpl; try discriminate.
    apply IH; [assumption|].
    rewrite <- Hget in Hsub.
    apply (traverse_rooted dtg fuel Hclosed k _ _ _) in Hsub; [assumption| |].
    + apply (store_rooted_alloc dtg st [vertexStart n]); [assumption|].
      rewrite (Hnamed k n Hget). split.
      * exists k, []. split; [reflexivity|].
        now rewrite (isRootVertex_node _ _ _ Hget).
      * constructor; [|constructor]. apply hasVertex_get. eauto.
    + simpl. rewrite length_app. simpl. lia.
Qed.

(** X15: on a graph built by the operations every path that [getPaths]
    returns starts at a root vertex and runs over vertices of the graph
    only. *)
Theorem getPaths_rooted (ops : list operation) (fuel : nat)
        (paths : list (list string)) :
  getPaths fuel (run ops new) = Return paths ->
  forall p, In p paths ->
    (exists v rest, p = v :: rest /\ isRootVertex (run ops new) v = true)
    /\ Forall (fun x => hasVertex (run ops new) x = true) p.
Proof.
  unfold getPaths.
  destruct (negb (Nat.eqb (Map_size (run ops new)) 0)); [|intros [= <-] p []].
  match goal with
  | |- context [foldM ?f ?l ?s] => destruct (foldM f l s) as [st| |] eqn:Hloop
  end; simpl; try discriminate.
  intros [= <-] p Hp.
  apply (Permutation_in _ (sort_Permutation _ _)) in Hp.
  apply in_map_iff in Hp. destruct Hp as (r & <- & Hr).
  assert (Hst : store_rooted (run ops new) st).
  { apply (roots_loop_rooted (run ops new) fuel) with (entries := run ops new)
                                                     (st := empty_store).
    - apply run_unique_keys, new_unique_keys.
    - apply run_named.
    - apply run_closed.
    - apply incl_refl.
    - split; constructor.
    - exact Hloop. }
  apply (deref_rooted _ _ _ Hst).
  destruct Hst as [_ Hpaths]. rewrite Forall_forall in Hpaths. now apply Hpaths.
Qed.

Lemma getPaths_rooted_witness :
  (exists v rest, ["a"; "b"; "c"; "d"; "b"] = v :: rest
                  /\ isRootVertex chain_loop_graph v = true)
  /\ Forall (fun x => hasVertex chain_loop_graph x = true) ["a"; "b"; "c"; "d"; "b"].
Proof.
  apply (getPaths_rooted
           [AddVertices ["a"; "b"; "c"; "d"];
            CreateDaisyChainEdges ["a"; "b"; "c"; "d"];
            CreateEdge "d" "b"] 4 [["a"; "b"; "c"; "d"; "b"]]).
  - vm_compute. reflexivity.
  - now left.
Defined.

Lemma consecutive_snoc {A : Type} (front : list A) (k e : A) :
  consecutive ((front ++ [k]) ++ [e]) = consecutive (front ++ [k]) ++ [(k, e)].
Proof.
  induction front as [|x front IH]; [reflexivity|].
  simpl app. simpl consecutive.
  destruct (front ++ [k]) as [|y l] eqn:Hl.
  - destruct front; discriminate.
  - simpl app. simpl app in IH. rewrite IH. reflexivity.
Qed.

Lemma walk_to_last (dtg : t) (k : string) (n : node) :
  Map_get dtg k = Some n -> vertexEnds n = [] ->
  forall l x front,
    x :: l = front ++ [k] ->
    Forall (fun p => hasEdge dtg (fst p) (snd p) = true) (consecutive (x :: l)) ->
    walk_to_end dtg x (x :: l).
Proof.
  intros Hget Hends. induction l as [|y l IH]; intros x front Hlast Hedges.
  - destruct front as [|z [|z' front]]; try discriminate.
    injection Hlast as ->. now apply (walk_end dtg k n).
  - destruct front as [|z front]; [discriminate|].
    injection Hlast as Hz Hlast. subst z.
    simpl in Hedges. inversion Hedges as [|? ? Hxy Hrest]; subst.
    apply (walk_edge dtg x y); [exact Hxy|]. now apply (IH y front).
Qed.

Lemma tracked_leaf (dtg : t) (a : list string) (k : string) (n : node) :
  tracked dtg a k -> Map_get dtg k = Some n -> vertexEnds n = [] ->
  finished dtg a.
Proof.
  intros Ht Hget Hends Hnd.
  destruct (Ht Hnd) as ([front Hfront] & (v & rest & -> & Hv) & Hedges).
  exists v. split; [assumption|].
  now apply (walk_to_last dtg k n Hget Hends rest v front).
Qed.

Lemma tracked_step (dtg : t) (a : list string) (k e : string) (n : node) :
  tracked dtg a k -> Map_get dtg k = Some n -> In e (vertexEnds n) ->
  hasVertex dtg e = true ->
  tracked dtg (a ++ [e]) e.
Proof.
  intros Ht Hget He Hv Hnd.
  assert (Hnda : NoDup a) by (apply NoDup_app_remove_r in Hnd; exact Hnd).
  destruct (Ht Hnda) as ([front ->] & (v & rest & Heq & Hroot) & Hedges).
  split; [eauto|]. split.
  - exists v, (rest ++ [e]). split; [|assumption]. now rewrite Heq.
  - rewrite consecutive_snoc. apply Forall_app. split; [assumption|].
    constructor; [|constructor]. simpl. apply hasEdge_get. eauto.
Qed.

Lemma NoDup_app_remove_last (a : list string) (e : string) :
  NoDup (a ++ [e]) -> NoDup a.
Proof. intros H. now apply NoDup_app_remove_r in H. Qed.

Lemma push_finished (dtg : t) (st : store) (r : ref) (e : string) :
  store_finished dtg st ->
  (In r (paths st) -> ~ NoDup (deref st r)) ->
  store_finished dtg (push r e st).
Proof.
  unfold store_finished. intros Hst Hr. rewrite Forall_forall in *.
  intros r' Hr'. simpl in Hr'. destruct (Hst r' Hr') as [Hlen Hfin].
  rewrite heap_push. split; [assumption|].
  destruct (Nat.eq_dec r r') as [<-|Hne].
  - rewrite deref_push_same by assumption.
    intros Hnd. exfalso. apply (Hr Hr'). now apply NoDup_app_remove_last in Hnd.
  - now rewrite deref_push_other.
Qed.

Lemma collect_finished (dtg : t) (st : store) (r : ref) :
  store_finished dtg st -> r < length (heap st) -> finished dtg (deref st r) ->
  store_finished dtg (collect r st).
Proof.
  unfold store_finished. intros Hst Hr Hfin. simpl.
  apply Forall_app. split; [exact Hst|]. constructor; [|constructor]. auto.
Qed.

Lemma alloc_finished (dtg : t) (st : store) (a : list string) :
  store_finished dtg st -> store_finished dtg (snd (alloc a st)).
Proof.
  unfold store_finished. intros Hst. rewrite Forall_forall in *.
  intros r Hr. simpl in Hr. destruct (Hst r Hr) as [Hlen Hfin].
  rewrite heap_alloc, deref_alloc_old by assumption. split; [lia|assumption].
Qed.

Lemma duplicate_kept (a : list string) (e : string) :
  ~ NoDup a -> ~ NoDup (a ++ [e]).
Proof. intros H Hnd. apply H. now apply NoDup_app_remove_last in Hnd. Qed.

Lemma includes_duplicate (a : list string) (e : string) :
  JS.includes a e = true -> ~ NoDup (a ++ [e]).
Proof.
  intros Hinc Hnd. apply includes_In in Hinc.
  apply NoDup_remove_2 in Hnd. rewrite app_nil_r in Hnd. contradiction.
Qed.

(** The references that a traversal collects are its own array or
    arrays that it has made. *)
Lemma traverse_collected (dtg : t) (fuel : nat) :
  forall startingNode r st st',
    _traverse fuel dtg startingNode r st = Return st' ->
    forall r', In r' (paths st') ->
               In r' (paths st) \/ r' = r \/ length (heap st) <= r'.
Proof.
  induction fuel as [|fuel IH]; intros startingNode r st st'; [discriminate|].
  destruct startingNode as [node|]; [|discriminate].
  rewrite traverse_unfold.
  destruct (isLeafVertex dtg (vertexStart node)).
  { intros [= <-] r' Hr'. simpl in Hr'. apply in_app_or in Hr'.
    destruct Hr' as [H|[<-|[]]]; auto. }
  destruct (isBranchVertex dtg (vertexStart node)).
  { generalize (vertexEnds node) as ends. intros ends. revert st.
    induction ends as [|e ends IHends]; simpl; intros st.
    - intros [= <-] r' Hr'. auto.
    - destruct (JS.includes (deref st r) e).
      + simpl. intros H r' Hr'. destruct (IHends _ H r' Hr') as [Hin|[Heq|Hge]].
        * simpl in Hin. apply in_app_or in Hin. destruct Hin as [Hin|[<-|[]]]; auto.
        * auto.
        * simpl in Hge. rewrite update_length in Hge. auto.
      + destruct (_traverse fuel dtg (Map_get dtg e) (length (heap st))
                            {| heap := heap st ++ [deref st r ++ [e]];
                               paths := paths st |}) as [st1| |] eqn:Hsub;
          simpl; try discriminate.
        intros H r' Hr'.
        pose proof (traverse_frame _ _ _ _ _ _ Hsub) as [Hlen _].
        simpl in Hlen. rewrite length_app in Hlen. simpl in Hlen.
        destruct (IHends _ H r' Hr') as [Hin|[Heq|Hge]]; [|auto|right; right; lia].
        destruct (IH _ _ _ _ Hsub r' Hin) as [Hin'|[Heq|Hge]].
        * simpl in Hin'. auto.
        * right. right. lia.
        * simpl in Hge. rewrite length_app in Hge. right. right. lia. }
  destruct (vertexEnds node) as [|e ends].
  { intros H. destruct fuel; discriminate. }
  destruct (JS.includes (deref st r) e).
  { intros [= <-] r' Hr'. simpl in Hr'. apply in_app_or in Hr'.
    destruct Hr' as [H|[<-|[]]]; auto. }
  intros H r' Hr'. destruct (IH _ _ _ _ H r' Hr') as [Hin|[Heq|Hge]]; auto.
  rewrite heap_push in Hge. auto.
Qed.

Lemma traverse_finished (dtg : t) (fuel : nat) :
  closed dtg -> named dtg ->
  forall k node r st st',
    Map_get dtg k = Some node ->
    r < length (heap st) ->
    (In r (paths st) -> ~ NoDup (deref st r)) ->
    tracked dtg (deref st r) k ->
    store_finished dtg st ->
    _traverse fuel dtg (Some node) r st = Return st' ->
    store_finished dtg st'.
Proof.
  intros Hclosed Hnamed.
  induction fuel as [|fuel IH]; intros k node r st st' Hget Hr Hdup Htrack Hst;
    [discriminate|].
  rewrite traverse_unfold, (Hnamed k node Hget).
  rewrite (isLeafVertex_node _ _ _ Hget), (isBranchVertex_node _ _ _ Hget).
  assert (Hvert : forall e, In e (vertexEnds node) -> hasVertex dtg e = true).
  { intros e He. exact (Hclosed k node e Hget He). }
  destruct (negb (isRoot node) && Nat.eqb (length (vertexEnds node)) 0) eqn:Hleaf.
  { intros [= <-]. apply collect_finished; [assumption|assumption|].
    apply andb_true_iff in Hleaf. destruct Hleaf as [_ Hlen].
    apply Nat.eqb_eq in Hlen.
    apply (tracked_leaf dtg _ k node Htrack Hget).
    now destruct (vertexEnds node). }
  destruct (negb (isRoot node) && Nat.ltb 1 (length (vertexEnds node))).
  { assert (Hsub : incl (vertexEnds node) (vertexEnds node)) by apply incl_refl.
    revert Hsub. generalize (vertexEnds node) at 1 3 as ends. intros ends.
    revert st Hr Hdup Htrack Hst.
    induction ends as [|e ends IHends]; simpl; intros st Hr Hdup Htrack Hst Hsub.
    - now intros [= <-].
    - assert (He : In e (vertexEnds node)) by (apply Hsub; now left).
      assert (Hrest : incl ends (vertexEnds node))
        by (intros x Hx; apply Hsub; now right).
      destruct (JS.includes (deref st r) e) eqn:Hinc.
      + simpl. apply IHends; [| | | |assumption].
        * simpl. now rewrite update_length.
        * intros _. change (deref (collect r (push r e st)) r)
            with (deref (push r e st) r).
          rewrite deref_push_same by assumption. now apply includes_duplicate.
        * change (deref (collect r (push r e st)) r) with (deref (push r e st) r).
          rewrite deref_push_same by assumption.
          intros Hnd. exfalso. now apply (includes_duplicate _ _ Hinc).
        * apply collect_finished.
          -- now apply push_finished.
          -- now rewrite heap_push.
          -- rewrite deref_push_same by assumption.
             intros Hnd. exfalso. now apply (includes_duplicate _ _ Hinc).
      + set (st1 := {| heap := heap st ++ [deref st r ++ [e]]; paths := paths st |}).
        assert (Hst1 : st1 = snd (alloc (deref st r ++ [e]) st)) by reflexivity.
        assert (Hcopy : deref st1 (length (heap st)) = deref st r ++ [e]).
        { rewrite Hst1.
          change (length (heap st)) with (fst (alloc (deref st r ++ [e]) st)).
          apply deref_alloc_new. }
        assert (Hpaths : forall r', In r' (paths st) -> r' < length (heap st)).
        { intros r' Hr'. unfold store_finished in Hst. rewrite Forall_forall in Hst.
          now apply Hst. }
        pose proof (Hvert e He) as Hve. apply hasVertex_get in Hve.
        destruct Hve as [ne Hne]. rewrite Hne.
        destruct (_traverse fuel dtg (Some ne) (length (heap st)) st1)
          as [st2| |] eqn:Hsubcall; simpl; try discriminate.
        pose proof (traverse_frame _ _ _ _ _ _ Hsubcall) as [Hlen Hsame].
        rewrite Hst1, heap_alloc in Hlen, Hsame.
        assert (Hr2 : deref st2 r = deref st r).
        { rewrite Hsame by lia. now apply deref_alloc_old. }
        apply IHends; [lia| | | |assumption].
        * intros Hin. rewrite Hr2. apply Hdup.
          destruct (traverse_collected _ _ _ _ _ _ Hsubcall r Hin) as [H|[H|H]].
          -- exact H.
          -- lia.
          -- rewrite Hst1, heap_alloc in H. lia.
        * now rewrite Hr2.
        * apply (IH e ne (length (heap st)) st1); [assumption| | | | |exact Hsubcall].
          -- rewrite Hst1, heap_alloc. lia.
          -- intros Hin. apply Hpaths in Hin. lia.
          -- rewrite Hcopy. apply (tracked_step dtg _ k e node); auto.
          -- rewrite Hst1. now apply alloc_finished. }
  destruct (vertexEnds node) as [|e ends] eqn:Hends.
  { destruct fuel; discriminate. }
  assert (He : In e (vertexEnds node)) by (rewrite Hends; now left).
  destruct (JS.includes (deref st r) e) eqn:Hinc.
  { intros [= <-]. apply collect_finished.
    - now apply push_finished.
    - now rewrite heap_push.
    - rewrite deref_push_same by assumption.
      intros Hnd. exfalso. now apply (includes_duplicate _ _ Hinc). }
  pose proof (Hclosed k node e Hget He) as Hve.
  pose proof Hve as Hve'. apply hasVertex_get in Hve'.
  destruct Hve' as [ne Hne]. rewrite Hne.
  apply (IH e ne).
  - assumption.
  - now rewrite heap_push.
  - intros Hin. rewrite deref_push_same by assumption.
    apply duplicate_kept. now apply Hdup.
  - rewrite deref_push_same by assumption.
    apply (tracked_step dtg _ k e node); auto.
  - now apply push_finished.
Qed.

Lemma roots_loop_finished (dtg : t) (fuel : nat) :
  unique_keys dtg -> named dtg -> closed dtg ->
  forall entries st st',
    incl entries dtg -> store_finished dtg st ->
    foldM (fun st e =>
             let node := snd e in
             if isRoot node then
               let rootNode := node in
               let '(visitedVertices, st') := alloc [vertexStart rootNode] st in
               _traverse fuel dtg (Some rootNode) visitedVertices st'
             else Return st)
          entries st = Return st' ->
    store_finished dtg st'.
Proof.
  intros Hu Hnamed Hclosed.
  induction entries as [|[k n] entries IH]; simpl; intros st st' Hincl Hst.
  - now intros [= <-].
  - assert (Hget : Map_get dtg k = Some n).
    { apply In_Map_get; [assumption|]. apply Hincl. now left. }
    assert (Hrest : incl entries dtg) by (intros x Hx; apply Hincl; now right).
    destruct (isRoot n) eqn:Hroot; simpl; [|now apply IH].
    set (st1 := {| heap := heap st ++ [[vertexStart n]]; paths := paths st |}).
    assert (Hst1 : st1 = snd (alloc [vertexStart n] st)) by reflexivity.
    destruct (_traverse fuel dtg (Some n) (length (heap st)) st1)
      as [st2| |] eqn:Hsub; simpl; try discriminate.
    apply IH; [assumption|].
    assert (Hcopy : deref st1 (length (heap st)) = [k]).
    { rewrite Hst1, <- (Hnamed k n Hget).
      change (length (heap st)) with (fst (alloc [vertexStart n] st)).
      apply deref_alloc_new. }
    apply (traverse_finished dtg fuel Hclosed Hnamed k n (length (heap st)) st1);
      [assumption| | | | |exact Hsub].
    + rewrite Hst1, heap_alloc. lia.
    + intros Hin. unfold store_finished in Hst. rewrite Forall_forall in Hst.
      apply Hst in Hin. lia.
    + rewrite Hcopy. intros _. split; [now exists []|]. split.
      * exists k, []. split; [reflexivity|].
        now rewrite (isRootVertex_node _ _ _ Hget).
      * constructor.
    + rewrite Hst1. now apply alloc_finished.
Qed.

(** X16: on a graph built by the operations every path that [getPaths]
    returns and in which no vertex occurs twice is a path along edges
    from a root to a vertex without outgoing edges. *)
Theorem getPaths_sound (ops : list operation) (fuel : nat)
        (paths : list (list string)) :
  getPaths fuel (run ops new) = Return paths ->
  forall p, In p paths -> NoDup p -> root_to_terminal (run ops new) p.
Proof.
  unfold getPaths.
  destruct (negb (Nat.eqb (Map_size (run ops new)) 0)); [|intros [= <-] p []].
  match goal with
  | |- context [foldM ?f ?l ?s] => destruct (foldM f l s) as [st| |] eqn:Hloop
  end; simpl; try discriminate.
  intros [= <-] p Hp.
  apply (Permutation_in _ (sort_Permutation _ _)) in Hp.
  apply in_map_iff in Hp. destruct Hp as (r & <- & Hr).
  assert (Hst : store_finished (run ops new) st).
  { apply (roots_loop_finished (run ops new) fuel) with (entries := run ops new)
                                                       (st := empty_store).
    - apply run_unique_keys, new_unique_keys.
    - apply run_named.
    - apply run_closed.
    - apply incl_refl.
    - constructor.
    - exact Hloop. }
  unfold store_finished in Hst. rewrite Forall_forall in Hst.
  now apply Hst.
Qed.

Lemma getPaths_sound_witness :
  root_to_terminal twelve_graph ["a"; "b"; "c"; "d"; "x"; "z"].
Proof.
  apply (getPaths_sound
           [AddVertices ["a"; "b"; "c"; "d"; "e"; "f"; "g"; "h"; "i"; "x"; "y"; "z"];
            CreateDaisyChainEdges ["a"; "b"; "e"; "f"];
            CreateEdge "d" "g";
            CreateEdge "d" "x";
            CreateEdge "x" "y";
            CreateEdge "x" "z";
            CreateDaisyChainEdges ["b"; "c"; "d"; "e"];
            CreateEdge "f" "g";
            CreateEdge "h" "i"] 7 twelve_paths).
  - vm_compute. reflexivity.
  - unfold twelve_paths. simpl. tauto.
  - repeat constructor; simpl; intuition discriminate.
Defined.

End TraversalProperties.

(** ** A chain of different vertices *)

Section ChainProperties.

Import DTG.

Lemma consecutive_split {A : Type} (l : list A) (a b : A) :
  In (a, b) (consecutive l) <-> exists l1 l2, l = l1 ++ a :: b :: l2.
Proof.
  induction l as [|x l IH]; simpl.
  - split; [contradiction|]. intros (l1 & l2 & H). destruct l1; discriminate.
  - destruct l as [|y l'].
    + split; [contradiction|]. intros (l1 & l2 & H).
      destruct l1 as [|z [|z' l1]]; discriminate.
    + split.
      * intros [[= -> ->]|H].
        -- exists [], l'. reflexivity.
        -- apply IH in H. destruct H as (l1 & l2 & ->).
           exists (x :: l1), l2. reflexivity.
      * intros (l1 & l2 & H). destruct l1 as [|z l1].
        -- injection H as -> -> _. now left.
        -- injection H as -> H. right. apply IH. eauto.
Qed.

Lemma NoDup_split_unique (l1 l2 r1 r2 : list string) (x : string) :
  NoDup (l1 ++ x :: r1) -> l1 ++ x :: r1 = l2 ++ x :: r2 -> l1 = l2 /\ r1 = r2.
Proof.
  revert l2. induction l1 as [|a l1 IH]; intros l2 Hnd Heq.
  - destruct l2 as [|b l2].
    + injection Heq as ->. auto.
    + injection Heq as -> Heq. exfalso.
      inversion Hnd as [|? ? Hnot _]; subst. apply Hnot.
      apply in_or_app. right. now left.
  - destruct l2 as [|b l2].
    + injection Heq as -> Heq. exfalso.
      inversion Hnd as [|? ? Hnot _]; subst. apply Hnot.
      apply in_or_app. right. now left.
    + injection Heq as -> Heq. inversion Hnd; subst.
      destruct (IH l2) as [-> ->]; auto.
Qed.

Lemma consecutive_next (pre suf : list string) (x y : string) :
  NoDup (pre ++ x :: suf) ->
  (In (x, y) (consecutive (pre ++ x :: suf)) <-> exists suf', suf = y :: suf').
Proof.
  intros Hnd. rewrite consecutive_split. split.
  - intros (l1 & l2 & Heq).
    destruct (NoDup_split_unique pre l1 suf (y :: l2) x Hnd Heq) as [_ ->]. eauto.
  - intros [suf' ->]. eauto.
Qed.

Lemma consecutive_previous (pre suf : list string) (x : string) :
  NoDup (pre ++ x :: suf) ->
  ((exists u, In (u, x) (consecutive (pre ++ x :: suf))) <-> pre <> []).
Proof.
  intros Hnd. split.
  - intros (u & Hu). apply consecutive_split in Hu. destruct Hu as (l1 & l2 & Heq).
    replace (l1 ++ u :: x :: l2) with ((l1 ++ [u]) ++ x :: l2) in Heq
      by now rewrite <- app_assoc.
    destruct (NoDup_split_unique pre (l1 ++ [u]) suf l2 x Hnd Heq) as [-> _].
    now destruct l1.
  - intros Hpre. destruct (exists_last Hpre) as (pre' & u & ->).
    exists u. apply consecutive_split. exists pre', suf.
    now rewrite <- app_assoc.
Qed.

Lemma consecutive_different (l : list string) (a b : string) :
  NoDup l -> In (a, b) (consecutive l) -> a <> b.
Proof.
  intros Hnd Hin. apply consecutive_split in Hin. destruct Hin as (l1 & l2 & ->).
  apply NoDup_remove_2 in Hnd. intros ->. apply Hnd.
  apply in_or_app. right. now left.
Qed.

Lemma createEdge_hasEdge (dtg : t) (a b x y : string) :
  a <> b -> hasVertex dtg a = true -> hasVertex dtg b = true ->
  hasEdge (createEdge dtg a b) x y
  = hasEdge dtg x y || (String.eqb x a && String.eqb y b).
Proof.
  intros Hne Ha Hb. destruct (hasEdge dtg a b) eqn:Hedge.
  - rewrite createEdge_rejected by auto.
    destruct (String.eqb_spec x a) as [->|]; [|now rewrite orb_false_r].
    destruct (String.eqb_spec y b) as [->|]; [|now rewrite orb_false_r].
    now rewrite Hedge.
  - now apply createEdge_effect.
Qed.

Lemma edges_loop_hasEdge (pairs : list (string * string)) (dtg : t) (x y : string) :
  (forall p, In p pairs ->
             fst p <> snd p /\ hasVertex dtg (fst p) = true
             /\ hasVertex dtg (snd p) = true) ->
  (hasEdge (fold_left (fun g p => createEdge g (fst p) (snd p)) pairs dtg) x y = true
   <-> hasEdge dtg x y = true \/ In (x, y) pairs).
Proof.
  revert dtg. induction pairs as [|[a b] pairs IH]; simpl; intros dtg Hvalid; [tauto|].
  destruct (Hvalid (a, b)) as (Hne & Ha & Hb); [now left|]. simpl in *.
  rewrite IH.
  - rewrite createEdge_hasEdge by assumption.
    rewrite orb_true_iff, andb_true_iff, !String.eqb_eq. split.
    + intros [[H|[-> ->]]|H]; auto.
    + intros [H|[[= -> ->]|H]]; auto.
  - intros p Hp. destruct (Hvalid p) as (H1 & H2 & H3); [now right|].
    rewrite !(hasVertex_keys _ _ (createEdge_keys dtg a b)). auto.
Qed.

Lemma Set_of_distinct (l : list string) : NoDup l -> JS.Set_of l = l.
Proof.
  intros Hnd. unfold JS.Set_of.
  change (fold_left Set_add l [] = [] ++ l).
  assert (H : forall l seen, NoDup (seen ++ l) -> fold_left Set_add l seen = seen ++ l).
  { clear. induction l as [|x l IH]; simpl; intros seen Hnd.
    - now rewrite app_nil_r.
    - unfold Set_add at 2. destruct (JS.includes seen x) eqn:Hinc.
      + apply includes_In in Hinc. apply NoDup_remove_2 in Hnd.
        exfalso. apply Hnd. apply in_or_app. now left.
      + rewrite IH; rewrite <- app_assoc; [reflexivity|assumption]. }
  now apply H.
Qed.

Lemma chain_graph_facts (us vs : list string) :
  NoDup vs -> (forall v, In v us <-> In v vs) ->
  (forall v, hasVertex (graph_of us [vs]) v = true <-> In v vs)
  /\ (forall a b, hasEdge (graph_of us [vs]) a b = true
                  <-> In (a, b) (consecutive vs)).
Proof.
  intros Hnd Hsame. unfold graph_of. simpl.
  assert (Hv0 : forall v, hasVertex (addVertices new us) v = true <-> In v vs).
  { intros v. rewrite (addVertices_hasVertex new us v), <- Hsame.
    split; [intros [H|H]; [discriminate|assumption]|auto]. }
  split.
  - intros v.
    rewrite (hasVertex_keys _ _
               (createDaisyChainEdges_keys (addVertices new us) vs)).
    apply Hv0.
  - intros a b. rewrite createDaisyChainEdges_pairs, edges_loop_hasEdge.
    + rewrite addVertices_hasEdge by (intros k n e H; discriminate).
      split; [intros [H|H]; [discriminate|assumption]|auto].
    + intros [x y] Hp. simpl. split; [now apply (consecutive_different vs)|].
      apply consecutive_In in Hp. split; apply Hv0; tauto.
Qed.

Lemma one_or_none (l suf : list string) :
  NoDup l -> (forall y, In y l <-> exists suf', suf = y :: suf') ->
  l = firstn 1 suf.
Proof.
  intros Hnd Hin. destruct suf as [|y0 suf]; simpl.
  - destruct l as [|y l]; [reflexivity|].
    destruct (proj1 (Hin y)) as [suf' H]; [now left|discriminate].
  - assert (Hall : forall y, In y l -> y = y0).
    { intros y Hy. apply Hin in Hy. destruct Hy as [suf' H]. congruence. }
    assert (Hy0 : In y0 l) by (apply Hin; eauto).
    destruct l as [|a [|b l]].
    + destruct Hy0.
    + now rewrite (Hall a) by now left.
    + exfalso. inversion Hnd as [|? ? Hnot _]; subst. apply Hnot. left.
      rewrite (Hall a), (Hall b); simpl; auto.
Qed.

(** The node of a vertex of the chain: the first vertex is the root, and
    the only end of a vertex is its neighbour to the right. *)
Lemma chain_node (us pre suf : list string) (x : string) :
  NoDup (pre ++ x :: suf) ->
  (forall v, In v us <-> In v (pre ++ x :: suf)) ->
  exists n,
    Map_get (graph_of us [pre ++ x :: suf]) x = Some n
    /\ isRoot n = match pre with [] => true | _ :: _ => false end
    /\ vertexEnds n = firstn 1 suf.
Proof.
  intros Hnd Hsame.
  destruct (chain_graph_facts us _ Hnd Hsame) as [Hvert Hedge].
  pose proof (run_closed
                (AddVertices us :: map CreateDaisyChainEdges [pre ++ x :: suf]))
    as Hclosed.
  pose proof (run_distinct_ends
                (AddVertices us :: map CreateDaisyChainEdges [pre ++ x :: suf]))
    as Hdistinct.
  pose proof (run_root_flags
                (AddVertices us :: map CreateDaisyChainEdges [pre ++ x :: suf]))
    as Hroots.
  rewrite <- graph_of_run in Hclosed, Hdistinct, Hroots.
  set (g := graph_of us [pre ++ x :: suf]) in *.
  assert (Hx : hasVertex g x = true).
  { apply Hvert. apply in_or_app. right. now left. }
  apply hasVertex_get in Hx. destruct Hx as [n Hn].
  exists n. split; [exact Hn|]. split.
  - destruct (isRoot n) eqn:Hr.
    + destruct pre as [|p pre']; [reflexivity|]. exfalso.
      pose proof (proj1 (Hroots x n Hn) Hr) as Hall.
      destruct (proj2 (consecutive_previous (p :: pre') suf x Hnd)) as [u Hu];
        [discriminate|].
      apply (proj2 (Hedge u x)) in Hu. rewrite Hall in Hu. discriminate.
    + destruct pre as [|p pre']; [|reflexivity]. exfalso.
      assert (Hall : forall u, hasEdge g u x = false).
      { intros u. destruct (hasEdge g u x) eqn:Hu; [|reflexivity].
        apply (proj1 (Hedge u x)) in Hu.
        assert (Hex : exists u, In (u, x) (consecutive ([] ++ x :: suf))) by eauto.
        apply (proj1 (consecutive_previous [] suf x Hnd)) in Hex. congruence. }
      pose proof (proj2 (Hroots x n Hn) Hall). congruence.
  - apply one_or_none; [exact (Hdistinct x n Hn)|].
    intros y. rewrite <- (consecutive_next pre suf x y Hnd), <- Hedge. split.
    + intros Hy. apply hasEdge_get. split; [exact (Hclosed x n y Hn Hy)|eauto].
    + intros Hy. apply hasEdge_ends in Hy. destruct Hy as (n' & Hn' & Hy).
      rewrite Hn in Hn'. now injection Hn' as <-.
Qed.

Lemma chain_named (us vs : list string) : named (graph_of us [vs]).
Proof. rewrite graph_of_run. apply run_named. Qed.

(** The last vertex of the chain is a leaf. *)
Lemma chain_traverse_last (us pre : list string) (x : string) (n : node)
      (fuel : nat) (r : ref) (st : store) :
  NoDup (pre ++ [x]) ->
  (forall v, In v us <-> In v (pre ++ [x])) ->
  pre <> [] ->
  Map_get (graph_of us [pre ++ [x]]) x = Some n ->
  _traverse (S fuel) (graph_of us [pre ++ [x]]) (Some n) r st
  = Return (collect r st).
Proof.
  intros Hnd Hsame Hpre Hn.
  destruct (chain_node us pre [] x Hnd Hsame) as (n' & Hn' & Hroot & Hends).
  rewrite Hn in Hn'. injection Hn' as <-.
  rewrite traverse_unfold, (chain_named us _ x n Hn),
    (isLeafVertex_node _ _ _ Hn), Hroot, Hends.
  destruct pre; [congruence|reflexivity].
Qed.

(** Every other vertex of the chain has one end, its neighbour. *)
Lemma chain_traverse_next (us pre suf : list string) (x y : string) (n : node)
      (fuel : nat) (r : ref) (st : store) :
  NoDup (pre ++ x :: y :: suf) ->
  (forall v, In v us <-> In v (pre ++ x :: y :: suf)) ->
  Map_get (graph_of us [pre ++ x :: y :: suf]) x = Some n ->
  JS.includes (deref st r) y = false ->
  _traverse (S fuel) (graph_of us [pre ++ x :: y :: suf]) (Some n) r st
  = _traverse fuel (graph_of us [pre ++ x :: y :: suf])
              (Map_get (graph_of us [pre ++ x :: y :: suf]) y) r (push r y st).
Proof.
  intros Hnd Hsame Hn Hinc.
  destruct (chain_node us pre (y :: suf) x Hnd Hsame) as (n' & Hn' & Hroot & Hends).
  rewrite Hn in Hn'. injection Hn' as <-.
  rewrite traverse_unfold, (chain_named us _ x n Hn),
    (isLeafVertex_node _ _ _ Hn), (isBranchVertex_node _ _ _ Hn), Hroot, Hends.
  destruct pre; simpl; now rewrite Hinc.
Qed.

(** The traversal along the chain, from the vertex [x] on. *)
Lemma chain_traverse (us : list string) (suf : list string) :
  forall pre x n r st fuel,
    NoDup (pre ++ x :: suf) ->
    (forall v, In v us <-> In v (pre ++ x :: suf)) ->
    (pre = [] -> suf <> []) ->
    Map_get (graph_of us [pre ++ x :: suf]) x = Some n ->
    r < length (heap st) ->
    deref st r = pre ++ [x] ->
    length suf < fuel ->
    exists st',
      _traverse fuel (graph_of us [pre ++ x :: suf]) (Some n) r st = Return st'
      /\ deref st' r = pre ++ x :: suf
      /\ paths st' = paths st ++ [r].
Proof.
  induction suf as [|y suf IH]; intros pre x n r st fuel Hnd Hsame Hlong Hn Hr Hd Hfuel;
    (destruct fuel as [|fuel]; [lia|]).
  - exists (collect r st). split; [|split; [exact Hd|reflexivity]].
    apply chain_traverse_last; auto.
    intros ->. now apply Hlong.
  - assert (Hinc : JS.includes (deref st r) y = false).
    { destruct (JS.includes (deref st r) y) eqn:Hinc; [|reflexivity].
      apply includes_In in Hinc. rewrite Hd in Hinc.
      replace (pre ++ x :: y :: suf) with ((pre ++ [x]) ++ y :: suf) in Hnd
        by now rewrite <- app_assoc.
      apply NoDup_remove_2 in Hnd. exfalso. apply Hnd.
      apply in_or_app. now left. }
    rewrite (chain_traverse_next us pre suf x y n fuel r st Hnd Hsame Hn Hinc).
    assert (Hnext : pre ++ x :: y :: suf = (pre ++ [x]) ++ y :: suf)
      by now rewrite <- app_assoc.
    rewrite Hnext in *.
    destruct (chain_node us (pre ++ [x]) suf y Hnd Hsame) as (ny & Hny & _).
    rewrite Hny.
    apply (IH (pre ++ [x]) y ny r (push r y st) fuel); auto.
    + intros H. now destruct pre.
    + now rewrite heap_push.
    + rewrite deref_push_same by assumption. now rewrite Hd.
    + simpl in Hfuel. lia.
Qed.

(** The graph of one chain: its paths, its loops and its roots. *)
Lemma chain_graph_results (us vs : list string) (fuel : nat) :
  NoDup vs -> (forall v, In v us <-> In v vs) ->
  2 <= length vs -> length vs <= fuel ->
  getPaths fuel (graph_of us [vs]) = Return [vs]
  /\ getLoopCount fuel (graph_of us [vs]) = Return 0
  /\ isFullyConnected (graph_of us [vs]) = true.
Proof.
  intros Hnd Hsame Hlen Hfuel.
  destruct vs as [|x suf]; [simpl in Hlen; lia|].
  assert (Hsuf : suf <> []) by (destruct suf; [simpl in Hlen; lia|discriminate]).
  set (g := graph_of us [x :: suf]).
  assert (Hu : unique_keys g).
  { unfold g. rewrite graph_of_run. apply run_unique_keys, new_unique_keys. }
  destruct (chain_node us [] suf x Hnd Hsame) as (n & Hn & Hroot & _).
  fold g in Hn.
  (* the root is the only root *)
  assert (Honly : forall k m, In (k, m) g -> isRoot m = true -> k = x).
  { intros k m Hin Hm. pose proof (In_Map_get g k m Hu Hin) as Hk.
    assert (Hkv : In k (x :: suf)).
    { apply (proj1 (chain_graph_facts us _ Hnd Hsame)). apply hasVertex_get. eauto. }
    destruct Hkv as [<-|Hk']; [reflexivity|]. exfalso.
    apply in_split in Hk'. destruct Hk' as (l1 & l2 & Heq).
    assert (Hsplit : x :: suf = (x :: l1) ++ k :: l2) by (rewrite Heq; reflexivity).
    rewrite Hsplit in Hnd, Hsame.
    destruct (chain_node us (x :: l1) l2 k Hnd Hsame) as (m' & Hm' & Hr' & _).
    rewrite <- Hsplit in Hm'. fold g in Hm'. congruence. }
  assert (Hpaths : getPaths fuel g = Return [x :: suf]).
  { unfold getPaths.
    assert (Hsize : negb (Nat.eqb (Map_size g) 0) = true).
    { pose proof (Map_get_In g x n Hn). unfold Map_size. now destruct g. }
    rewrite Hsize.
    match goal with
    | |- context [foldM ?f g empty_store] => set (F := f)
    end.
    pose proof (Map_get_In g x n Hn) as Hin.
    apply in_split in Hin. destruct Hin as (g1 & g2 & Hg).
    assert (Hskip : forall part st,
               (forall e, In e part -> In e g /\ fst e <> x) ->
               foldM F part st = Return st).
    { intros part st Hpart. apply foldM_skip. intros [k m] He.
      destruct (Hpart _ He) as [Hin Hne]. unfold F. simpl in *.
      destruct (isRoot m) eqn:Hm; [|reflexivity].
      exfalso. apply Hne. now apply (Honly k m). }
    assert (Hkeys : NoDup (map fst (g1 ++ (x, n) :: g2))) by (rewrite <- Hg; exact Hu).
    rewrite map_app in Hkeys. simpl in Hkeys.
    assert (Hparts : forall e, In e g1 \/ In e g2 -> In e g /\ fst e <> x).
    { intros e He. split.
      - rewrite Hg. apply in_or_app. destruct He; [now left|right; now right].
      - intros Hx. apply NoDup_remove_2 in Hkeys. apply Hkeys.
        rewrite <- Hx. apply in_or_app.
        destruct He; [left|right]; now apply in_map. }
    assert (Hfold : forall (f : store -> string * node -> outcome store) l1 l2 s,
               foldM f (l1 ++ l2) s = (s' <- foldM f l1 s ;; foldM f l2 s')).
    { clear. intros f l1. induction l1 as [|e l1 IH]; simpl; intros l2 s;
        [reflexivity|].
      destruct (f s e); simpl; auto. }
    set (st0 := {| heap := heap empty_store ++ [[vertexStart n]];
                   paths := paths empty_store |}).
    assert (Hr0 : length (heap empty_store) < length (heap st0)) by (simpl; lia).
    assert (Hd0 : deref st0 (length (heap empty_store)) = [] ++ [x]).
    { unfold deref. simpl. now rewrite (chain_named us _ x n Hn). }
    assert (Hf0 : length suf < fuel) by (simpl in Hfuel; lia).
    destruct (chain_traverse us suf [] x n (length (heap empty_store)) st0 fuel
                Hnd Hsame (fun _ => Hsuf) Hn Hr0 Hd0 Hf0)
      as (st' & Hrun & Hfinal & Hcollected).
    assert (Hall : foldM F g empty_store = Return st').
    { rewrite Hg, Hfold, Hskip by (intros e He; apply Hparts; now left).
      simpl. unfold F at 1. simpl. rewrite Hroot. simpl in Hrun. fold g in Hrun.
      simpl. unfold st0 in Hrun. simpl in Hrun. rewrite Hrun. simpl.
      apply Hskip. intros e He. apply Hparts. now right. }
    rewrite Hall. simpl. rewrite Hcollected. simpl in Hfinal |- *.
    now rewrite Hfinal. }
  split; [exact Hpaths|]. split.
  - unfold getLoopCount. rewrite Hpaths. simpl.
    rewrite hasLoop_has_duplicate.
    now rewrite (proj2 (has_duplicate_false (x :: suf)) Hnd).
  - apply (proj2 (one_root_iff g Hu)). exists x. split.
    + pose proof (isRootVertex_node g x n Hn) as Hx. congruence.
    + intros w Hw. apply isRootVertex_get in Hw. destruct Hw as (m & Hm & Hr).
      apply (Honly w m); [now apply Map_get_In|assumption].
Qed.

(** X17: the round trip of a chain.  Take the graph of the vertices [us]
    with one daisy chain [vs] of at least two pairwise different
    vertices, the same vertices as [us]; then [getPaths] returns the
    chain as its only path (a call depth of the length of the chain is
    enough), there is no loop, and the graph is fully connected. *)
Theorem chain_round_trip (us vs : list string) (fuel : nat) :
  NoDup vs -> (forall v, In v us <-> In v vs) ->
  2 <= length vs -> length vs <= fuel ->
  getPaths fuel (graph_of us [vs]) = Return [vs]
  /\ getLoopCount fuel (graph_of us [vs]) = Return 0
  /\ isFullyConnected (graph_of us [vs]) = true.
Proof. apply chain_graph_results. Qed.

Lemma chain_round_trip_witness :
  getPaths 3 (graph_of ["a"; "b"; "d"] [["b"; "a"; "d"]]) = Return [["b"; "a"; "d"]]
  /\ getLoopCount 3 (graph_of ["a"; "b"; "d"] [["b"; "a"; "d"]]) = Return 0
  /\ isFullyConnected (graph_of ["a"; "b"; "d"] [["b"; "a"; "d"]]) = true.
Proof.
  apply (chain_round_trip ["a"; "b"; "d"] ["b"; "a"; "d"] 3).
  - repeat constructor; simpl; intuition discriminate.
  - intros v. simpl. tauto.
  - simpl. lia.
  - simpl. lia.
Defined.

(** X18: when [getOrderedCharSet] returns one chain only and the
    elements of this chain are the characters of the words, then
    [extractAlphabetChars] returns this chain (with a call depth of the
    length of the chain at least). *)
Theorem extractAlphabetChars_single_chain (fuel : nat) (words vs : list string) :
  getOrderedCharSet fuel words = Return [vs] ->
  (forall c, In c (getUniqueCharSet words) <-> In c vs) ->
  length vs <= fuel ->
  extractAlphabetChars fuel words = Return (Some vs).
Proof.
  intros Hchains Hsame Hfuel.
  destruct words as [|w0 ws]; [destruct fuel; discriminate|].
  remember (w0 :: ws) as words.
  destruct (getOrderedCharSet_symbols fuel words [vs] Hchains vs (or_introl eq_refl))
    as [Hnd _].
  pose proof (getOrderedCharSet_chains fuel words [vs] Hchains) as Hlen.
  apply Forall_inv in Hlen.
  destruct (chain_graph_results (getUniqueCharSet words) vs fuel Hnd Hsame Hlen Hfuel)
    as (Hpaths & Hloops & Hfull).
  unfold extractAlphabetChars. rewrite Heqwords at 1. cbv zeta.
  rewrite Hchains. unfold graph_of in Hpaths, Hloops, Hfull.
  simpl fold_left in Hpaths, Hloops, Hfull. simpl.
  rewrite Hpaths. simpl. rewrite Hloops. simpl. rewrite Hfull.
  reflexivity.
Qed.

Lemma extractAlphabetChars_single_chain_witness :
  extractAlphabetChars 2 ["ab"; "b"] = Return (Some ["a"; "b"]).
Proof.
  apply (extractAlphabetChars_single_chain 2 ["ab"; "b"] ["a"; "b"]).
  - vm_compute. reflexivity.
  - intros c. vm_compute. tauto.
  - simpl. lia.
Defined.

End ChainProperties.

(** ** A word that is a prefix of another *)

Section PrefixWords.

(** Every group of the loop is passed on, and what the call on it returns
    is in the result of the loop. *)
Lemma groups_loop_complete (fuel : nat) (groups : list (list string))
      (init result : list (list string)) :
  foldM (fun orderedChars _words =>
           more <- getOrderedCharSet fuel (map JS.substring1 _words) ;;
           Return (orderedChars ++ more))
        groups init = Return result ->
  forall g, In g groups ->
    exists more,
      getOrderedCharSet fuel (map JS.substring1 g) = Return more
      /\ forall chain, In chain more -> In chain result.
Proof.
  revert init result. induction groups as [|g0 groups IH]; simpl;
    intros init result Hloop g Hg; [contradiction|].
  destruct (getOrderedCharSet fuel (map JS.substring1 g0)) as [more0| |] eqn:Hg0;
    simpl in Hloop; try discriminate.
  destruct Hg as [Hg|Hg].
  - subst g0. exists more0. split; [exact Hg0|].
    intros chain Hchain.
    destruct (groups_loop_result fuel groups _ _ Hloop) as (added & -> & _).
    apply in_or_app. left. apply in_or_app. now right.
  - exact (IH _ _ Hloop g Hg).
Qed.

Lemma two_elements {A : Type} (l : list A) (a b : A) :
  In a l -> In b l -> a <> b -> 2 <= length l.
Proof.
  destruct l as [|x [|y l]]; simpl; intros Ha Hb Hne.
  - contradiction.
  - destruct Ha as [<-|[]], Hb as [<-|[]]. congruence.
  - lia.
Qed.

(** Every first character of a word is a key of the object. *)
Lemma reduce_word_key (words : list string) (w : string) :
  In w words -> In (JS.charAt0 w) (JS.keys (fold_left group_word words [])).
Proof.
  intros Hw. destruct (reduce_groups words) as (_ & _ & Hcomplete).
  destruct (Hcomplete w Hw) as [g Hg].
  apply (Permutation_in _ (Permutation_sym (keys_Permutation words))).
  apply in_map_iff. exists (JS.charAt0 w, g). split; [reflexivity|].
  now apply get_In.
Qed.

(** The empty word of a call is in the group of the empty key. *)
Lemma empty_word_group (words : list string) :
  In "" words ->
  exists group,
    JS.get (fold_left group_word words []) "" = Some group /\ In "" group.
Proof.
  intros Hw. destruct (reduce_groups words) as (_ & Hsound & Hcomplete).
  destruct (Hcomplete "" Hw) as [g Hg]. simpl in Hg.
  exists g. split; [exact Hg|].
  rewrite (Hsound _ _ Hg). apply filter_In. split; [exact Hw|reflexivity].
Qed.

(** A word and a longer word that begins with it: some call sees the
    word stripped to the empty string, and the keys of that call are a
    chain of the result. *)
Lemma prefix_word_chain (fuel : nat) :
  forall words chains short long,
    getOrderedCharSet fuel words = Return chains ->
    In short words -> In long words ->
    String.prefix short long = true -> short <> long ->
    exists chain, In chain chains /\ In "" chain.
Proof.
  induction fuel as [|fuel IH]; intros words chains short long Hret Hs Hl Hpre Hne;
    [discriminate|].
  assert (Hwords : words <> []) by (intros ->; contradiction).
  rewrite getOrderedCharSet_unfold in Hret by assumption. cbv zeta in Hret.
  match type of Hret with
  | context [foldM ?f ?l ?s] => destruct (foldM f l s) as [result| |] eqn:Hloop
  end; simpl in Hret; try discriminate.
  injection Hret as <-.
  destruct short as [|c s].
  - (* the word is empty: the keys of this call hold the empty string *)
    exists (JS.keys (fold_left group_word words [])). split.
    + apply filter_In. split.
      * destruct (groups_loop_result fuel _ _ _ Hloop) as (added & -> & _).
        now left.
      * unfold longer_than_1. apply Nat.ltb_lt.
        apply (two_elements _ (JS.charAt0 "") (JS.charAt0 long)).
        -- now apply reduce_word_key.
        -- now apply reduce_word_key.
        -- destruct long; [congruence|discriminate].
    + exact (reduce_word_key words "" Hs).
  - (* both words are in the group of the first character *)
    destruct long as [|c' l]; [discriminate|]. simpl in Hpre.
    destruct (Ascii.ascii_dec c c') as [<-|]; [|discriminate].
    set (g := group_of (String c "") words).
    assert (Hgs : In (String c s) g)
      by (apply filter_In; split; [assumption|apply String.eqb_refl]).
    assert (Hgl : In (String c l) g)
      by (apply filter_In; split; [assumption|apply String.eqb_refl]).
    assert (Hg : In g (List.filter longer_than_1
                         (JS.values (fold_left group_word words [])))).
    { apply filter_In. split.
      - exact (group_values words (String c s) Hs).
      - unfold longer_than_1. apply Nat.ltb_lt.
        exact (two_elements g _ _ Hgs Hgl Hne). }
    destruct (groups_loop_complete fuel _ _ _ Hloop g Hg) as (more & Hmore & Hin).
    destruct (IH (map JS.substring1 g) more s l Hmore) as (chain & Hchain & Hempty).
    + apply in_map_iff. exists (String c s). now split.
    + apply in_map_iff. exists (String c l). now split.
    + exact Hpre.
    + congruence.
    + exists chain. split; [|exact Hempty].
      apply filter_In. split; [now apply Hin|].
      unfold longer_than_1. apply Nat.ltb_lt.
      pose proof (getOrderedCharSet_chains fuel _ more Hmore) as Hlen.
      rewrite Forall_forall in Hlen. exact (Hlen chain Hchain).
Qed.

(** C10: when a word of the list is the beginning of a longer word of the
    list, every result of [getOrderedCharSet] has a chain with the empty
    string as an element, and on pairwise different words the result is
    returned within a call depth of the length of the longest word plus
    one.  In a call the empty word is in the group of the empty key.  The
    empty string is not a character of any word and not among the unique
    characters.  On the word list ab, a the result is the one chain
    b, "". *)
Theorem getOrderedCharSet_prefix_word :
  (forall fuel words chains short long,
      getOrderedCharSet fuel words = Return chains ->
      In short words -> In long words ->
      String.prefix short long = true -> short <> long ->
      exists chain, In chain chains /\ In "" chain)
  /\ (forall fuel words short long,
        NoDup words -> list_max (map String.length words) < fuel ->
        In short words -> In long words ->
        String.prefix short long = true -> short <> long ->
        exists chains chain,
          getOrderedCharSet fuel words = Return chains
          /\ In chain chains /\ In "" chain)
  /\ (forall words, In "" words ->
        exists group,
          JS.get (fold_left group_word words []) "" = Some group /\ In "" group)
  /\ (forall word, ~ In "" (JS.split word))
  /\ (forall words, ~ In "" (getUniqueCharSet words))
  /\ (forall n, getOrderedCharSet (2 + n) ["ab"; "a"] = Return [["b"; ""]]).
Proof.
  split; [intros fuel; apply prefix_word_chain|].
  split.
  { intros fuel words short long Hnd Hfuel Hs Hl Hpre Hne.
    destruct (getOrderedCharSet_returns fuel (list_max (map String.length words))
                words Hfuel Hnd) as [chains Hret].
    - apply Forall_forall. intros w Hw.
      pose proof (proj1 (list_max_le (map String.length words) _) (le_n _)) as Hall.
      rewrite Forall_forall in Hall. apply Hall. now apply in_map.
    - destruct (prefix_word_chain fuel words chains short long Hret Hs Hl Hpre Hne)
        as (chain & Hchain & Hempty).
      exists chains, chain. auto. }
  split; [exact empty_word_group|].
  split.
  { intros word Hin. apply split_length in Hin. discriminate. }
  split.
  { intros words Hin. apply (proj1 (getUniqueCharSet_In words "")) in Hin.
    destruct Hin as (w & _ & Hc). apply split_length in Hc. discriminate. }
  intros n. vm_compute. reflexivity.
Qed.

Lemma getOrderedCharSet_prefix_word_witness :
  exists chains chain,
    getOrderedCharSet 4 ["xab"; "xa"; "xac"; "y"] = Return chains
    /\ In chain chains /\ In "" chain.
Proof.
  apply (proj1 (proj2 getOrderedCharSet_prefix_word)
           4 ["xab"; "xa"; "xac"; "y"] "xa" "xab").
  - repeat constructor; simpl; intuition discriminate.
  - simpl. lia.
  - simpl. tauto.
  - simpl. tauto.
  - reflexivity.
  - discriminate.
Defined.

End PrefixWords.
